(** * diffusion_edf: radial basis encoder, Equiformer blocks and query model

    A shallow embedding of
    - [diffusion_edf/equiformer/gaussian_rbf.py],
    - [diffusion_edf/block.py],
    - [diffusion_edf/query_model.py],
    - [diffusion_edf/skip.py]
    and the properties of the specification that concern them.

    Numbers.  Tensor entries and Python floats are modelled by the real
    numbers [R]: the statements on them are statements of exact arithmetic.
    What is kept of IEEE arithmetic there is the one event that exact
    arithmetic can see: a division by zero.  On tensors it yields [inf] or
    [nan], which is not a real number, so every tensor division is a partial
    operation ([None] stands for "no real value").  On plain Python floats
    it raises [ZeroDivisionError].  Python integers are [Z].

    Rounding, overflow and underflow are outside that model.  Where a
    property of the specification turns on them, the module [Binary64]
    evaluates the same source lines on IEEE binary64 numbers (the floats of
    Python and the entries of a [torch.float64] tensor), and the properties
    say which of the two arithmetics they are about. *)

From Stdlib Require Import String Reals Lra Lia ZArith List Bool.
From Stdlib Require Floats.
Import ListNotations.

Open Scope R_scope.

(** ** The option monad used for tensor code *)

Definition obind {A B : Type} (m : option A) (k : A -> option B) : option B :=
  match m with
  | Some a => k a
  | None => None
  end.

Notation "x <- m ;; k" := (obind m (fun x => k))
  (at level 61, m at next level, right associativity).

(** [mapM]: run a partial function over a list, failing as soon as one call
    fails. *)
Fixpoint mapM {A B : Type} (f : A -> option B) (l : list A) : option (list B) :=
  match l with
  | [] => Some []
  | a :: l' => b <- f a ;; bs <- mapM f l' ;; Some (b :: bs)
  end.

(** ** Comparisons of tensor entries

    A comparison such as [x > 0] yields a boolean tensor; multiplied with a
    float tensor its entries count as [1.0] and [0.0]. *)

Definition Rltb (x y : R) : bool := if Rlt_dec x y then true else false.
Definition Rleb (x y : R) : bool := if Rle_dec x y then true else false.
Definition Rgtb (x y : R) : bool := Rltb y x.
Definition Rgeb (x y : R) : bool := Rleb y x.

Definition ind (b : bool) : R := if b then 1 else 0.

(** Tensor division [x / y]. *)
Definition rdiv (x y : R) : option R :=
  if Req_dec_T y 0 then None else Some (x / y).

(** ** Python code that raises *)

Inductive exn : Type :=
| AssertionError
| NotImplementedError
| ValueError
| ZeroDivisionError
| IndexError
| RuntimeError.

Inductive result (A : Type) : Type :=
| Ok (a : A)
| Raise (e : exn).
Arguments Ok {A} a.
Arguments Raise {A} e.

Definition rbind {A B : Type} (m : result A) (k : A -> result B) : result B :=
  match m with
  | Ok a => k a
  | Raise e => Raise e
  end.

Notation "x <~ m ;; k" := (rbind m (fun x => k))
  (at level 61, m at next level, right associativity).

Definition assert (b : bool) : result unit :=
  if b then Ok tt else Raise AssertionError.

(** [math.sqrt] and the division of Python floats. *)
Definition math_sqrt (x : R) : result R :=
  if Rltb x 0 then Raise ValueError else Ok (sqrt x).

Definition fdiv (x y : R) : result R :=
  if Req_dec_T y 0 then Raise ZeroDivisionError else Ok (x / y).

(** * gaussian_rbf.py *)

Module GaussianRbf.

(** [x.pow(n)] for a Python [int] exponent: a negative exponent is the
    reciprocal of the positive power. *)
Definition tpow (x : R) (n : Z) : option R :=
  if (0 <=? n)%Z then Some (x ^ Z.to_nat n)
  else rdiv 1 (x ^ Z.to_nat (- n)).

(** [gaussian(x, mean, std)]; note the source's own constant for pi. *)
Definition pi : R := 3.14159.
Definition a : R := sqrt (2 * pi).

Definition gaussian (x mean std : R) : option R :=
  q <- rdiv (x - mean) std ;;
  rdiv (exp (- 0.5 * (q ^ 2))) (a * std).

(** [soft_step(x, n)]:
    [(x>0) * ((x<1)*((n+1)*x.pow(n)-n*x.pow(n+1)) + (x>=1))]. *)
Definition soft_step (x : R) (n : Z) : option R :=
  p <- tpow x n ;;
  p1 <- tpow x (n + 1) ;;
  Some (ind (Rgtb x 0) * (ind (Rltb x 1) * (IZR (n + 1) * p - IZR n * p1) + ind (Rgeb x 1))).

(** [soft_cutoff(x, thr, n, offset)]. *)
Definition soft_cutoff (x thr : R) (n : Z) (offset : R) : option R :=
  x1 <- rdiv (x - thr) (1 - thr) ;;
  let x2 := x1 * (1 + offset) in
  s <- soft_step x2 n ;;
  Some (1 - s).

(** [soft_square_cutoff(x, thr, n)]. *)
Definition soft_square_cutoff (x thr : R) (n : Z) : option R :=
  c1 <- soft_cutoff x thr n 0 ;;
  c2 <- soft_cutoff (1 - x) thr n 0 ;;
  Some (c1 * ind (Rgtb x 0.5) + c2 * ind (Rleb x 0.5)).

(** Defaults of the keyword arguments [thr] and [n]. *)
Definition default_thr : R := 0.8.
Definition default_n : Z := 3%Z.

(** [torch.nn.functional.softplus] with its defaults [beta = 1] and
    [threshold = 20]: linear above the threshold. *)
Definition softplus (x : R) : R :=
  if Rltb 20 x then x else ln (1 + exp x).

(** The layer: its hyper-parameters and its learned parameters.  [mean] and
    [std_logit] have shape [(1, num_basis)], [weight] and [bias] have shape
    [(1, 1)]. *)
Record GaussianRadialBasisLayer : Type := {
  num_basis : nat;
  cutoff : R;
  mean : list R;
  std_logit : list R;
  weight : R;
  bias : R;
  soft_cutoff_flag : bool
}.

(** [torch.linspace(0, 1, num_basis+2)[1:-1]]. *)
Definition linspace_inner (num_basis : nat) : list R :=
  map (fun i => INR i / INR (num_basis + 1)) (seq 1 num_basis).

(** [__init__(num_basis, cutoff, soft_cutoff)]: a negative size is refused
    by [torch.zeros], [2.0 / num_basis] raises for zero. *)
Definition GaussianRadialBasisLayer_init (nb : Z) (cutoff0 : R) (soft : bool)
  : result GaussianRadialBasisLayer :=
  _ <~ (if (nb <? 0)%Z then Raise RuntimeError else Ok tt) ;;
  w <~ fdiv 2 (IZR nb) ;;
  Ok {| num_basis := Z.to_nat nb;
        cutoff := cutoff0 + 0;
        mean := linspace_inner (Z.to_nat nb);
        std_logit := repeat (ln (exp w - 1)) (Z.to_nat nb);
        weight := 1;
        bias := 0;
        soft_cutoff_flag := soft |}.

(** The shape invariant of the parameters, set up by [__init__] and kept by
    training. *)
Definition wf (self : GaussianRadialBasisLayer) : Prop :=
  length (mean self) = num_basis self /\ length (std_logit self) = num_basis self.

(** Broadcast of a row of shape [(num_basis,)] against a parameter row. *)
Fixpoint zip3 (xs ms ss : list R) : option (list (R * R * R)) :=
  match xs, ms, ss with
  | [], [], [] => Some []
  | x :: xs', m :: ms', s :: ss' => r <- zip3 xs' ms' ss' ;; Some ((x, m, s) :: r)
  | _, _, _ => None
  end.

(** One row of [forward]: the basis vector of one distance. *)
Definition forward_row (self : GaussianRadialBasisLayer) (dist0 : R) : option (list R) :=
  dist <- rdiv dist0 (cutoff self) ;;
  let x := weight self * dist + bias self in
  let xrow := repeat x (num_basis self) in
  let std := map softplus (std_logit self) in
  cols <- zip3 xrow (mean self) std ;;
  g <- mapM (fun c => match c with (xj, mj, sj) => gaussian xj mj sj end) cols ;;
  if soft_cutoff_flag self then
    w <- soft_square_cutoff dist default_thr default_n ;;
    Some (map (fun gj => gj * w) g)
  else Some g.

(** [forward(dist)]: [dist] has shape [(N,)], the result [(N, num_basis)]. *)
Definition forward (self : GaussianRadialBasisLayer) (dist : list R) : option (list (list R)) :=
  mapM (forward_row self) dist.

(** The layer with [self.soft_cutoff] set to [False]. *)
Definition without_soft_cutoff (self : GaussianRadialBasisLayer) : GaussianRadialBasisLayer :=
  {| num_basis := num_basis self;
     cutoff := cutoff self;
     mean := mean self;
     std_logit := std_logit self;
     weight := weight self;
     bias := bias self;
     soft_cutoff_flag := false |}.

(** The polynomial of [soft_step] between 0 and 1, for a natural exponent. *)
Definition step_poly (n : nat) (x : R) : R := (INR n + 1) * x ^ n - INR n * x ^ S n.

End GaussianRbf.

(** * block.py: construction

    [__init__] methods are Python code: they raise.  A constructed module is
    represented by its attributes; a sub-module of a class defined outside
    these files ([LinearRS], [EquivariantLayerNormV2], [GraphAttentionMLP],
    [FpsPool], [RadiusGraph], [RadiusConnect],
    [GaussianRadialBasisLayerFiniteCutoff], ...) is represented by the
    arguments it is built from. *)

Module Init.

(** [o3.Irreps]: a tuple of (multiplicity, degree, parity); equality is
    equality of tuples, [dim] is the sum of [mul * (2 l + 1)]. *)
Definition Irrep : Type := (nat * nat * bool)%type.
Definition Irreps : Type := list Irrep.

Definition Irrep_eqb (x y : Irrep) : bool :=
  match x, y with
  | (m1, l1, p1), (m2, l2, p2) => Nat.eqb m1 m2 && Nat.eqb l1 l2 && Bool.eqb p1 p2
  end.

Fixpoint Irreps_eqb (x y : Irreps) : bool :=
  match x, y with
  | [], [] => true
  | i :: x', j :: y' => Irrep_eqb i j && Irreps_eqb x' y'
  | _, _ => false
  end.

Definition Irreps_dim (x : Irreps) : Z :=
  fold_right (fun i acc => match i with (m, l, _) => (Z.of_nat m * (2 * Z.of_nat l + 1) + acc)%Z end) 0%Z x.

Definition str_eqb (s t : string) : bool := String.eqb s t.

(** ** EquiformerBlock.__init__ *)

Record EquiformerBlockArgs : Type := {
  a_irreps_src : Irreps;
  a_irreps_dst : Irreps;
  a_irreps_edge_attr : Irreps;
  a_irreps_head : Irreps;
  a_num_heads : Z;
  a_fc_neurons : list Z;
  a_irreps_mlp_mid : Irreps + Z;
  a_attn_type : string;
  a_alpha_drop : R;
  a_proj_drop : R;
  a_drop_path_rate : R;
  a_src_bias : bool;
  a_dst_bias : bool
}.

Record EquiformerBlock : Type := {
  irreps_src : Irreps;
  irreps_dst : Irreps;
  irreps_edge_attr : Irreps;
  irreps_head : Irreps;
  num_heads : Z;
  fc_neurons : list Z;
  irreps_emb : Irreps;
  irreps_mlp_mid : Irreps;
  attn_type : string;
  linear_src_bias : bool;
  linear_dst_bias : bool;
  ga_alpha_drop : R;
  ga_proj_drop : R;
  drop_path : option R;
  ffn_proj_drop : R
}.

Section Construction.

(** [sort_irreps_even_first(irreps * k)[0].simplify()], a function of e3nn and
    of the Equiformer code base. *)
Variable mlp_mid_of_int : Irreps -> Z -> Irreps.

Definition EquiformerBlock_init (args : EquiformerBlockArgs) : result EquiformerBlock :=
  let irreps_emb := a_irreps_dst args in
  _ <~ assert (Z.eqb (a_num_heads args * Irreps_dim (a_irreps_head args)) (Irreps_dim irreps_emb)) ;;
  let irreps_mlp_mid :=
    match a_irreps_mlp_mid args with
    | inl irreps => irreps
    | inr k => mlp_mid_of_int irreps_emb k
    end in
  _ <~ (if negb (str_eqb (a_attn_type args) "mlp" || str_eqb (a_attn_type args) "linear"
                 || str_eqb (a_attn_type args) "dp")
        then Raise ValueError else Ok tt) ;;
  _ <~ (if str_eqb (a_attn_type args) "mlp" then Ok tt
        else if str_eqb (a_attn_type args) "linear" then Raise NotImplementedError
        else if str_eqb (a_attn_type args) "dp" then Raise NotImplementedError
        else Raise ValueError) ;;
  Ok {| irreps_src := a_irreps_src args;
        irreps_dst := a_irreps_dst args;
        irreps_edge_attr := a_irreps_edge_attr args;
        irreps_head := a_irreps_head args;
        num_heads := a_num_heads args;
        fc_neurons := a_fc_neurons args;
        irreps_emb := irreps_emb;
        irreps_mlp_mid := irreps_mlp_mid;
        attn_type := a_attn_type args;
        linear_src_bias := a_src_bias args;
        linear_dst_bias := a_dst_bias args;
        ga_alpha_drop := a_alpha_drop args;
        ga_proj_drop := a_proj_drop args;
        drop_path := if Rgtb (a_drop_path_rate args) 0 then Some (a_drop_path_rate args) else None;
        ffn_proj_drop := a_proj_drop args |}.

(** ** PoolingBlock.__init__ *)

Record FpsPool : Type := {
  fps_ratio : R;
  fps_random_start : bool;
  fps_r : R;
  fps_max_num_neighbors : Z
}.

(** [GaussianRadialBasisLayerFiniteCutoff(num_basis, cutoff, offset, soft_cutoff)];
    [None] is a keyword argument left to its default. *)
Record GaussianRadialBasisLayerFiniteCutoff : Type := {
  rf_num_basis : Z;
  rf_cutoff : R;
  rf_offset : option R;
  rf_soft_cutoff : option bool
}.

Record PoolingBlockArgs : Type := {
  pa_irreps_src : Irreps;
  pa_irreps_dst : Irreps;
  pa_irreps_edge_attr : Irreps;
  pa_irreps_head : Irreps;
  pa_num_heads : Z;
  pa_fc_neurons : list Z;
  pa_pool_radius : R;
  pa_pool_ratio : R;
  pa_pool_method : option string;
  pa_deterministic : bool;
  pa_irreps_mlp_mid : Irreps + Z;
  pa_attn_type : string;
  pa_alpha_drop : R;
  pa_proj_drop : R;
  pa_drop_path_rate : R
}.

Record PoolingBlock : Type := {
  pb_irreps_src : Irreps;
  pb_irreps_dst : Irreps;
  pb_block : EquiformerBlock;
  pb_pool_radius : R;
  pb_pool_ratio : R;
  pb_pool_layer : FpsPool;
  pb_num_radial_basis : Z;
  pb_radial_basis_fn : GaussianRadialBasisLayerFiniteCutoff
}.

(** What [PoolingBlock.__init__] does once the two signatures are known to
    be equal (lines 198 to 225). *)
Definition PoolingBlock_init_body (args : PoolingBlockArgs) : result PoolingBlock :=
  block <~ EquiformerBlock_init
             {| a_irreps_src := pa_irreps_src args;
                a_irreps_dst := pa_irreps_dst args;
                a_irreps_edge_attr := pa_irreps_edge_attr args;
                a_irreps_head := pa_irreps_head args;
                a_num_heads := pa_num_heads args;
                a_fc_neurons := pa_fc_neurons args;
                a_irreps_mlp_mid := pa_irreps_mlp_mid args;
                a_attn_type := pa_attn_type args;
                a_alpha_drop := pa_alpha_drop args;
                a_proj_drop := pa_proj_drop args;
                a_drop_path_rate := pa_drop_path_rate args;
                a_src_bias := false;
                a_dst_bias := true |} ;;
  pool_method <~ match pa_pool_method args with
                 | Some m => Ok m
                 | None => Raise AssertionError
                 end ;;
  pool_layer <~ (if str_eqb pool_method "fps"
                 then Ok {| fps_ratio := pa_pool_ratio args;
                            fps_random_start := negb (pa_deterministic args);
                            fps_r := pa_pool_radius args;
                            fps_max_num_neighbors := 1000 |}
                 else Raise ValueError) ;;
  _ <~ assert (1 <=? length (pa_fc_neurons args))%nat ;;
  let num_radial_basis := hd 0%Z (pa_fc_neurons args) in
  Ok {| pb_irreps_src := pa_irreps_src args;
        pb_irreps_dst := pa_irreps_dst args;
        pb_block := block;
        pb_pool_radius := pa_pool_radius args;
        pb_pool_ratio := pa_pool_ratio args;
        pb_pool_layer := pool_layer;
        pb_num_radial_basis := num_radial_basis;
        pb_radial_basis_fn := {| rf_num_basis := num_radial_basis;
                                 rf_cutoff := pa_pool_radius args * 0.99;
                                 rf_offset := None;
                                 rf_soft_cutoff := None |} |}.

Definition PoolingBlock_init (args : PoolingBlockArgs) : result PoolingBlock :=
  if negb (Irreps_eqb (pa_irreps_src args) (pa_irreps_dst args))
  then Raise NotImplementedError
  else PoolingBlock_init_body args.

(** ** RadiusGraphBlock.__init__ *)

Record RadiusGraph : Type := {
  rg_r : R;
  rg_max_num_neighbors : Z
}.

Record RadiusGraphBlockArgs : Type := {
  ra_irreps : Irreps;
  ra_irreps_edge_attr : Irreps;
  ra_irreps_head : Irreps;
  ra_num_heads : Z;
  ra_fc_neurons : list Z;
  ra_radius : R;
  ra_n_layers : Z;
  ra_irreps_mlp_mid : Irreps + Z;
  ra_attn_type : string;
  ra_alpha_drop : R;
  ra_proj_drop : R;
  ra_drop_path_rate : R
}.

Record RadiusGraphBlock : Type := {
  rb_irreps : Irreps;
  rb_r : R;
  rb_num_radial_basis : Z;
  rb_n_layers : Z;
  rb_radius_graph : RadiusGraph;
  rb_blocks : list EquiformerBlock;
  rb_radials : list GaussianRadialBasisLayerFiniteCutoff
}.

(** A list comprehension [[f() for _ in range(k)]] over a constructor that
    may raise. *)
Fixpoint build_list {A : Type} (f : result A) (k : nat) : result (list A) :=
  match k with
  | O => Ok []
  | S k' => x <~ f ;; xs <~ build_list f k' ;; Ok (x :: xs)
  end.

Definition RadiusGraphBlock_init (args : RadiusGraphBlockArgs) : result RadiusGraphBlock :=
  _ <~ assert (1 <=? length (ra_fc_neurons args))%nat ;;
  let num_radial_basis := hd 0%Z (ra_fc_neurons args) in
  _ <~ assert (1 <=? ra_n_layers args)%Z ;;
  blocks <~ build_list
              (EquiformerBlock_init
                 {| a_irreps_src := ra_irreps args;
                    a_irreps_dst := ra_irreps args;
                    a_irreps_edge_attr := ra_irreps_edge_attr args;
                    a_irreps_head := ra_irreps_head args;
                    a_num_heads := ra_num_heads args;
                    a_fc_neurons := ra_fc_neurons args;
                    a_irreps_mlp_mid := ra_irreps_mlp_mid args;
                    a_attn_type := ra_attn_type args;
                    a_alpha_drop := ra_alpha_drop args;
                    a_proj_drop := ra_proj_drop args;
                    a_drop_path_rate := ra_drop_path_rate args;
                    a_src_bias := false;
                    a_dst_bias := true |})
              (Z.to_nat (ra_n_layers args)) ;;
  Ok {| rb_irreps := ra_irreps args;
        rb_r := ra_radius args;
        rb_num_radial_basis := num_radial_basis;
        rb_n_layers := ra_n_layers args;
        rb_radius_graph := {| rg_r := ra_radius args; rg_max_num_neighbors := 1000 |};
        rb_blocks := blocks;
        rb_radials := repeat {| rf_num_basis := num_radial_basis;
                                rf_cutoff := ra_radius args * 0.99;
                                rf_offset := None;
                                rf_soft_cutoff := None |}
                             (Z.to_nat (ra_n_layers args)) |}.

(** ** DownBlock.__init__ *)

Record DownBlockArgs : Type := {
  da_irreps : Irreps;
  da_irreps_edge_attr : Irreps;
  da_irreps_head : Irreps;
  da_num_heads : Z;
  da_fc_neurons : list Z;
  da_init_radius : R;
  da_pool_ratio : R;
  da_n_scales : Z;
  da_n_layers_per_scale : Z;
  da_pool_method : option string;
  da_deterministic : bool;
  da_irreps_mlp_mid : Irreps + Z;
  da_attn_type : string;
  da_alpha_drop : R;
  da_proj_drop : R;
  da_drop_path_rate : R
}.

(** An element of [self.layers]. *)
Inductive Layer : Type :=
| LPooling (b : PoolingBlock)
| LRadiusGraph (b : RadiusGraphBlock).

Definition is_pooling (l : Layer) : bool :=
  match l with
  | LPooling _ => true
  | LRadiusGraph _ => false
  end.

Record DownBlock : Type := {
  db_n_scales : Z;
  db_n_layers_per_scale : Z;
  db_pool_ratio : R;
  db_pool_method : option string;
  layers : list Layer;
  radius_list : list R
}.

Definition is_none {A : Type} (o : option A) : bool :=
  match o with
  | None => true
  | Some _ => false
  end.

(** The state of the loop over scales: [self.layers], [self.radius_list]
    and the local variable [radius]. *)
Definition LoopState : Type := (list Layer * list R * R)%type.

(** One iteration of [for s in range(self.n_scales)] (lines 390 to 427). *)
Definition DownBlock_scale (args : DownBlockArgs) (st : LoopState) : result LoopState :=
  match st with
  | (layers, radius_list, radius) =>
    sq <~ math_sqrt (da_pool_ratio args) ;;
    radius <~ fdiv radius sq ;;
    let radius_list := radius_list ++ [radius] in
    layers <~ match da_pool_method args with
              | Some m =>
                b <~ PoolingBlock_init
                       {| pa_irreps_src := da_irreps args;
                          pa_irreps_dst := da_irreps args;
                          pa_irreps_edge_attr := da_irreps_edge_attr args;
                          pa_irreps_head := da_irreps_head args;
                          pa_num_heads := da_num_heads args;
                          pa_fc_neurons := da_fc_neurons args;
                          pa_pool_radius := radius;
                          pa_pool_ratio := da_pool_ratio args;
                          pa_pool_method := Some m;
                          pa_deterministic := da_deterministic args;
                          pa_irreps_mlp_mid := da_irreps_mlp_mid args;
                          pa_attn_type := da_attn_type args;
                          pa_alpha_drop := da_alpha_drop args;
                          pa_proj_drop := da_proj_drop args;
                          pa_drop_path_rate := da_drop_path_rate args |} ;;
                Ok (layers ++ [LPooling b])
              | None => Ok layers
              end ;;
    let n_self_connecting_layers :=
      (da_n_layers_per_scale args - (if is_none (da_pool_method args) then 0 else 1))%Z in
    layers <~ (if (1 <=? n_self_connecting_layers)%Z
               then
                 b <~ RadiusGraphBlock_init
                        {| ra_irreps := da_irreps args;
                           ra_irreps_edge_attr := da_irreps_edge_attr args;
                           ra_irreps_head := da_irreps_head args;
                           ra_num_heads := da_num_heads args;
                           ra_fc_neurons := da_fc_neurons args;
                           ra_radius := radius;
                           ra_n_layers := n_self_connecting_layers;
                           ra_irreps_mlp_mid := da_irreps_mlp_mid args;
                           ra_attn_type := da_attn_type args;
                           ra_alpha_drop := da_alpha_drop args;
                           ra_proj_drop := da_proj_drop args;
                           ra_drop_path_rate := da_drop_path_rate args |} ;;
                 Ok (layers ++ [LRadiusGraph b])
               else Ok layers) ;;
    Ok (layers, radius_list, radius)
  end.

(** [k] iterations of the loop. *)
Fixpoint DownBlock_scales (args : DownBlockArgs) (k : nat) (st : LoopState) : result LoopState :=
  match k with
  | O => Ok st
  | S k' => st' <~ DownBlock_scale args st ;; DownBlock_scales args k' st'
  end.

(** The check of lines 378 to 381. *)
Definition DownBlock_check_pool (pool_ratio : R) (pool_method : option string) : result unit :=
  if Req_dec_T pool_ratio 1
  then assert (is_none pool_method)
  else assert (negb (is_none pool_method)).

Definition DownBlock_init (args : DownBlockArgs) : result DownBlock :=
  _ <~ DownBlock_check_pool (da_pool_ratio args) (da_pool_method args) ;;
  _ <~ assert (1 <=? da_n_layers_per_scale args)%Z ;;
  sq <~ math_sqrt (da_pool_ratio args) ;;
  let radius := da_init_radius args * sq in
  st <~ DownBlock_scales args (Z.to_nat (da_n_scales args)) ([], [], radius) ;;
  match st with
  | (layers, radius_list, _) =>
    Ok {| db_n_scales := da_n_scales args;
          db_n_layers_per_scale := da_n_layers_per_scale args;
          db_pool_ratio := da_pool_ratio args;
          db_pool_method := da_pool_method args;
          layers := layers;
          radius_list := radius_list |}
  end.

(** ** EdfExtractor.__init__ *)

Record RadiusConnect : Type := {
  rc_r : R;
  rc_offset : option R;
  rc_max_num_neighbors : Z
}.

Record EdfExtractorArgs : Type := {
  ea_irreps_inputs : list Irreps;
  ea_fc_neurons_inputs : list (list Z);
  ea_irreps_emb : Irreps;
  ea_irreps_edge_attr : Irreps;
  ea_irreps_head : Irreps;
  ea_num_heads : Z;
  ea_fc_neurons : list Z;
  ea_n_layers : Z;
  ea_cutoffs : list R;
  ea_offsets : list R;
  ea_query_radius : R;
  ea_irreps_mlp_mid : Irreps + Z;
  ea_attn_type : string;
  ea_alpha_drop : R;
  ea_proj_drop : R;
  ea_drop_path_rate : R
}.

Record EdfExtractor : Type := {
  ex_n_scales : nat;
  ex_cutoffs : list R;
  ex_offsets : list R;
  ex_irreps_emb : Irreps;
  ex_emb_dim : Z;
  ex_n_layers : Z;
  ex_query_radius : R;
  pre_connect : list RadiusConnect;
  pre_radial : list GaussianRadialBasisLayerFiniteCutoff;
  pre_layers : list EquiformerBlock
}.

(** Indexing of a Python list: [l[n]]. *)
Definition getitem {A : Type} (l : list A) (n : nat) : result A :=
  match nth_error l n with
  | Some x => Ok x
  | None => Raise IndexError
  end.

Definition PreState : Type :=
  (list RadiusConnect * list GaussianRadialBasisLayerFiniteCutoff * list EquiformerBlock)%type.

(** One iteration of [for n in range(self.n_scales)] (lines 491 to 516). *)
Definition EdfExtractor_scale (args : EdfExtractorArgs) (n : nat) (st : PreState) : result PreState :=
  match st with
  | (pre_connect, pre_radial, pre_layers) =>
    cutoff_n <~ getitem (ea_cutoffs args) n ;;
    let pre_connect :=
      pre_connect ++ [{| rc_r := cutoff_n; rc_offset := None; rc_max_num_neighbors := 1000 |}] in
    fc <~ getitem (ea_fc_neurons_inputs args) n ;;
    fc0 <~ getitem fc 0 ;;
    cutoff_n' <~ getitem (ea_cutoffs args) n ;;
    offset_n <~ getitem (ea_offsets args) n ;;
    let pre_radial :=
      pre_radial ++ [{| rf_num_basis := fc0; rf_cutoff := cutoff_n';
                        rf_offset := Some offset_n; rf_soft_cutoff := Some true |}] in
    irreps_n <~ getitem (ea_irreps_inputs args) n ;;
    b <~ EquiformerBlock_init
           {| a_irreps_src := irreps_n;
              a_irreps_dst := ea_irreps_emb args;
              a_irreps_edge_attr := ea_irreps_edge_attr args;
              a_irreps_head := ea_irreps_head args;
              a_num_heads := ea_num_heads args;
              a_fc_neurons := fc;
              a_irreps_mlp_mid := ea_irreps_mlp_mid args;
              a_attn_type := ea_attn_type args;
              a_alpha_drop := ea_alpha_drop args;
              a_proj_drop := ea_proj_drop args;
              a_drop_path_rate := ea_drop_path_rate args;
              a_src_bias := false;
              a_dst_bias := true |} ;;
    Ok (pre_connect, pre_radial, pre_layers ++ [b])
  end.

(** The loop over [ns], the values of [range(self.n_scales)]. *)
Fixpoint EdfExtractor_scales (args : EdfExtractorArgs) (ns : list nat) (st : PreState) : result PreState :=
  match ns with
  | [] => Ok st
  | n :: ns' => st' <~ EdfExtractor_scale args n st ;; EdfExtractor_scales args ns' st'
  end.

Definition EdfExtractor_init (args : EdfExtractorArgs) : result EdfExtractor :=
  let n_scales := length (ea_irreps_inputs args) in
  _ <~ assert (Nat.eqb (length (ea_offsets args)) (length (ea_cutoffs args))
               && Nat.eqb (length (ea_cutoffs args)) (length (ea_fc_neurons_inputs args))
               && Nat.eqb (length (ea_fc_neurons_inputs args)) n_scales) ;;
  _ <~ assert (1 <=? ea_n_layers args)%Z ;;
  st <~ EdfExtractor_scales args (seq 0 n_scales) ([], [], []) ;;
  match st with
  | (pre_connect, pre_radial, pre_layers) =>
    Ok {| ex_n_scales := n_scales;
          ex_cutoffs := ea_cutoffs args;
          ex_offsets := ea_offsets args;
          ex_irreps_emb := ea_irreps_emb args;
          ex_emb_dim := Irreps_dim (ea_irreps_emb args);
          ex_n_layers := ea_n_layers args;
          ex_query_radius := ea_query_radius args;
          pre_connect := pre_connect;
          pre_radial := pre_radial;
          pre_layers := pre_layers |}
  end.

End Construction.

(** ** Notions used in the statements *)

(** A list in which every element is the one before it divided by [q], the
    first one being [r / q]. *)
Fixpoint radius_chain (q r : R) (l : list R) : Prop :=
  match l with
  | [] => True
  | x :: l' => x = r / q /\ radius_chain q x l'
  end.

(** The layers that one scale of a [DownBlock] adds at the radius [r]: a
    [PoolingBlock] when a pooling method is set, then a [RadiusGraphBlock]
    when self-connecting layers are left. *)
Definition scale_group (args : DownBlockArgs) (r : R) (grp : list Layer) : Prop :=
  exists pool rg,
    grp = pool ++ rg
    /\ match da_pool_method args with
       | Some _ => exists b, pool = [LPooling b] /\ pb_pool_radius b = r
                             /\ pb_pool_ratio b = da_pool_ratio args
       | None => pool = []
       end
    /\ (let k := (da_n_layers_per_scale args
                  - (if is_none (da_pool_method args) then 0 else 1))%Z in
        if (1 <=? k)%Z
        then exists g, rg = [LRadiusGraph g] /\ rb_r g = r /\ rb_n_layers g = k
                       /\ length (rb_blocks g) = Z.to_nat k
        else rg = []).

(** The radial basis and the Equiformer block of scale [i], once built. *)
Definition layer_built (args : EdfExtractorArgs)
    (pr : list GaussianRadialBasisLayerFiniteCutoff) (pl : list EquiformerBlock) (i : nat) : Prop :=
  exists y b fc fc0 irr,
    nth_error pr i = Some y /\ nth_error pl i = Some b
    /\ nth_error (ea_fc_neurons_inputs args) i = Some fc /\ nth_error fc 0 = Some fc0
    /\ rf_num_basis y = fc0 /\ rf_soft_cutoff y = Some true
    /\ nth_error (ea_irreps_inputs args) i = Some irr
    /\ irreps_src b = irr /\ irreps_dst b = ea_irreps_emb args /\ fc_neurons b = fc.

(** The connect module and the radial basis of scale [n], once built. *)
Definition scale_built (args : EdfExtractorArgs) (pc : list RadiusConnect)
    (pr : list GaussianRadialBasisLayerFiniteCutoff) (n : nat) : Prop :=
  exists c o x y,
    nth_error (ea_cutoffs args) n = Some c
    /\ nth_error (ea_offsets args) n = Some o
    /\ nth_error pc n = Some x
    /\ rc_r x = c /\ rc_offset x = None /\ rc_max_num_neighbors x = 1000%Z
    /\ nth_error pr n = Some y
    /\ rf_cutoff y = c /\ rf_offset y = Some o.

End Init.

(** * block.py: forward passes

    A forward pass is modelled for a fixed outcome of the random draws
    (dropout, stochastic depth).  A sub-module is then a partial function on
    tensors, a field of the module that owns it; [drop_path], which is
    called twice in a block, receives the number of the call.  Tensors of
    features and coordinates are lists of rows; index tensors are lists of
    natural numbers, batch tensors lists of integers.  An operation fails
    ([None]) where PyTorch raises; the sum and the difference of two tensors
    ask for equal shapes. *)

Module Forward.

Definition Tensor : Type := list (list R).
Definition Index : Type := list nat.
Definition Batch : Type := list Z.

Definition oassert (b : bool) : option unit := if b then Some tt else None.

Fixpoint vzip (f : R -> R -> R) (u v : list R) : option (list R) :=
  match u, v with
  | [], [] => Some []
  | x :: u', y :: v' => r <- vzip f u' v' ;; Some (f x y :: r)
  | _, _ => None
  end.

Fixpoint tzip (f : R -> R -> R) (s t : Tensor) : option Tensor :=
  match s, t with
  | [], [] => Some []
  | u :: s', v :: t' => r <- vzip f u v ;; rs <- tzip f s' t' ;; Some (r :: rs)
  | _, _ => None
  end.

(** [s + t] and [s - t]. *)
Definition tadd (s t : Tensor) : option Tensor := tzip Rplus s t.
Definition tsub (s t : Tensor) : option Tensor := tzip Rminus s t.

(** [t[idx]] and [t.index_select(0, idx)]. *)
Definition index (t : Tensor) (idx : Index) : option Tensor :=
  mapM (fun i => nth_error t i) idx.

(** [t.norm(dim=1, p=2)]. *)
Definition norm2 (row : list R) : R :=
  sqrt (fold_right (fun x acc => x * x + acc) 0 row).

(** [zero_features.expand(n, d)]. *)
Definition zeros (n d : nat) : Tensor := repeat (repeat 0 d) n.

(** ** FeedForwardNetwork *)

Record FeedForwardNetwork : Type := {
  fctp_1 : Tensor -> Tensor -> option Tensor;
  fctp_2 : Tensor -> Tensor -> option Tensor;
  proj_drop : option (Tensor -> option Tensor)
}.

Definition FeedForwardNetwork_forward (self : FeedForwardNetwork) (node_input : Tensor) : option Tensor :=
  let node_attr := map (fun row => map (fun _ => 1) (firstn 1 row)) node_input in
  node_output <- fctp_1 self node_input node_attr ;;
  node_output <- fctp_2 self node_output node_attr ;;
  match proj_drop self with
  | Some drop => drop node_output
  | None => Some node_output
  end.

(** ** EquiformerBlock *)

Record EquiformerBlock : Type := {
  norm_1_src : Tensor -> option Tensor;
  norm_1_dst : Tensor -> option Tensor;
  linear_src : Tensor -> option Tensor;
  linear_dst : Tensor -> option Tensor;
  ga : Tensor -> Index -> Tensor -> Tensor -> nat -> option Tensor;
  drop_path : option (nat -> Tensor -> Batch -> option Tensor);
  norm_2 : Tensor -> Batch -> option Tensor;
  ffn : FeedForwardNetwork
}.

(** Lines 137 to 143 of [EquiformerBlock.forward]: the per-edge message.
    Each of [message_src] and [message_dst] is assigned twice. *)
Definition EquiformerBlock_message (self : EquiformerBlock)
    (node_input_src node_input_dst : Tensor) (edge_src edge_dst : Index) : option Tensor :=
  message_src <- norm_1_src self node_input_src ;;
  message_src <- linear_src self node_input_src ;;
  message_dst <- norm_1_dst self node_input_dst ;;
  message_dst <- linear_dst self node_input_dst ;;
  gs <- index message_src edge_src ;;
  gd <- index message_dst edge_dst ;;
  tadd gs gd.

Definition apply_drop_path (self : EquiformerBlock) (call : nat)
    (node_features : Tensor) (batch_dst : Batch) : option Tensor :=
  match drop_path self with
  | Some drop => drop call node_features batch_dst
  | None => Some node_features
  end.

Definition EquiformerBlock_forward (self : EquiformerBlock)
    (node_input_src node_input_dst : Tensor) (batch_dst : Batch)
    (edge_src edge_dst : Index) (edge_attr edge_scalars : Tensor) : option Tensor :=
  message <- EquiformerBlock_message self node_input_src node_input_dst edge_src edge_dst ;;
  node_features <- ga self message edge_dst edge_attr edge_scalars (length node_input_dst) ;;
  node_features <- apply_drop_path self 0 node_features batch_dst ;;
  node_output <- tadd node_input_dst node_features ;;
  node_features <- norm_2 self node_output batch_dst ;;
  node_features <- FeedForwardNetwork_forward (ffn self) node_features ;;
  node_features <- apply_drop_path self 1 node_features batch_dst ;;
  node_output <- tadd node_output node_features ;;
  Some node_output.

(** The message that the specification describes: the projections applied
    to the normalized features. *)
Definition message_of_normalized (self : EquiformerBlock)
    (node_input_src node_input_dst : Tensor) (edge_src edge_dst : Index) : option Tensor :=
  normed_src <- norm_1_src self node_input_src ;;
  message_src <- linear_src self normed_src ;;
  normed_dst <- norm_1_dst self node_input_dst ;;
  message_dst <- linear_dst self normed_dst ;;
  gs <- index message_src edge_src ;;
  gd <- index message_dst edge_dst ;;
  tadd gs gd.

(** ** EdfExtractor *)

Record EdfExtractor : Type := {
  n_scales : nat;
  emb_dim : nat;
  pre_connect : list (Tensor -> Batch -> Tensor -> Batch -> option (Index * Index));
  pre_radial : list (list R -> option Tensor);
  pre_layers : list EquiformerBlock;
  spherical_harmonics : Tensor -> option Tensor;
  proj : Tensor -> option Tensor
}.

(** The modules of one scale, as [zip] pairs them. *)
Definition ScaleModules : Type :=
  ((Tensor -> Batch -> Tensor -> Batch -> option (Index * Index))
   * (list R -> option Tensor) * EquiformerBlock)%type.

(** [zip(a, b, c)] stops at the shortest list. *)
Fixpoint zip_modules (cs : list (Tensor -> Batch -> Tensor -> Batch -> option (Index * Index)))
    (rs : list (list R -> option Tensor)) (ls : list EquiformerBlock) : list ScaleModules :=
  match cs, rs, ls with
  | c :: cs', r :: rs', l :: ls' => (c, r, l) :: zip_modules cs' rs' ls'
  | _, _, _ => []
  end.

(** [enumerate(l)], counting from [n]. *)
Fixpoint enumerate {A : Type} (n : nat) (l : list A) : list (nat * A) :=
  match l with
  | [] => []
  | x :: l' => (n, x) :: enumerate (S n) l'
  end.

(** The value that the body of the loop adds to [node_feature_dst] at scale
    [n] (lines 562 to 578). *)
Definition EdfExtractor_scale_output (self : EdfExtractor)
    (query_coord : Tensor) (query_batch : Batch)
    (node_features node_coords : list Tensor) (node_batches : list Batch)
    (n : nat) (m : ScaleModules) : option Tensor :=
  match m with
  | (connect, radial, layers) =>
    node_coords_n <- nth_error node_coords n ;;
    node_batches_n <- nth_error node_batches n ;;
    edges <- connect node_coords_n node_batches_n query_coord query_batch ;;
    let edge_src := fst edges in
    let edge_dst := snd edges in
    vs <- index node_coords_n edge_src ;;
    vd <- index query_coord edge_dst ;;
    edge_vec <- tsub vs vd ;;
    edge_attr <- spherical_harmonics self edge_vec ;;
    let edge_length := map norm2 edge_vec in
    edge_scalar <- radial edge_length ;;
    node_features_n <- nth_error node_features n ;;
    EquiformerBlock_forward layers node_features_n
      (zeros (length query_coord) (emb_dim self))
      query_batch edge_src edge_dst edge_attr edge_scalar
  end.

(** The loop of [EdfExtractor.forward], with [node_feature_dst] as its
    state. *)
Fixpoint EdfExtractor_loop (self : EdfExtractor)
    (query_coord : Tensor) (query_batch : Batch)
    (node_features node_coords : list Tensor) (node_batches : list Batch)
    (ms : list (nat * ScaleModules)) (node_feature_dst : Tensor) : option Tensor :=
  match ms with
  | [] => Some node_feature_dst
  | (n, m) :: ms' =>
    out <- EdfExtractor_scale_output self query_coord query_batch
             node_features node_coords node_batches n m ;;
    node_feature_dst <- tadd node_feature_dst out ;;
    EdfExtractor_loop self query_coord query_batch node_features node_coords node_batches
      ms' node_feature_dst
  end.

Definition EdfExtractor_forward (self : EdfExtractor)
    (query_coord : Tensor) (query_batch : Batch)
    (node_features node_coords : list Tensor) (node_batches : list Batch) : option Tensor :=
  _ <- oassert (Nat.eqb (length node_features) (length node_coords)
                && Nat.eqb (length node_coords) (length node_batches)
                && Nat.eqb (length node_batches) (n_scales self)) ;;
  _ <- oassert (forallb (fun row => Nat.eqb (length row) 3) query_coord) ;;
  let node_feature_dst := zeros (length query_coord) (emb_dim self) in
  node_feature_dst <- EdfExtractor_loop self query_coord query_batch
                        node_features node_coords node_batches
                        (enumerate 0 (zip_modules (pre_connect self) (pre_radial self) (pre_layers self)))
                        node_feature_dst ;;
  proj self node_feature_dst.

(** ** PoolingBlock, RadiusGraphBlock and DownBlock *)

(** What a connectivity module ([FpsPool], [RadiusGraph]) returns:
    [(node_feature_dst, node_coord_dst, edge_src, edge_dst, degree, batch_dst)]. *)
Record GraphOutput : Type := {
  g_node_feature_dst : Tensor;
  g_node_coord_dst : Tensor;
  g_edge_src : Index;
  g_edge_dst : Index;
  g_degree : list Z;
  g_batch_dst : Batch
}.

(** The tuple that a layer of a [DownBlock] returns:
    [(node_feature, node_coord, edge_src, edge_dst, edge_length, edge_attr,
    degree, batch)]. *)
Record LayerOutput : Type := {
  out_node_feature : Tensor;
  out_node_coord : Tensor;
  out_edge_src : Index;
  out_edge_dst : Index;
  out_edge_length : list R;
  out_edge_attr : Tensor;
  out_degree : list Z;
  out_batch : Batch
}.

Record PoolingBlock : Type := {
  pool_layer : Tensor -> Tensor -> Batch -> option GraphOutput;
  pool_block : EquiformerBlock;
  pool_radial_basis_fn : list R -> option Tensor;
  pool_spherical_harmonics : Tensor -> option Tensor
}.

(** [pool_layer] is called as
    [pool_layer(node_coord_src, node_feature_src, batch_src)]. *)
Definition PoolingBlock_forward (self : PoolingBlock)
    (node_feature node_coord : Tensor) (batch : Batch) : option LayerOutput :=
  g <- pool_layer self node_coord node_feature batch ;;
  vs <- index node_coord (g_edge_src g) ;;
  vd <- index (g_node_coord_dst g) (g_edge_dst g) ;;
  edge_vec <- tsub vs vd ;;
  edge_attr <- pool_spherical_harmonics self edge_vec ;;
  let edge_length := map norm2 edge_vec in
  edge_scalars <- pool_radial_basis_fn self edge_length ;;
  node_feature_dst <- EquiformerBlock_forward (pool_block self) node_feature
                        (g_node_feature_dst g) (g_batch_dst g)
                        (g_edge_src g) (g_edge_dst g) edge_attr edge_scalars ;;
  Some {| out_node_feature := node_feature_dst;
          out_node_coord := g_node_coord_dst g;
          out_edge_src := g_edge_src g;
          out_edge_dst := g_edge_dst g;
          out_edge_length := edge_length;
          out_edge_attr := edge_attr;
          out_degree := g_degree g;
          out_batch := g_batch_dst g |}.

Record RadiusGraphBlock : Type := {
  radius_graph : Tensor -> Tensor -> Batch -> option GraphOutput;
  rg_blocks : list EquiformerBlock;
  rg_radials : list (list R -> option Tensor);
  rg_spherical_harmonics : Tensor -> option Tensor
}.

(** The loop over [zip(self.blocks, self.radials)], with [node_feature] as
    its state. *)
Fixpoint RadiusGraphBlock_loop (brs : list (EquiformerBlock * (list R -> option Tensor)))
    (node_feature : Tensor) (batch : Batch) (edge_src edge_dst : Index)
    (edge_attr : Tensor) (edge_length : list R) : option Tensor :=
  match brs with
  | [] => Some node_feature
  | (block, radial_basis_fn) :: brs' =>
    edge_scalars <- radial_basis_fn edge_length ;;
    node_feature <- EquiformerBlock_forward block node_feature node_feature batch
                      edge_src edge_dst edge_attr edge_scalars ;;
    RadiusGraphBlock_loop brs' node_feature batch edge_src edge_dst edge_attr edge_length
  end.

Definition RadiusGraphBlock_forward (self : RadiusGraphBlock)
    (node_feature node_coord : Tensor) (batch : Batch) : option LayerOutput :=
  g <- radius_graph self node_coord node_feature batch ;;
  vs <- index node_coord (g_edge_src g) ;;
  vd <- index node_coord (g_edge_dst g) ;;
  edge_vec <- tsub vs vd ;;
  edge_attr <- rg_spherical_harmonics self edge_vec ;;
  let edge_length := map norm2 edge_vec in
  node_feature <- RadiusGraphBlock_loop (combine (rg_blocks self) (rg_radials self))
                    node_feature batch (g_edge_src g) (g_edge_dst g) edge_attr edge_length ;;
  Some {| out_node_feature := node_feature;
          out_node_coord := node_coord;
          out_edge_src := g_edge_src g;
          out_edge_dst := g_edge_dst g;
          out_edge_length := edge_length;
          out_edge_attr := edge_attr;
          out_degree := g_degree g;
          out_batch := batch |}.

(** An element of [DownBlock.layers] and its call. *)
Inductive Layer : Type :=
| LPooling (b : PoolingBlock)
| LRadiusGraph (b : RadiusGraphBlock).

Definition Layer_forward (layer : Layer) (node_feature node_coord : Tensor) (batch : Batch)
  : option LayerOutput :=
  match layer with
  | LPooling b => PoolingBlock_forward b node_feature node_coord batch
  | LRadiusGraph b => RadiusGraphBlock_forward b node_feature node_coord batch
  end.

(** [DownBlock.forward]: every layer is run on the features, coordinates
    and batch that the layer before it returned ([output[0]], [output[1]],
    [output[7]]). *)
Fixpoint DownBlock_forward (layers : list Layer) (node_feature node_coord : Tensor)
    (batch : Batch) : option (list LayerOutput) :=
  match layers with
  | [] => Some []
  | layer :: layers' =>
    output <- Layer_forward layer node_feature node_coord batch ;;
    outputs <- DownBlock_forward layers' (out_node_feature output) (out_node_coord output)
                 (out_batch output) ;;
    Some (output :: outputs)
  end.

(** ** Notions used in the statements *)

(** The shape of a tensor: the length of every row. *)
Definition shape (t : Tensor) : list nat := map (@length R) t.

(** The part of a graph that [RadiusGraphBlock.forward] reads. *)
Definition edges_of (g : GraphOutput) : Index * Index * list Z :=
  (g_edge_src g, g_edge_dst g, g_degree g).

(** The output [o] with other coordinates. *)
Definition with_node_coord (c : Tensor) (o : LayerOutput) : LayerOutput :=
  {| out_node_feature := out_node_feature o;
     out_node_coord := c;
     out_edge_src := out_edge_src o;
     out_edge_dst := out_edge_dst o;
     out_edge_length := out_edge_length o;
     out_edge_attr := out_edge_attr o;
     out_degree := out_degree o;
     out_batch := out_batch o |}.

(** The coordinates [t] moved by the vector [v]. *)
Definition translate (v : list R) (t : Tensor) : Tensor :=
  map (fun row => map (fun p => fst p + snd p) (combine row v)) t.

(** The sum of the tensors [cs] added to [acc] one after the other, and
    the entry of a tensor at row [i] and column [j]. *)
Fixpoint tsum (acc : Tensor) (cs : list Tensor) : option Tensor :=
  match cs with
  | [] => Some acc
  | c :: cs' => acc' <- tadd acc c ;; tsum acc' cs'
  end.

Definition entry (t : Tensor) (i j : nat) : R := nth j (nth i t []) 0.

(** The outputs of the scales, each computed on its own. *)
Definition EdfExtractor_scale_outputs (self : EdfExtractor)
    (query_coord : Tensor) (query_batch : Batch)
    (node_features node_coords : list Tensor) (node_batches : list Batch) : option (list Tensor) :=
  mapM (fun nm => EdfExtractor_scale_output self query_coord query_batch
                    node_features node_coords node_batches (fst nm) (snd nm))
       (enumerate 0 (zip_modules (pre_connect self) (pre_radial self) (pre_layers self))).

End Forward.

(** * query_model.py: the combined batch-and-scale index *)

Module QueryModel.

(** Lines 167 and 168 of [QueryModel.forward]: row [s] of
    [query_batch_n_scale] is [query_batch * s + s]. *)
Definition query_scale (n_scales : Z) : list Z :=
  map Z.of_nat (seq 0 (Z.to_nat n_scales)).

Definition encode (b s : Z) : Z := (b * s + s)%Z.

Definition query_batch_n_scale (n_scales : Z) (query_batch : list Z) : list (list Z) :=
  map (fun s => map (fun b => encode b s) query_batch) (query_scale n_scales).

(** The decoding of [_get_init_query_pos] (lines 112 to 116): the scale of
    a combined index is [i % n_scales], its batch [i // n_scales]; both
    round towards minus infinity, as [Z.modulo] and [Z.div] do. *)
Definition decode_scale (n_scales i : Z) : Z := (i mod n_scales)%Z.
Definition decode_batch (n_scales i : Z) : Z := (i / n_scales)%Z.

(** The indices of the nodes of the top scale (line 112). *)
Definition top_scale_node_idx (n_scales : Z) (node_batch_n_scale : list Z) : list nat :=
  map fst (filter (fun p => Z.eqb (decode_scale n_scales (snd p)) (n_scales - 1))
                  (combine (seq 0 (length node_batch_n_scale)) node_batch_n_scale)).

(** The encoding that the decoding inverts. *)
Definition encode_by_n_scales (n_scales b s : Z) : Z := (b * n_scales + s)%Z.

(** [l.index_select(0, idx)] on a list. *)
Definition index_select {A : Type} (l : list A) (idx : list nat) : option (list A) :=
  mapM (fun i => nth_error l i) idx.

(** [_get_init_query_pos] (lines 110 to 122).  [fps] is the farthest point
    sampling of torch_cluster, called as
    [fps(src, batch, ratio, random_start)]; it returns indices into [src].
    The remainder and the quotient of integer tensors by zero raise. *)
Definition _get_init_query_pos
    (fps : list (list R) -> list Z -> R -> bool -> option (list nat))
    (n_scales : Z) (query_downsample_ratio : R) (deterministic : bool)
    (node_coord : list (list R)) (node_batch_n_scale : list Z) (only_from_top_scale : bool)
  : option (list (list R) * list Z) :=
  if (n_scales =? 0)%Z then None else
  sel <- (if only_from_top_scale
          then
            let idx := top_scale_node_idx n_scales node_batch_n_scale in
            node_coord' <- index_select node_coord idx ;;
            picked <- index_select node_batch_n_scale idx ;;
            Some (node_coord', map (decode_batch n_scales) picked)
          else Some (node_coord, map (decode_batch n_scales) node_batch_n_scale)) ;;
  let node_coord := fst sel in
  let batch := snd sel in
  node_dst_idx <- fps node_coord batch query_downsample_ratio (negb deterministic) ;;
  query_coord <- index_select node_coord node_dst_idx ;;
  query_batch <- index_select batch node_dst_idx ;;
  Some (query_coord, query_batch).

(** [zip(l[:-1], l[1:])]: the pairs of neighbours of a list. *)
Definition zip_neighbours (l : list R) : list (R * R) :=
  combine (removelast l) (tl l).

(** The offsets that [__init__] gives to the weight field (line 81):
    [[min_offset] + [max(min_offset, offset - 0.2*(cutoff - offset))
    for offset, cutoff in zip(cutoff_radius[:-1], cutoff_radius[1:])]]. *)
Definition weight_field_offsets (min_offset : R) (cutoff_radius : list R) : list R :=
  min_offset
  :: map (fun oc => Rmax min_offset (fst oc - 0.2 * (snd oc - fst oc)))
         (zip_neighbours cutoff_radius).

End QueryModel.

(** * skip.py *)

Module Skip.

(** A sub-module that is [torch.nn.Identity()] is [Identity]; the others
    are the function they compute. *)
Inductive Module : Type :=
| Identity
| Learned (f : Forward.Tensor -> option Forward.Tensor).

Definition call (m : Module) (x : Forward.Tensor) : option Forward.Tensor :=
  match m with
  | Identity => Some x
  | Learned f => f x
  end.

Record ProjectIfMismatch : Type := {
  irreps_in : Init.Irreps;
  irreps_out : Init.Irreps;
  skip : Module;
  layernorm : Module
}.

Section Construction.

(** [LinearRS(irreps_in, irreps_out, bias, rescale)] and
    [EquivariantLayerNormV2(irreps)]: the functions that the modules built
    from these arguments compute. *)
Variable LinearRS : Init.Irreps -> Init.Irreps -> bool -> bool -> Forward.Tensor -> option Forward.Tensor.
Variable EquivariantLayerNormV2 : Init.Irreps -> Forward.Tensor -> option Forward.Tensor.

Definition ProjectIfMismatch_init (irreps_in0 irreps_out0 : Init.Irreps) : ProjectIfMismatch :=
  if Init.Irreps_eqb irreps_in0 irreps_out0
  then {| irreps_in := irreps_in0; irreps_out := irreps_out0;
          skip := Identity; layernorm := Identity |}
  else {| irreps_in := irreps_in0; irreps_out := irreps_out0;
          skip := Learned (LinearRS irreps_in0 irreps_out0 true true);
          layernorm := Learned (EquivariantLayerNormV2 irreps_out0) |}.

End Construction.

Definition ProjectIfMismatch_forward (self : ProjectIfMismatch) (x : Forward.Tensor)
  : option Forward.Tensor :=
  x <- call (skip self) x ;;
  call (layernorm self) x.

End Skip.

(** * IEEE binary64 arithmetic

    The floats of Python and the entries of a [torch.float64] tensor are
    IEEE binary64 numbers; their sum, difference, product, quotient and
    square root are the correctly rounded ones, which is what the primitive
    floats of Rocq compute.  This module evaluates, on such numbers, the
    source lines whose result depends on rounding or overflow: the windows
    of [gaussian_rbf.py], the two lines of [forward] around them, and the
    radius arithmetic of [DownBlock.__init__].  On tensors no operation
    raises: a division by zero yields [inf] or [nan]. *)

Module Binary64.
Import Floats.
#[local] Set Warnings "-inexact-float".
Local Open Scope float_scope.

(** A boolean tensor entry multiplied with or added to a float entry counts
    as [1.0] or [0.0]. *)
Definition ind64 (b : bool) : float := if b then 1 else 0.

(** A Python [int] as a float, for an [int] below [2^63] in absolute value. *)
Definition of_int (n : Z) : float :=
  if (0 <=? n)%Z then of_uint63 (Uint63.of_Z n)
  else - of_uint63 (Uint63.of_Z (- n)).

(** [x.pow(k)] for an [int] exponent, as the product [((x * x) * ...) * x].
    PyTorch computes the square and the cube so; a higher power comes from
    the [pow] of the C library, which may differ from the product in the
    last place of a finite result.  Both are [inf] on the inputs used below,
    where the power exceeds the largest binary64 number by many orders of
    magnitude. *)
Fixpoint pow_nat (x : float) (k : nat) : float :=
  match k with
  | O => 1
  | S k' => pow_nat x k' * x
  end.

Definition tpow64 (x : float) (n : Z) : float :=
  if (0 <=? n)%Z then pow_nat x (Z.to_nat n)
  else 1 / pow_nat x (Z.to_nat (- n)).

(** [soft_step(x, n)]:
    [(x>0) * ((x<1)*((n+1)*x.pow(n)-n*x.pow(n+1)) + (x>=1))]. *)
Definition soft_step64 (x : float) (n : Z) : float :=
  ind64 (0 <? x)
  * (ind64 (x <? 1) * (of_int (n + 1) * tpow64 x n - of_int n * tpow64 x (n + 1))
     + ind64 (1 <=? x)).

(** [soft_cutoff(x, thr, n, offset)]. *)
Definition soft_cutoff64 (x thr : float) (n : Z) (offset : float) : float :=
  let x := (x - thr) / (1 - thr) in
  let x := x * (1 + offset) in
  1 - soft_step64 x n.

(** [soft_square_cutoff(x, thr, n)]. *)
Definition soft_square_cutoff64 (x thr : float) (n : Z) : float :=
  soft_cutoff64 x thr n 0 * ind64 (0.5 <? x)
  + soft_cutoff64 (1 - x) thr n 0 * ind64 (x <=? 0.5).

Definition default_thr64 : float := 0.8.
Definition default_n64 : Z := 3%Z.

(** [GaussianRadialBasisLayer.forward] with the soft cutoff enabled, on one
    distance: line 51 divides the distance by [self.cutoff], line 61
    multiplies every channel with the window of the normalized distance.
    [g] is the value of the channel before line 61, as [gaussian] returned
    it. *)
Definition forward_window64 (cutoff dist : float) : float :=
  soft_square_cutoff64 (dist / cutoff) default_thr64 default_n64.

Definition forward_channel64 (cutoff dist g : float) : float :=
  g * forward_window64 cutoff dist.

(** A value in the closed interval from 0 to 1; [nan] is not. *)
Definition in_unit_interval (v : float) : bool := (0 <=? v) && (v <=? 1).

(** [math.sqrt] and the division of Python floats, which raise. *)
Definition math_sqrt64 (x : float) : result float :=
  if x <? 0 then Raise ValueError else Ok (sqrt x).

Definition fdiv64 (x y : float) : result float :=
  if y =? 0 then Raise ZeroDivisionError else Ok (x / y).

(** The radius arithmetic of [DownBlock.__init__], once the checks of lines
    378 to 382 have passed: line 388 and, of every iteration of the loop
    over the scales, lines 390 and 391.  The layers that the rest of an
    iteration builds read [radius] and write neither [radius] nor
    [radius_list]; this is the list of a block whose layers are built
    without raising. *)
Fixpoint DownBlock_radii64 (pool_ratio : float) (k : nat) (radius_list : list float)
    (radius : float) : result (list float) :=
  match k with
  | O => Ok radius_list
  | S k' =>
    sq <~ math_sqrt64 pool_ratio ;;
    radius <~ fdiv64 radius sq ;;
    DownBlock_radii64 pool_ratio k' (radius_list ++ [radius]) radius
  end.

Definition DownBlock_radius_list64 (init_radius pool_ratio : float) (n_scales : Z)
  : result (list float) :=
  sq <~ math_sqrt64 pool_ratio ;;
  DownBlock_radii64 pool_ratio (Z.to_nat n_scales) [] (init_radius * sq).

(** Used in the statements: the radii that [k] iterations append, from the
    radius [r] on, with [q] for [sqrt(pool_ratio)]. *)
Fixpoint radii_from (q r : float) (k : nat) : list float :=
  match k with
  | O => []
  | S k' => (r / q) :: radii_from q (r / q) k'
  end.

End Binary64.

(** * Configurations used as examples *)

Module Examples.
Import Init.

(** A stand-in for [sort_irreps_even_first(irreps * k)[0].simplify()] on a
    signature that is sorted already: every multiplicity times [k]. *)
Definition mlp_mid (irreps : Irreps) (k : Z) : Irreps :=
  map (fun i => match i with (m, l, p) => ((m * Z.to_nat k)%nat, l, p) end) irreps.

(** [8x0e + 4x1o], of dimension 20, and a head [2x0e + 1x1o] of dimension 5. *)
Definition irreps_node : Irreps := [(8, 0, true); (4, 1, false)]%nat.
Definition irreps_head4 : Irreps := [(2, 0, true); (1, 1, false)]%nat.
Definition irreps_sh : Irreps := [(1, 0, true); (1, 1, false)]%nat.

(** [DownBlock(init_radius=1.0, n_scales=3, n_layers_per_scale=2, ...)]. *)
Definition down_args (pool_ratio : R) (pool_method : option string) : DownBlockArgs :=
  {| da_irreps := irreps_node;
     da_irreps_edge_attr := irreps_sh;
     da_irreps_head := irreps_head4;
     da_num_heads := 4;
     da_fc_neurons := [16; 16]%Z;
     da_init_radius := 1;
     da_pool_ratio := pool_ratio;
     da_n_scales := 3;
     da_n_layers_per_scale := 2;
     da_pool_method := pool_method;
     da_deterministic := true;
     da_irreps_mlp_mid := inr 3%Z;
     da_attn_type := "mlp";
     da_alpha_drop := 0.1;
     da_proj_drop := 0.1;
     da_drop_path_rate := 0 |}.

(** [PoolingBlock(irreps_src, irreps_dst, pool_radius=1.0, pool_ratio=0.5, ...)]. *)
Definition pooling_args (src dst : Irreps) : PoolingBlockArgs :=
  {| pa_irreps_src := src;
     pa_irreps_dst := dst;
     pa_irreps_edge_attr := irreps_sh;
     pa_irreps_head := irreps_head4;
     pa_num_heads := 4;
     pa_fc_neurons := [16; 16]%Z;
     pa_pool_radius := 1;
     pa_pool_ratio := 0.5;
     pa_pool_method := Some "fps"%string;
     pa_deterministic := true;
     pa_irreps_mlp_mid := inr 3%Z;
     pa_attn_type := "mlp";
     pa_alpha_drop := 0.1;
     pa_proj_drop := 0.1;
     pa_drop_path_rate := 0 |}.

(** An extractor over two scales, with cutoffs [1, 2] and offsets
    [0.1, 0.8]. *)
Definition extractor_args : EdfExtractorArgs :=
  {| ea_irreps_inputs := [irreps_node; irreps_node];
     ea_fc_neurons_inputs := [[16; 16]; [16; 16]]%Z;
     ea_irreps_emb := irreps_node;
     ea_irreps_edge_attr := irreps_sh;
     ea_irreps_head := irreps_head4;
     ea_num_heads := 4;
     ea_fc_neurons := [16; 16]%Z;
     ea_n_layers := 1;
     ea_cutoffs := [1; 2];
     ea_offsets := [0.1; 0.8];
     ea_query_radius := 1;
     ea_irreps_mlp_mid := inr 3%Z;
     ea_attn_type := "mlp";
     ea_alpha_drop := 0.1;
     ea_proj_drop := 0.1;
     ea_drop_path_rate := 0 |}.

(** [EquiformerBlock(irreps_node, irreps_node, ..., num_heads, attn_type)]. *)
Definition equiformer_args (heads : Z) (attn : string) : EquiformerBlockArgs :=
  {| a_irreps_src := irreps_node;
     a_irreps_dst := irreps_node;
     a_irreps_edge_attr := irreps_sh;
     a_irreps_head := irreps_head4;
     a_num_heads := heads;
     a_fc_neurons := [16; 16]%Z;
     a_irreps_mlp_mid := inr 3%Z;
     a_attn_type := attn;
     a_alpha_drop := 0.1;
     a_proj_drop := 0.1;
     a_drop_path_rate := 0;
     a_src_bias := false;
     a_dst_bias := true |}.

(** [RadiusGraphBlock(irreps_node, ..., fc_neurons, radius=2.0, n_layers)]. *)
Definition radius_graph_args (fc : list Z) (n_layers : Z) : RadiusGraphBlockArgs :=
  {| ra_irreps := irreps_node;
     ra_irreps_edge_attr := irreps_sh;
     ra_irreps_head := irreps_head4;
     ra_num_heads := 4;
     ra_fc_neurons := fc;
     ra_radius := 2;
     ra_n_layers := n_layers;
     ra_irreps_mlp_mid := inr 3%Z;
     ra_attn_type := "mlp";
     ra_alpha_drop := 0.1;
     ra_proj_drop := 0.1;
     ra_drop_path_rate := 0 |}.

(** [PoolingBlock(..., pool_radius=1.0, pool_ratio=0.5, pool_method, deterministic)]. *)
Definition pooling_args_with (pool_method : string) (deterministic : bool) : PoolingBlockArgs :=
  {| pa_irreps_src := irreps_node;
     pa_irreps_dst := irreps_node;
     pa_irreps_edge_attr := irreps_sh;
     pa_irreps_head := irreps_head4;
     pa_num_heads := 4;
     pa_fc_neurons := [16; 16]%Z;
     pa_pool_radius := 1;
     pa_pool_ratio := 0.5;
     pa_pool_method := Some pool_method;
     pa_deterministic := deterministic;
     pa_irreps_mlp_mid := inr 3%Z;
     pa_attn_type := "mlp";
     pa_alpha_drop := 0.1;
     pa_proj_drop := 0.1;
     pa_drop_path_rate := 0 |}.

(** [DownBlock(init_radius=1.0, pool_ratio, n_scales, n_layers_per_scale,
    pool_method, ...)]. *)
Definition down_args_with (pool_ratio : R) (pool_method : option string)
    (n_scales n_layers_per_scale : Z) : DownBlockArgs :=
  {| da_irreps := irreps_node;
     da_irreps_edge_attr := irreps_sh;
     da_irreps_head := irreps_head4;
     da_num_heads := 4;
     da_fc_neurons := [16; 16]%Z;
     da_init_radius := 1;
     da_pool_ratio := pool_ratio;
     da_n_scales := n_scales;
     da_n_layers_per_scale := n_layers_per_scale;
     da_pool_method := pool_method;
     da_deterministic := true;
     da_irreps_mlp_mid := inr 3%Z;
     da_attn_type := "mlp";
     da_alpha_drop := 0.1;
     da_proj_drop := 0.1;
     da_drop_path_rate := 0 |}.

(** The extractor of [extractor_args] with one offset too many. *)
Definition extractor_args_long_offsets : EdfExtractorArgs :=
  {| ea_irreps_inputs := [irreps_node; irreps_node];
     ea_fc_neurons_inputs := [[16; 16]; [16; 16]]%Z;
     ea_irreps_emb := irreps_node;
     ea_irreps_edge_attr := irreps_sh;
     ea_irreps_head := irreps_head4;
     ea_num_heads := 4;
     ea_fc_neurons := [16; 16]%Z;
     ea_n_layers := 1;
     ea_cutoffs := [1; 2];
     ea_offsets := [0.1; 0.8; 1.5];
     ea_query_radius := 1;
     ea_irreps_mlp_mid := inr 3%Z;
     ea_attn_type := "mlp";
     ea_alpha_drop := 0.1;
     ea_proj_drop := 0.1;
     ea_drop_path_rate := 0 |}.

(** A block on features with one scalar channel.  The layer norm of a
    single scalar channel subtracts the channel mean, which leaves zero; the
    projections are the identity; the attention sums the messages that
    arrive at a destination node. *)
Definition scatter_sum1 (message : Forward.Tensor) (edge_dst : Forward.Index) (n : nat)
  : Forward.Tensor :=
  map (fun i => [fold_right Rplus 0
                   (map (fun p => if Nat.eqb (snd p) i then hd 0 (fst p) else 0)
                        (combine message edge_dst))])
      (seq 0 n).

Definition scalar_block : Forward.EquiformerBlock :=
  {| Forward.norm_1_src := fun t => Some (map (map (fun _ => 0)) t);
     Forward.norm_1_dst := fun t => Some (map (map (fun _ => 0)) t);
     Forward.linear_src := fun t => Some t;
     Forward.linear_dst := fun t => Some t;
     Forward.ga := fun message edge_dst _ _ n => Some (scatter_sum1 message edge_dst n);
     Forward.drop_path := None;
     Forward.norm_2 := fun t _ => Some t;
     Forward.ffn := {| Forward.fctp_1 := fun x _ => Some x;
                       Forward.fctp_2 := fun x _ => Some x;
                       Forward.proj_drop := None |} |}.

(** An extractor over two scales; every scale connects its node 0 to the
    query 0. *)
Definition scalar_extractor : Forward.EdfExtractor :=
  {| Forward.n_scales := 2;
     Forward.emb_dim := 1;
     Forward.pre_connect := repeat (fun _ _ _ _ => Some ([0%nat], [0%nat])) 2;
     Forward.pre_radial := repeat (fun lens => Some (map (fun x => [x]) lens)) 2;
     Forward.pre_layers := repeat scalar_block 2;
     Forward.spherical_harmonics := fun t => Some t;
     Forward.proj := fun t => Some t |}.

(** A radial basis layer with two channels and a cutoff radius of 1. *)
Definition unit_layer : GaussianRbf.GaussianRadialBasisLayer :=
  {| GaussianRbf.num_basis := 2; GaussianRbf.cutoff := 1; GaussianRbf.mean := [1 / 3; 2 / 3]; GaussianRbf.std_logit := [0; 0];
     GaussianRbf.weight := 1; GaussianRbf.bias := 0; GaussianRbf.soft_cutoff_flag := true |}.

(** The same layer with a cutoff radius of zero. *)
Definition zero_cutoff_layer : GaussianRbf.GaussianRadialBasisLayer :=
  {| GaussianRbf.num_basis := 2; GaussianRbf.cutoff := 0; GaussianRbf.mean := [1 / 3; 2 / 3]; GaussianRbf.std_logit := [0; 0];
     GaussianRbf.weight := 1; GaussianRbf.bias := 0; GaussianRbf.soft_cutoff_flag := true |}.

(** A [RadiusGraphBlock] of two blocks on two nodes that are joined both
    ways, whatever their coordinates. *)
Definition pair_radius_graph_block : Forward.RadiusGraphBlock :=
  {| Forward.radius_graph := fun node_coord node_feature batch =>
       Some {| Forward.g_node_feature_dst := node_feature;
               Forward.g_node_coord_dst := node_coord;
               Forward.g_edge_src := [0; 1]%nat;
               Forward.g_edge_dst := [1; 0]%nat;
               Forward.g_degree := [1; 1]%Z;
               Forward.g_batch_dst := batch |};
     Forward.rg_blocks := [scalar_block; scalar_block];
     Forward.rg_radials := repeat (fun lens => Some (map (fun x => [x]) lens)) 2;
     Forward.rg_spherical_harmonics := fun t => Some t |}.

(** A [PoolingBlock] that keeps the first node and joins every node to it. *)
Definition first_node_pooling_block : Forward.PoolingBlock :=
  {| Forward.pool_layer := fun node_coord node_feature batch =>
       Some {| Forward.g_node_feature_dst := firstn 1 node_feature;
               Forward.g_node_coord_dst := firstn 1 node_coord;
               Forward.g_edge_src := seq 0 (length node_coord);
               Forward.g_edge_dst := repeat 0%nat (length node_coord);
               Forward.g_degree := [Z.of_nat (length node_coord)];
               Forward.g_batch_dst := firstn 1 batch |};
     Forward.pool_block := scalar_block;
     Forward.pool_radial_basis_fn := fun lens => Some (map (fun x => [x]) lens);
     Forward.pool_spherical_harmonics := fun t => Some t |}.

(** An extractor without scales. *)
Definition empty_extractor : Forward.EdfExtractor :=
  {| Forward.n_scales := 0;
     Forward.emb_dim := 1;
     Forward.pre_connect := [];
     Forward.pre_radial := [];
     Forward.pre_layers := [];
     Forward.spherical_harmonics := fun t => Some t;
     Forward.proj := fun t => Some t |}.

End Examples.

(** * Properties *)

(** ** Basic facts on the prelude *)

Lemma obind_some {A B : Type} (m : option A) (k : A -> option B) (b : B) :
  obind m k = Some b -> exists a, m = Some a /\ k a = Some b.
Proof.
  destruct m as [a|]; simpl; intros H; [exists a; split; [reflexivity | exact H] | discriminate].
Qed.

Lemma rbind_ok {A B : Type} (m : result A) (k : A -> result B) (b : B) :
  rbind m k = Ok b -> exists a, m = Ok a /\ k a = Ok b.
Proof.
  destruct m as [a|e]; simpl; intros H; [exists a; split; [reflexivity | exact H] | discriminate].
Qed.

(** Inversion of one step of a computation that returned a value. *)
Tactic Notation "obind_inv" hyp(H) "as" simple_intropattern(x) simple_intropattern(Hx) :=
  apply obind_some in H; destruct H as (x & Hx & H).

Tactic Notation "rbind_inv" hyp(H) "as" simple_intropattern(x) simple_intropattern(Hx) :=
  apply rbind_ok in H; destruct H as (x & Hx & H).

Lemma Rltb_true x y : x < y -> Rltb x y = true.
Proof. intros H; unfold Rltb; destruct (Rlt_dec x y); [reflexivity | contradiction]. Qed.

Lemma Rltb_false x y : y <= x -> Rltb x y = false.
Proof. intros H; unfold Rltb; destruct (Rlt_dec x y); [lra | reflexivity]. Qed.

Lemma Rleb_true x y : x <= y -> Rleb x y = true.
Proof. intros H; unfold Rleb; destruct (Rle_dec x y); [reflexivity | contradiction]. Qed.

Lemma Rleb_false x y : y < x -> Rleb x y = false.
Proof. intros H; unfold Rleb; destruct (Rle_dec x y); [lra | reflexivity]. Qed.

Lemma rdiv_some x y : y <> 0 -> rdiv x y = Some (x / y).
Proof. intros H; unfold rdiv; destruct (Req_dec_T y 0); [contradiction | reflexivity]. Qed.

Lemma rdiv_zero x : rdiv x 0 = None.
Proof. unfold rdiv; destruct (Req_dec_T 0 0) as [_|H]; [reflexivity | exfalso; apply H; reflexivity]. Qed.


Lemma fdiv_zero (x : R) : fdiv x 0 = Raise ZeroDivisionError /\ fdiv x (IZR 0) = Raise ZeroDivisionError.
Proof.
  unfold fdiv. destruct (Req_dec_T 0 0) as [_|H]; [split; reflexivity | exfalso; apply H; reflexivity].
Qed.

(** ** gaussian_rbf.py: the smooth step and the cutoff windows *)

Module GaussianRbfFacts.
Import GaussianRbf.

Lemma ind_cases (b : bool) : ind b = 0 \/ ind b = 1.
Proof. destruct b; simpl; [right | left]; reflexivity. Qed.

(** The polynomial of the smooth step, [(n+1) x^n - n x^(n+1)], on the unit
    interval. *)
Lemma step_poly_lower (x : R) (n : nat) :
  0 <= x <= 1 -> 0 <= (INR n + 1) * x ^ n - INR n * x ^ S n.
Proof.
  intros Hx.
  replace ((INR n + 1) * x ^ n - INR n * x ^ S n)
    with (x ^ n * (1 + INR n * (1 - x))) by (simpl; ring).
  pose proof (pos_INR n) as Hn.
  apply Rmult_le_pos; [apply pow_le; lra | nra].
Qed.

Lemma step_poly_upper (x : R) (n : nat) :
  0 <= x <= 1 -> (INR n + 1) * x ^ n - INR n * x ^ S n <= 1.
Proof.
  intros Hx. induction n as [|n IH].
  - simpl. lra.
  - pose proof (pos_INR n) as Hn.
    assert (Hp : 0 <= x ^ n) by (apply pow_le; lra).
    assert (Hsq : 0 <= (INR n + 1) * x ^ n * ((1 - x) * (1 - x))).
    { apply Rmult_le_pos; [apply Rmult_le_pos; lra | nra]. }
    rewrite S_INR. simpl in *. nra.
Qed.

Lemma tpow_nonneg (x : R) (n : Z) :
  (0 <= n)%Z -> tpow x n = Some (x ^ Z.to_nat n).
Proof.
  intros Hn. unfold tpow.
  destruct (Z.leb_spec 0 n); [reflexivity | lia].
Qed.

Lemma IZR_to_nat (n : Z) : (0 <= n)%Z -> IZR n = INR (Z.to_nat n).
Proof. intros Hn. rewrite INR_IZR_INZ, Z2Nat.id by exact Hn. reflexivity. Qed.

(** The value of [soft_step] in its three regions. *)
Lemma soft_step_nonpos (x : R) (n : Z) :
  (0 <= n)%Z -> x <= 0 -> soft_step x n = Some 0.
Proof.
  intros Hn Hx. unfold soft_step.
  rewrite !tpow_nonneg by lia. simpl.
  unfold Rgtb. rewrite Rltb_false by exact Hx. simpl.
  f_equal. ring.
Qed.

Lemma soft_step_ge_one (x : R) (n : Z) :
  (0 <= n)%Z -> 1 <= x -> soft_step x n = Some 1.
Proof.
  intros Hn Hx. unfold soft_step.
  rewrite !tpow_nonneg by lia. simpl.
  unfold Rgtb, Rgeb.
  rewrite (Rltb_true 0 x) by lra.
  rewrite (Rltb_false x 1) by exact Hx.
  rewrite (Rleb_true 1 x) by exact Hx. simpl.
  f_equal. ring.
Qed.

Lemma soft_step_inside (x : R) (n : Z) :
  (0 <= n)%Z -> 0 < x < 1 ->
  soft_step x n
  = Some ((INR (Z.to_nat n) + 1) * x ^ Z.to_nat n - INR (Z.to_nat n) * x ^ S (Z.to_nat n)).
Proof.
  intros Hn Hx. unfold soft_step.
  rewrite !tpow_nonneg by lia. simpl obind.
  unfold Rgtb, Rgeb.
  rewrite (Rltb_true 0 x) by lra.
  rewrite (Rltb_true x 1) by lra.
  rewrite (Rleb_false 1 x) by lra.
  replace (Z.to_nat (n + 1)) with (S (Z.to_nat n)) by lia.
  rewrite plus_IZR, (IZR_to_nat n) by exact Hn.
  unfold ind. f_equal. ring.
Qed.

Lemma soft_step_spec (x : R) (n : Z) :
  (0 <= n)%Z ->
  exists v, soft_step x n = Some v /\ 0 <= v <= 1
            /\ (x <= 0 -> v = 0) /\ (1 <= x -> v = 1).
Proof.
  intros Hn.
  destruct (Rle_dec x 0) as [H0|H0].
  - exists 0. rewrite soft_step_nonpos by assumption.
    repeat split; try lra.
  - destruct (Rle_dec 1 x) as [H1|H1].
    + exists 1. rewrite soft_step_ge_one by assumption.
      repeat split; try lra.
    + eexists. rewrite soft_step_inside by (try assumption; lra).
      split; [reflexivity|].
      split; [split; [apply step_poly_lower | apply step_poly_upper]; lra|].
      split; intros; lra.
Qed.

Lemma soft_cutoff_spec (x thr : R) (n : Z) (offset : R) :
  (0 <= n)%Z -> thr <> 1 ->
  exists s, soft_step ((x - thr) / (1 - thr) * (1 + offset)) n = Some s
            /\ soft_cutoff x thr n offset = Some (1 - s) /\ 0 <= 1 - s <= 1.
Proof.
  intros Hn Hthr.
  destruct (soft_step_spec ((x - thr) / (1 - thr) * (1 + offset)) n Hn)
    as (s & Hs & Hb & _ & _).
  exists s. split; [exact Hs|]. split; [|lra].
  unfold soft_cutoff. rewrite rdiv_some by lra. simpl. rewrite Hs. reflexivity.
Qed.

Lemma soft_square_cutoff_spec (x thr : R) (n : Z) :
  (0 <= n)%Z -> thr <> 1 ->
  exists c1 c2, soft_cutoff x thr n 0 = Some c1 /\ soft_cutoff (1 - x) thr n 0 = Some c2
                /\ 0 <= c1 <= 1 /\ 0 <= c2 <= 1
                /\ soft_square_cutoff x thr n = Some (if Rleb x 0.5 then c2 else c1).
Proof.
  intros Hn Hthr.
  destruct (soft_cutoff_spec x thr n 0 Hn Hthr) as (s1 & _ & H1 & B1).
  destruct (soft_cutoff_spec (1 - x) thr n 0 Hn Hthr) as (s2 & _ & H2 & B2).
  exists (1 - s1), (1 - s2). repeat split; try assumption; try lra.
  unfold soft_square_cutoff. rewrite H1, H2. simpl. unfold Rgtb.
  destruct (Rle_dec x 0.5) as [Hx|Hx].
  - rewrite Rleb_true, Rltb_false by lra. simpl. f_equal. ring.
  - rewrite Rleb_false, Rltb_true by lra. simpl. f_equal. ring.
Qed.

(** C10, as it holds: in exact arithmetic and away from the threshold [1].
    In exact arithmetic, for every real [x] and every integer [n >= 1],
    [soft_step(x, n)] has a value in the closed interval [[0, 1]], which is
    [0] for every [x <= 0] and [1] for every [x >= 1]; consequently
    [soft_cutoff] and [soft_square_cutoff] have values in [[0, 1]] for every
    real [x], every offset and every threshold other than [1].  What the
    floating-point code returns where a power overflows is no part of this
    statement; [Binary64Facts] shows that it is [nan]. *)
Theorem soft_step_unit_interval (x thr offset : R) (n : Z) :
  (1 <= n)%Z -> thr <> 1 ->
  (exists v, soft_step x n = Some v /\ 0 <= v <= 1
             /\ (x <= 0 -> v = 0) /\ (1 <= x -> v = 1))
  /\ (exists c, soft_cutoff x thr n offset = Some c /\ 0 <= c <= 1)
  /\ (exists w, soft_square_cutoff x thr n = Some w /\ 0 <= w <= 1).
Proof.
  intros Hn Hthr.
  assert (Hn0 : (0 <= n)%Z) by lia.
  split; [apply soft_step_spec; exact Hn0|].
  split.
  - destruct (soft_cutoff_spec x thr n offset Hn0 Hthr) as (s & _ & Hc & Hb).
    exists (1 - s). split; assumption.
  - destruct (soft_square_cutoff_spec x thr n Hn0 Hthr)
      as (c1 & c2 & _ & _ & B1 & B2 & Hw).
    exists (if Rleb x 0.5 then c2 else c1). split; [exact Hw|].
    destruct (Rleb x 0.5); assumption.
Qed.

Lemma soft_step_unit_interval_witness :
  (exists v, soft_step (1 / 2) 3 = Some v /\ 0 <= v <= 1
             /\ (1 / 2 <= 0 -> v = 0) /\ (1 <= 1 / 2 -> v = 1))
  /\ (exists c, soft_cutoff (1 / 2) default_thr 3 0 = Some c /\ 0 <= c <= 1)
  /\ (exists w, soft_square_cutoff (1 / 2) default_thr 3 = Some w /\ 0 <= w <= 1).
Proof.
  apply (soft_step_unit_interval (1 / 2) default_thr 0 3).
  - lia.
  - unfold default_thr. lra.
Defined.

(** In exact arithmetic the windows have no value at the threshold [1]:
    they divide by [1 - thr]. *)
Lemma soft_cutoff_undefined_at_threshold_one :
  soft_cutoff 2 1 3 0 = None
  /\ soft_square_cutoff 2 1 3 = None
  /\ ~ (forall (x thr offset : R) (n : Z),
          (1 <= n)%Z ->
          (exists c, soft_cutoff x thr n offset = Some c /\ 0 <= c <= 1)
          /\ (exists w, soft_square_cutoff x thr n = Some w /\ 0 <= w <= 1)).
Proof.
  assert (H : soft_cutoff 2 1 3 0 = None).
  { unfold soft_cutoff. replace (1 - 1) with 0 by ring. rewrite rdiv_zero. reflexivity. }
  split; [exact H|]. split.
  - unfold soft_square_cutoff. rewrite H. reflexivity.
  - intros F. destruct (F 2 1 0 3%Z) as [[c [Hc _]] _]; [lia|].
    rewrite H in Hc. discriminate.
Qed.

(** ** gaussian_rbf.py: the layer *)

Lemma default_thr_ne_one : default_thr <> 1.
Proof. unfold default_thr. lra. Qed.

Lemma softplus_pos (x : R) : 0 < softplus x.
Proof.
  unfold softplus, Rltb. destruct (Rlt_dec 20 x) as [H|H]; [lra|].
  rewrite <- ln_1. apply ln_increasing; [lra|].
  pose proof (exp_pos x). lra.
Qed.

Lemma a_pos : 0 < a.
Proof. unfold a, pi. apply sqrt_lt_R0. lra. Qed.

Lemma gaussian_defined (x m std : R) :
  0 < std -> exists g, gaussian x m std = Some g.
Proof.
  intros Hs. unfold gaussian.
  rewrite rdiv_some by lra. simpl.
  pose proof a_pos as Ha.
  rewrite rdiv_some by (apply Rgt_not_eq; apply Rmult_lt_0_compat; lra).
  eexists; reflexivity.
Qed.

(** The Gaussian part of a row: the broadcast succeeds on parameters of the
    right shape and no channel divides by zero. *)
Lemma gaussian_row_defined (x : R) (n : nat) :
  forall ms ss : list R,
    length ms = n -> length ss = n ->
    exists cols g,
      zip3 (repeat x n) ms (map softplus ss) = Some cols
      /\ mapM (fun c => match c with (xj, mj, sj) => gaussian xj mj sj end) cols = Some g
      /\ length g = n.
Proof.
  induction n as [|n IH]; intros ms ss Hm Hs.
  - destruct ms; [|discriminate]. destruct ss; [|discriminate].
    exists [], []. repeat split.
  - destruct ms as [|m ms]; [discriminate|]. destruct ss as [|s ss]; [discriminate|].
    simpl in Hm, Hs. injection Hm as Hm. injection Hs as Hs.
    destruct (IH ms ss Hm Hs) as (cols & g & Hz & Hg & Hl).
    destruct (gaussian_defined x m (softplus s) (softplus_pos s)) as [g0 Hg0].
    exists ((x, m, softplus s) :: cols), (g0 :: g).
    simpl. rewrite Hz. simpl. rewrite Hg0. simpl. rewrite Hg. simpl.
    repeat split. f_equal. exact Hl.
Qed.

Lemma soft_cutoff_value (x thr : R) (n : Z) (offset s : R) :
  thr <> 1 ->
  soft_step ((x - thr) / (1 - thr) * (1 + offset)) n = Some s ->
  soft_cutoff x thr n offset = Some (1 - s).
Proof.
  intros Hthr Hs. unfold soft_cutoff.
  rewrite rdiv_some by lra. cbn [obind]. rewrite Hs. reflexivity.
Qed.

(** At the far end of the window the cutoff is [0], at the near end [1]. *)
Lemma soft_cutoff_default_at_one : soft_cutoff 1 default_thr default_n 0 = Some 0.
Proof.
  rewrite (soft_cutoff_value 1 default_thr default_n 0 1);
    [f_equal; ring | exact default_thr_ne_one |].
  apply soft_step_ge_one; [unfold default_n; lia|].
  unfold default_thr. lra.
Qed.

Lemma soft_cutoff_default_at_zero : soft_cutoff 0 default_thr default_n 0 = Some 1.
Proof.
  rewrite (soft_cutoff_value 0 default_thr default_n 0 0);
    [f_equal; ring | exact default_thr_ne_one |].
  apply soft_step_nonpos; [unfold default_n; lia|].
  unfold default_thr. lra.
Qed.

Lemma soft_square_cutoff_at_one : soft_square_cutoff 1 default_thr default_n = Some 0.
Proof.
  unfold soft_square_cutoff.
  rewrite soft_cutoff_default_at_one. cbn [obind].
  replace (1 - 1) with 0 by ring.
  rewrite soft_cutoff_default_at_zero. cbn [obind].
  unfold Rgtb. rewrite Rltb_true, Rleb_false by lra. simpl. f_equal. ring.
Qed.

Lemma soft_square_cutoff_at_zero : soft_square_cutoff 0 default_thr default_n = Some 0.
Proof.
  unfold soft_square_cutoff.
  rewrite soft_cutoff_default_at_zero. cbn [obind].
  replace (1 - 0) with 1 by ring.
  rewrite soft_cutoff_default_at_one. cbn [obind].
  unfold Rgtb. rewrite Rltb_false, Rleb_true by lra. simpl. f_equal. ring.
Qed.

(** [__init__] sets up the shape invariant. *)
Lemma GaussianRadialBasisLayer_init_wf (nb : Z) (cutoff0 : R) (soft : bool)
    (self : GaussianRadialBasisLayer) :
  GaussianRadialBasisLayer_init nb cutoff0 soft = Ok self -> wf self.
Proof.
  unfold GaussianRadialBasisLayer_init. destruct (nb <? 0)%Z; [discriminate|].
  cbn [rbind]. unfold fdiv. destruct (Req_dec_T (IZR nb) 0); [discriminate|].
  cbn [rbind]. intros H. injection H as <-. split; simpl.
  - unfold linspace_inner. rewrite length_map, length_seq. reflexivity.
  - apply repeat_length.
Qed.


(** A row of [forward] is defined as soon as the cutoff radius is not zero. *)
Lemma forward_row_defined (self : GaussianRadialBasisLayer) (d : R) :
  wf self -> cutoff self <> 0 ->
  exists row, forward_row self d = Some row /\ length row = num_basis self.
Proof.
  intros [Hm Hs] Hc. unfold forward_row.
  rewrite rdiv_some by exact Hc. simpl obind.
  destruct (gaussian_row_defined (weight self * (d / cutoff self) + bias self)
              (num_basis self) (mean self) (std_logit self) Hm Hs)
    as (cols & g & Hz & Hg & Hl).
  rewrite Hz. simpl obind. rewrite Hg. simpl obind.
  destruct (soft_cutoff_flag self).
  - destruct (soft_square_cutoff_spec (d / cutoff self) default_thr default_n)
      as (c1 & c2 & _ & _ & _ & _ & Hw); [unfold default_n; lia | exact default_thr_ne_one |].
    rewrite Hw. simpl. eexists; split; [reflexivity|].
    rewrite length_map. exact Hl.
  - exists g. split; [reflexivity | exact Hl].
Qed.

(** Where the window vanishes, so does every channel of the row. *)
Lemma forward_row_zero_window (self : GaussianRadialBasisLayer) (d : R) :
  wf self -> cutoff self <> 0 -> soft_cutoff_flag self = true ->
  soft_square_cutoff (d / cutoff self) default_thr default_n = Some 0 ->
  exists row, forward_row self d = Some row /\ length row = num_basis self
              /\ Forall (fun y => y = 0) row.
Proof.
  intros [Hm Hs] Hc Hf Hw. unfold forward_row.
  rewrite rdiv_some by exact Hc. simpl obind.
  destruct (gaussian_row_defined (weight self * (d / cutoff self) + bias self)
              (num_basis self) (mean self) (std_logit self) Hm Hs)
    as (cols & g & Hz & Hg & Hl).
  rewrite Hz. simpl obind. rewrite Hg. simpl obind.
  rewrite Hf, Hw. simpl obind.
  eexists; split; [reflexivity|]. split; [rewrite length_map; exact Hl|].
  apply Forall_forall. intros y Hy.
  apply in_map_iff in Hy. destruct Hy as (gj & <- & _). ring.
Qed.

(** At a distance equal to the cutoff radius and at distance 0 every channel
    is zero. *)
Lemma forward_zero_at_boundary (self : GaussianRadialBasisLayer) :
  wf self -> 0 < cutoff self -> soft_cutoff_flag self = true ->
  exists at_cutoff at_zero,
    forward self [cutoff self; 0] = Some [at_cutoff; at_zero]
    /\ length at_cutoff = num_basis self /\ length at_zero = num_basis self
    /\ Forall (fun y => y = 0) at_cutoff
    /\ Forall (fun y => y = 0) at_zero.
Proof.
  intros Hwf Hc Hf.
  assert (Hc0 : cutoff self <> 0) by lra.
  destruct (forward_row_zero_window self (cutoff self) Hwf Hc0 Hf) as (r1 & H1 & L1 & Z1).
  { replace (cutoff self / cutoff self) with 1 by (field; exact Hc0).
    exact soft_square_cutoff_at_one. }
  destruct (forward_row_zero_window self 0 Hwf Hc0 Hf) as (r2 & H2 & L2 & Z2).
  { replace (0 / cutoff self) with 0 by (field; exact Hc0).
    exact soft_square_cutoff_at_zero. }
  exists r1, r2. unfold forward. cbn [mapM]. rewrite H1, H2. cbn [obind].
  repeat split; assumption.
Qed.

Lemma zero_within_eps (eps : R) (row : list R) :
  0 < eps -> Forall (fun y => y = 0) row -> Forall (fun y => Rabs y < eps) row.
Proof.
  intros Heps H. eapply Forall_impl; [|exact H].
  simpl. intros y ->. rewrite Rabs_R0. exact Heps.
Qed.

(** C6.  For every cutoff > 0, the layer with the soft cutoff enabled and the
    default threshold returns, at a distance equal to the cutoff and at
    distance 0, a basis vector every channel of which is within epsilon of
    zero. *)
Theorem basis_vanishes_at_cutoff_and_origin (self : GaussianRadialBasisLayer) (eps : R) :
  wf self -> 0 < cutoff self -> soft_cutoff_flag self = true -> 0 < eps ->
  exists at_cutoff at_zero,
    forward self [cutoff self; 0] = Some [at_cutoff; at_zero]
    /\ length at_cutoff = num_basis self /\ length at_zero = num_basis self
    /\ Forall (fun y => Rabs y < eps) at_cutoff
    /\ Forall (fun y => Rabs y < eps) at_zero.
Proof.
  intros Hwf Hc Hf Heps.
  destruct (forward_zero_at_boundary self Hwf Hc Hf) as (r1 & r2 & H & L1 & L2 & Z1 & Z2).
  exists r1, r2. repeat split; try assumption; apply zero_within_eps; assumption.
Qed.

Lemma basis_vanishes_at_cutoff_and_origin_witness :
  exists at_cutoff at_zero,
    forward Examples.unit_layer [cutoff Examples.unit_layer; 0] = Some [at_cutoff; at_zero]
    /\ length at_cutoff = 2%nat /\ length at_zero = 2%nat
    /\ Forall (fun y => Rabs y < 1 / 1000) at_cutoff
    /\ Forall (fun y => Rabs y < 1 / 1000) at_zero.
Proof.
  apply (basis_vanishes_at_cutoff_and_origin Examples.unit_layer (1 / 1000)).
  - split; reflexivity.
  - simpl. lra.
  - reflexivity.
  - lra.
Defined.

(** The same on a layer as [__init__] returns it, for every number of
    channels and every positive cutoff radius. *)
Corollary constructed_layer_vanishes_at_boundary (nb : Z) (cutoff0 eps : R)
    (self : GaussianRadialBasisLayer) :
  GaussianRadialBasisLayer_init nb cutoff0 true = Ok self ->
  0 < cutoff0 -> 0 < eps ->
  exists at_cutoff at_zero,
    forward self [cutoff0; 0] = Some [at_cutoff; at_zero]
    /\ Forall (fun y => Rabs y < eps) at_cutoff
    /\ Forall (fun y => Rabs y < eps) at_zero.
Proof.
  intros Hinit Hc Heps.
  pose proof (GaussianRadialBasisLayer_init_wf nb cutoff0 true self Hinit) as Hwf.
  assert (Hcut : cutoff self = cutoff0 /\ soft_cutoff_flag self = true).
  { unfold GaussianRadialBasisLayer_init in Hinit.
    destruct (nb <? 0)%Z; [discriminate|]. cbn [rbind] in Hinit.
    unfold fdiv in Hinit. destruct (Req_dec_T (IZR nb) 0); [discriminate|].
    cbn [rbind] in Hinit. injection Hinit as <-. simpl. split; [ring | reflexivity]. }
  destruct Hcut as [Hcut Hflag].
  destruct (forward_zero_at_boundary self Hwf) as (r1 & r2 & H & _ & _ & Z1 & Z2);
    [rewrite Hcut; exact Hc | exact Hflag |].
  rewrite Hcut in H. exists r1, r2.
  repeat split; try assumption; apply zero_within_eps; assumption.
Qed.

(** Division by zero in exact arithmetic.  [forward] first divides the
    distance by the cutoff radius of the layer.  For every layer with a
    cutoff radius other than zero, every real distance and all real
    parameters, the softplus standard deviation of every channel is strictly
    positive in exact arithmetic, no division meets a zero divisor, and
    [forward] has one real number per distance and channel.  Whether the
    floating-point code returns a finite number is another matter, settled
    in [Binary64Facts]. *)
Theorem forward_defined (self : GaussianRadialBasisLayer) (dist : list R) :
  wf self -> cutoff self <> 0 ->
  Forall (fun s => 0 < softplus s) (std_logit self)
  /\ exists out, forward self dist = Some out
                 /\ length out = length dist
                 /\ Forall (fun row => length row = num_basis self) out.
Proof.
  intros Hwf Hc. split.
  - apply Forall_forall. intros s _. apply softplus_pos.
  - unfold forward. induction dist as [|d dist IH].
    + exists []. repeat split. constructor.
    + destruct IH as (out & Ho & Hl & Hr).
      destruct (forward_row_defined self d Hwf Hc) as (row & Hrow & Hlen).
      exists (row :: out). cbn [mapM]. rewrite Hrow. cbn [obind].
      rewrite Ho. cbn [obind].
      repeat split; [simpl; f_equal; exact Hl | constructor; assumption].
Qed.

Lemma forward_defined_witness :
  Forall (fun s => 0 < softplus s) (std_logit Examples.unit_layer)
  /\ exists out, forward Examples.unit_layer [-3; 0; 1 / 2; 1000000] = Some out
                 /\ length out = 4%nat
                 /\ Forall (fun row => length row = 2%nat) out.
Proof.
  apply (forward_defined Examples.unit_layer [-3; 0; 1 / 2; 1000000]).
  - split; reflexivity.
  - simpl. lra.
Defined.

(** On a layer built with a cutoff radius of zero, the distance [0] is
    divided by zero, and the row has no real value. *)
Lemma forward_undefined_at_zero_cutoff :
  wf Examples.zero_cutoff_layer
  /\ forward Examples.zero_cutoff_layer [0] = None
  /\ ~ (forall (self : GaussianRadialBasisLayer) (dist : list R),
          wf self -> exists out, forward self dist = Some out).
Proof.
  assert (Hwf : wf Examples.zero_cutoff_layer) by (split; reflexivity).
  assert (Hn : forward Examples.zero_cutoff_layer [0] = None).
  { unfold forward, forward_row. simpl. rewrite rdiv_zero. reflexivity. }
  split; [exact Hwf|]. split; [exact Hn|].
  intros H. destruct (H Examples.zero_cutoff_layer [0] Hwf) as [out Ho].
  rewrite Hn in Ho. discriminate.
Qed.

(** ** gaussian_rbf.py: further properties *)

(** *** The Gaussian *)

Lemma gaussian_value (x m std : R) :
  std <> 0 -> gaussian x m std = Some (exp (- 0.5 * ((x - m) / std) ^ 2) / (a * std)).
Proof.
  intros Hs. unfold gaussian. rewrite rdiv_some by exact Hs. cbn [obind].
  pose proof a_pos as Ha.
  rewrite rdiv_some by (apply Rmult_integral_contrapositive_currified; lra).
  reflexivity.
Qed.

Lemma gaussian_positive_bounded_aux (x m std : R) :
  0 < std ->
  exists g, gaussian x m std = Some g /\ 0 < g <= 1 / (a * std).
Proof.
  intros Hs. pose proof a_pos as Ha.
  assert (Has : 0 < a * std) by (apply Rmult_lt_0_compat; lra).
  rewrite gaussian_value by lra.
  eexists. split; [reflexivity|]. split.
  - apply Rdiv_lt_0_compat; [apply exp_pos | exact Has].
  - apply Rmult_le_compat_r; [left; apply Rinv_0_lt_compat; exact Has|].
    set (q := (x - m) / std).
    assert (Hq : - 0.5 * q ^ 2 <= 0) by (pose proof (pow2_ge_0 q); lra).
    destruct Hq as [Hq|Hq].
    + left. rewrite <- exp_0. apply exp_increasing. exact Hq.
    + rewrite Hq, exp_0. lra.
Qed.

(** In exact arithmetic, for a positive width the Gaussian is strictly
    positive, at most its peak [1 / (a * std)], and the peak is its value at
    the mean.  (In floating point the exponential can underflow to zero far
    from the mean.) *)
Theorem gaussian_positive_bounded (x m std : R) :
  0 < std ->
  exists g, gaussian x m std = Some g
            /\ 0 < g <= 1 / (a * std)
            /\ gaussian m m std = Some (1 / (a * std)).
Proof.
  intros Hs.
  destruct (gaussian_positive_bounded_aux x m std Hs) as (g & Hg & Hb).
  exists g. split; [exact Hg|]. split; [exact Hb|].
  rewrite gaussian_value by lra.
  f_equal. f_equal.
  replace (- 0.5 * ((m - m) / std) ^ 2) with 0 by (field; lra).
  apply exp_0.
Qed.

Lemma gaussian_positive_bounded_witness :
  exists g, gaussian (1 / 2) (1 / 3) 1 = Some g
            /\ 0 < g <= 1 / (a * 1)
            /\ gaussian (1 / 3) (1 / 3) 1 = Some (1 / (a * 1)).
Proof. apply (gaussian_positive_bounded (1 / 2) (1 / 3) 1). lra. Defined.

(** The Gaussian is symmetric about its mean. *)
Theorem gaussian_symmetric (m d std : R) :
  std <> 0 -> gaussian (m + d) m std = gaussian (m - d) m std.
Proof.
  intros Hs. rewrite !gaussian_value by exact Hs.
  f_equal. f_equal. f_equal. f_equal. field. exact Hs.
Qed.

Lemma gaussian_symmetric_witness :
  gaussian (1 / 3 + 1 / 4) (1 / 3) 1 = gaussian (1 / 3 - 1 / 4) (1 / 3) 1.
Proof. apply (gaussian_symmetric (1 / 3) (1 / 4) 1). lra. Defined.

(** *** The smooth step is monotone *)

Lemma step_poly_lim (n : nat) (x : R) :
  derivable_pt_lim (step_poly n) x
    ((INR n + 1) * (INR n * x ^ pred n) - INR n * (INR (S n) * x ^ n)).
Proof.
  unfold step_poly.
  apply (derivable_pt_lim_minus (fun y => (INR n + 1) * y ^ n) (fun y => INR n * y ^ S n)).
  - apply (derivable_pt_lim_scal (fun y => y ^ n)). apply derivable_pt_lim_pow.
  - apply (derivable_pt_lim_scal (fun y => y ^ S n) (INR n) x (INR (S n) * x ^ n)).
    apply (derivable_pt_lim_pow x (S n)).
Qed.

Lemma step_poly_derivable (n : nat) : derivable (step_poly n).
Proof. intros x. eexists. apply step_poly_lim. Qed.

Lemma step_poly_derive_nonneg (n : nat) (t : R) :
  0 < t < 1 -> 0 <= derive_pt (step_poly n) t (step_poly_derivable n t).
Proof.
  intros Ht.
  rewrite (derive_pt_eq_0 _ _ _ (step_poly_derivable n t) (step_poly_lim n t)).
  destruct n as [|n].
  - simpl. lra.
  - rewrite !S_INR. simpl pred.
    assert (Hp : 0 <= t ^ n) by (apply pow_le; lra).
    pose proof (pos_INR n) as Hn.
    replace ((INR n + 1 + 1) * ((INR n + 1) * t ^ n)
             - (INR n + 1) * ((INR n + 1 + 1) * t ^ S n))
      with ((INR n + 1 + 1) * (INR n + 1) * (t ^ n * (1 - t))) by (simpl; ring).
    apply Rmult_le_pos; [apply Rmult_le_pos; lra|].
    apply Rmult_le_pos; lra.
Qed.

Lemma step_poly_increasing (n : nat) (x y : R) :
  0 <= x -> x <= y -> y <= 1 -> step_poly n x <= step_poly n y.
Proof.
  intros Hx Hxy Hy.
  destruct (Req_dec x y) as [->|Hne]; [lra|].
  apply (derive_increasing_interv_var 0 1 (step_poly n) (step_poly_derivable n)); try lra.
  intros t Ht. apply step_poly_derive_nonneg. exact Ht.
Qed.

Lemma soft_step_le (x y : R) (n : Z) :
  (0 <= n)%Z -> x <= y ->
  exists u v, soft_step x n = Some u /\ soft_step y n = Some v /\ u <= v.
Proof.
  intros Hn Hxy.
  destruct (soft_step_spec x n Hn) as (u & Hu & Bu & U0 & U1).
  destruct (soft_step_spec y n Hn) as (v & Hv & Bv & V0 & V1).
  exists u, v. split; [exact Hu|]. split; [exact Hv|].
  destruct (Rle_dec x 0) as [Hx0|Hx0]; [rewrite (U0 Hx0); lra|].
  destruct (Rle_dec 1 y) as [Hy1|Hy1]; [rewrite (V1 Hy1); lra|].
  rewrite soft_step_inside in Hu, Hv by (try assumption; lra).
  injection Hu as <-. injection Hv as <-.
  apply (step_poly_increasing (Z.to_nat n) x y); lra.
Qed.

(** In exact arithmetic [soft_step] never decreases: for [x <= y] its value
    at [x] is at most its value at [y]. *)
Theorem soft_step_monotone (x y : R) (n : Z) :
  (0 <= n)%Z -> x <= y ->
  exists u v, soft_step x n = Some u /\ soft_step y n = Some v /\ u <= v.
Proof. apply soft_step_le. Qed.

Lemma soft_step_monotone_witness :
  exists u v, soft_step (1 / 4) 3 = Some u /\ soft_step (3 / 4) 3 = Some v /\ u <= v.
Proof. apply (soft_step_monotone (1 / 4) (3 / 4) 3); [lia | lra]. Defined.

(** In exact arithmetic, [soft_cutoff] with a threshold below one and an
    offset of at least [-1] never increases with [x]. *)
Theorem soft_cutoff_antitone (x y thr offset : R) (n : Z) :
  (0 <= n)%Z -> thr < 1 -> -1 <= offset -> x <= y ->
  exists u v, soft_cutoff x thr n offset = Some u
              /\ soft_cutoff y thr n offset = Some v /\ v <= u.
Proof.
  intros Hn Hthr Ho Hxy.
  assert (Harg : (x - thr) / (1 - thr) * (1 + offset) <= (y - thr) / (1 - thr) * (1 + offset)).
  { apply Rmult_le_compat_r; [lra|].
    apply Rmult_le_compat_r; [left; apply Rinv_0_lt_compat; lra | lra]. }
  destruct (soft_step_le _ _ n Hn Harg) as (u & v & Hu & Hv & Huv).
  exists (1 - u), (1 - v).
  rewrite (soft_cutoff_value x thr n offset u), (soft_cutoff_value y thr n offset v)
    by (try assumption; lra).
  repeat split. lra.
Qed.

Lemma soft_cutoff_antitone_witness :
  exists u v, soft_cutoff (17 / 20) default_thr 3 0 = Some u
              /\ soft_cutoff (19 / 20) default_thr 3 0 = Some v /\ v <= u.
Proof.
  apply (soft_cutoff_antitone (17 / 20) (19 / 20) default_thr 0 3);
    unfold default_thr; try lra. lia.
Defined.

(** *** The soft square window *)

(** The window is symmetric about [1/2]. *)
Theorem soft_square_cutoff_symmetric (x thr : R) (n : Z) :
  (0 <= n)%Z -> thr <> 1 ->
  soft_square_cutoff (1 - x) thr n = soft_square_cutoff x thr n.
Proof.
  intros Hn Hthr.
  destruct (soft_square_cutoff_spec x thr n Hn Hthr) as (c1 & c2 & H1 & H2 & _ & _ & Hx).
  destruct (soft_square_cutoff_spec (1 - x) thr n Hn Hthr) as (d1 & d2 & G1 & G2 & _ & _ & Hy).
  replace (1 - (1 - x)) with x in G2 by ring.
  rewrite H2 in G1. injection G1 as <-. rewrite H1 in G2. injection G2 as <-.
  rewrite Hx, Hy. unfold Rleb.
  destruct (Rle_dec x 0.5) as [A|A]; destruct (Rle_dec (1 - x) 0.5) as [B|B];
    try reflexivity; try lra.
  assert (E : x = 1 - x) by lra.
  rewrite <- E in H2. rewrite H1 in H2. exact H2.
Qed.

Lemma soft_square_cutoff_symmetric_witness :
  soft_square_cutoff (1 - 1 / 10) default_thr 3 = soft_square_cutoff (1 / 10) default_thr 3.
Proof.
  apply (soft_square_cutoff_symmetric (1 / 10) default_thr 3); [lia | exact default_thr_ne_one].
Defined.

Lemma soft_cutoff_zero_above (x thr : R) (n : Z) :
  (0 <= n)%Z -> thr < 1 -> 1 <= x -> soft_cutoff x thr n 0 = Some 0.
Proof.
  intros Hn Hthr Hx.
  rewrite (soft_cutoff_value x thr n 0 1); [f_equal; ring | lra |].
  apply soft_step_ge_one; [exact Hn|].
  rewrite Rplus_0_r, Rmult_1_r.
  apply (Rmult_le_reg_r (1 - thr)); [lra|].
  unfold Rdiv. rewrite Rmult_assoc, Rinv_l by lra. lra.
Qed.

Lemma soft_cutoff_one_below (x thr : R) (n : Z) :
  (0 <= n)%Z -> thr < 1 -> x <= thr -> soft_cutoff x thr n 0 = Some 1.
Proof.
  intros Hn Hthr Hx.
  rewrite (soft_cutoff_value x thr n 0 0); [f_equal; ring | lra |].
  apply soft_step_nonpos; [exact Hn|].
  rewrite Rplus_0_r, Rmult_1_r.
  apply (Rmult_le_reg_r (1 - thr)); [lra|].
  unfold Rdiv. rewrite Rmult_assoc, Rinv_l by lra. lra.
Qed.

Lemma soft_square_cutoff_outside (x thr : R) (n : Z) :
  (0 <= n)%Z -> thr < 1 -> x <= 0 \/ 1 <= x -> soft_square_cutoff x thr n = Some 0.
Proof.
  intros Hn Hthr Hx.
  destruct (soft_square_cutoff_spec x thr n Hn) as (c1 & c2 & H1 & H2 & _ & _ & Hw); [lra|].
  rewrite Hw. unfold Rleb. destruct Hx as [Hx|Hx].
  - destruct (Rle_dec x 0.5); [|lra].
    rewrite soft_cutoff_zero_above in H2 by (try assumption; lra). exact (eq_sym H2).
  - destruct (Rle_dec x 0.5); [lra|].
    rewrite soft_cutoff_zero_above in H1 by assumption. exact (eq_sym H1).
Qed.

Lemma soft_square_cutoff_plateau (x thr : R) (n : Z) :
  (0 <= n)%Z -> thr < 1 -> 1 - thr <= x <= thr -> soft_square_cutoff x thr n = Some 1.
Proof.
  intros Hn Hthr Hx.
  destruct (soft_square_cutoff_spec x thr n Hn) as (c1 & c2 & H1 & H2 & _ & _ & Hw); [lra|].
  rewrite Hw. unfold Rleb. destruct (Rle_dec x 0.5).
  - rewrite soft_cutoff_one_below in H2 by (try assumption; lra). exact (eq_sym H2).
  - rewrite soft_cutoff_one_below in H1 by (try assumption; lra). exact (eq_sym H1).
Qed.

(** The profile of the window in exact arithmetic, for a threshold below
    one: it is [0] at every [x <= 0] and every [x >= 1], and [1] on the
    plateau [1 - thr <= x <= thr]. *)
Theorem soft_square_cutoff_profile (x thr : R) (n : Z) :
  (0 <= n)%Z -> thr < 1 ->
  (x <= 0 \/ 1 <= x -> soft_square_cutoff x thr n = Some 0)
  /\ (1 - thr <= x <= thr -> soft_square_cutoff x thr n = Some 1).
Proof.
  intros Hn Hthr. split.
  - apply soft_square_cutoff_outside; assumption.
  - apply soft_square_cutoff_plateau; assumption.
Qed.

Lemma soft_square_cutoff_profile_witness :
  soft_square_cutoff 2 default_thr 3 = Some 0
  /\ soft_square_cutoff (1 / 2) default_thr 3 = Some 1.
Proof.
  split.
  - apply (proj1 (soft_square_cutoff_profile 2 default_thr 3 ltac:(lia)
                    ltac:(unfold default_thr; lra))).
    right. lra.
  - apply (proj2 (soft_square_cutoff_profile (1 / 2) default_thr 3 ltac:(lia)
                    ltac:(unfold default_thr; lra))).
    unfold default_thr. lra.
Defined.

(** *** The layer: beyond the cutoff, on the plateau, and the size of a channel *)

(** With the soft cutoff enabled and a positive cutoff radius, every channel
    is zero at every distance at or beyond the cutoff radius, and at every
    distance that is zero or negative. *)
Theorem forward_zero_outside (self : GaussianRadialBasisLayer) (d : R) :
  wf self -> 0 < cutoff self -> soft_cutoff_flag self = true ->
  d <= 0 \/ cutoff self <= d ->
  exists row, forward self [d] = Some [row]
              /\ length row = num_basis self /\ Forall (fun y => y = 0) row.
Proof.
  intros Hwf Hc Hf Hd.
  destruct (forward_row_zero_window self d Hwf) as (row & Hrow & Hl & Hz);
    [lra | exact Hf | |].
  - apply soft_square_cutoff_outside; [unfold default_n; lia | unfold default_thr; lra |].
    destruct Hd as [Hd|Hd]; [left | right].
    + apply (Rmult_le_reg_r (cutoff self)); [exact Hc|].
      unfold Rdiv. rewrite Rmult_assoc, Rinv_l by lra. lra.
    + apply (Rmult_le_reg_r (cutoff self)); [exact Hc|].
      unfold Rdiv. rewrite Rmult_assoc, Rinv_l by lra. lra.
  - exists row. unfold forward. cbn [mapM]. rewrite Hrow. cbn [obind].
    repeat split; assumption.
Qed.

Lemma forward_zero_outside_witness :
  exists row, forward Examples.unit_layer [5 / 2] = Some [row]
              /\ length row = 2%nat /\ Forall (fun y => y = 0) row.
Proof.
  apply (forward_zero_outside Examples.unit_layer (5 / 2)).
  - split; reflexivity.
  - simpl. lra.
  - reflexivity.
  - right. simpl. lra.
Defined.

Lemma map_mult_one (g : list R) : map (fun gj => gj * 1) g = g.
Proof.
  induction g as [|x g IH]; simpl; [reflexivity|].
  rewrite IH, Rmult_1_r. reflexivity.
Qed.

(** Between 0.2 and 0.8 of the cutoff radius the soft cutoff changes
    nothing: the layer returns what it returns with the soft cutoff
    disabled. *)
Theorem forward_plateau (self : GaussianRadialBasisLayer) (d : R) :
  0 < cutoff self -> soft_cutoff_flag self = true ->
  0.2 * cutoff self <= d <= 0.8 * cutoff self ->
  forward self [d] = forward (without_soft_cutoff self) [d].
Proof.
  intros Hc Hf Hd. unfold forward. cbn [mapM]. f_equal.
  unfold forward_row. cbn [without_soft_cutoff num_basis cutoff mean std_logit weight bias
                           soft_cutoff_flag].
  rewrite Hf. rewrite rdiv_some by lra. cbn [obind].
  destruct (zip3 _ _ _) as [cols|]; [|reflexivity]. cbn [obind].
  destruct (mapM _ cols) as [g|]; [|reflexivity]. cbn [obind].
  rewrite soft_square_cutoff_plateau; [| unfold default_n; lia | unfold default_thr; lra |].
  - cbn [obind]. rewrite map_mult_one. reflexivity.
  - unfold default_thr. split.
    + apply (Rmult_le_reg_r (cutoff self)); [exact Hc|].
      unfold Rdiv. rewrite Rmult_assoc, Rinv_l by lra. lra.
    + apply (Rmult_le_reg_r (cutoff self)); [exact Hc|].
      unfold Rdiv. rewrite Rmult_assoc, Rinv_l by lra. lra.
Qed.

Lemma forward_plateau_witness :
  forward Examples.unit_layer [1 / 2]
  = forward (without_soft_cutoff Examples.unit_layer) [1 / 2].
Proof.
  apply (forward_plateau Examples.unit_layer (1 / 2)).
  - simpl. lra.
  - reflexivity.
  - simpl. lra.
Defined.

(** The Gaussian part of a row, with the size of every channel. *)
Lemma gaussian_row_bounds (x : R) (n : nat) :
  forall ms ss : list R,
    length ms = n -> length ss = n ->
    exists cols g,
      zip3 (repeat x n) ms (map softplus ss) = Some cols
      /\ mapM (fun c => match c with (xj, mj, sj) => gaussian xj mj sj end) cols = Some g
      /\ Forall2 (fun y s => 0 < y <= 1 / (a * softplus s)) g ss.
Proof.
  induction n as [|n IH]; intros ms ss Hm Hs.
  - destruct ms; [|discriminate]. destruct ss; [|discriminate].
    exists [], []. repeat split. constructor.
  - destruct ms as [|m ms]; [discriminate|]. destruct ss as [|s0 ss]; [discriminate|].
    simpl in Hm, Hs. injection Hm as Hm. injection Hs as Hs.
    destruct (IH ms ss Hm Hs) as (cols & g & Hz & Hg & Hb).
    destruct (gaussian_positive_bounded_aux x m (softplus s0) (softplus_pos s0))
      as (g0 & Hg0 & Hb0).
    exists ((x, m, softplus s0) :: cols), (g0 :: g).
    simpl. rewrite Hz. simpl. rewrite Hg0. simpl. rewrite Hg. simpl.
    repeat split. constructor; assumption.
Qed.

(** In exact arithmetic every channel of the layer lies between zero and
    the peak of its Gaussian, [1 / (a * softplus(std_logit))]; with the soft
    cutoff disabled every channel is strictly positive. *)
Theorem forward_channel_bounds (self : GaussianRadialBasisLayer) (d : R) :
  wf self -> cutoff self <> 0 ->
  exists row, forward self [d] = Some [row]
              /\ Forall2 (fun y s => 0 <= y <= 1 / (a * softplus s)) row (std_logit self)
              /\ (soft_cutoff_flag self = false -> Forall (fun y => 0 < y) row).
Proof.
  intros [Hm Hs] Hc. unfold forward. cbn [mapM]. unfold forward_row.
  rewrite rdiv_some by exact Hc. cbn [obind].
  destruct (gaussian_row_bounds (weight self * (d / cutoff self) + bias self)
              (num_basis self) (mean self) (std_logit self) Hm Hs)
    as (cols & g & Hz & Hg & Hb).
  rewrite Hz. cbn [obind]. rewrite Hg. cbn [obind].
  destruct (soft_cutoff_flag self) eqn:Hf.
  - destruct (soft_square_cutoff_spec (d / cutoff self) default_thr default_n)
      as (c1 & c2 & _ & _ & B1 & B2 & Hw); [unfold default_n; lia | exact default_thr_ne_one |].
    rewrite Hw. cbn [obind].
    set (w := if Rleb (d / cutoff self) 0.5 then c2 else c1).
    assert (Bw : 0 <= w <= 1) by (unfold w; destruct (Rleb (d / cutoff self) 0.5); assumption).
    eexists. split; [reflexivity|]. split; [|discriminate].
    clear - Hb Bw. induction Hb as [|y s0 g ss Hy _ IH]; simpl; constructor; [|exact IH].
    assert (Hpk : 0 < 1 / (a * softplus s0)) by lra. nra.
  - eexists. split; [reflexivity|]. split.
    + eapply Forall2_impl; [|exact Hb]. simpl. intros y s0 Hy. lra.
    + intros _. clear - Hb. induction Hb as [|y s0 g ss Hy _ IH]; constructor; [lra | exact IH].
Qed.

Lemma forward_channel_bounds_witness :
  exists row, forward (without_soft_cutoff Examples.unit_layer) [3 / 10] = Some [row]
              /\ Forall2 (fun y s => 0 <= y <= 1 / (a * softplus s)) row [0; 0]
              /\ Forall (fun y => 0 < y) row.
Proof.
  destruct (forward_channel_bounds (without_soft_cutoff Examples.unit_layer) (3 / 10))
    as (row & H & Hb & Hp).
  - split; reflexivity.
  - simpl. lra.
  - exists row. split; [exact H|]. split; [exact Hb|]. apply Hp. reflexivity.
Defined.

(** *** The layer as [__init__] leaves it *)





End GaussianRbfFacts.

(** ** block.py: construction *)

Module InitFacts.
Import Init.

Lemma math_sqrt_ok (x : R) : 0 <= x -> math_sqrt x = Ok (sqrt x).
Proof. intros H. unfold math_sqrt. rewrite Rltb_false by exact H. reflexivity. Qed.

Lemma fdiv_ok (x y : R) : y <> 0 -> fdiv x y = Ok (x / y).
Proof. intros H. unfold fdiv. destruct (Req_dec_T y 0); [contradiction | reflexivity]. Qed.

Lemma Irrep_eqb_eq (x y : Irrep) : Irrep_eqb x y = true <-> x = y.
Proof.
  destruct x as [[m1 l1] p1], y as [[m2 l2] p2]. simpl.
  rewrite !andb_true_iff, !Nat.eqb_eq, Bool.eqb_true_iff.
  split.
  - intros [[-> ->] ->]. reflexivity.
  - intros H. injection H as -> -> ->. repeat split.
Qed.

Lemma Irreps_eqb_eq (x y : Irreps) : Irreps_eqb x y = true <-> x = y.
Proof.
  revert y. induction x as [|i x IH]; intros [|j y]; simpl; try (split; [discriminate | discriminate]).
  - split; reflexivity.
  - rewrite andb_true_iff, Irrep_eqb_eq, IH. split.
    + intros [-> ->]. reflexivity.
    + intros H. injection H as -> ->. split; reflexivity.
Qed.

Lemma Irreps_eqb_refl (x : Irreps) : Irreps_eqb x x = true.
Proof. apply Irreps_eqb_eq. reflexivity. Qed.

Section Construction.

Variable mlp_mid_of_int : Irreps -> Z -> Irreps.

(** *** Configurations on which construction succeeds *)

Lemma EquiformerBlock_init_ok (args : EquiformerBlockArgs) :
  (a_num_heads args * Irreps_dim (a_irreps_head args))%Z = Irreps_dim (a_irreps_dst args) ->
  a_attn_type args = "mlp"%string ->
  exists b, EquiformerBlock_init mlp_mid_of_int args = Ok b
            /\ irreps_src b = a_irreps_src args /\ irreps_dst b = a_irreps_dst args.
Proof.
  intros Hd Ha. unfold EquiformerBlock_init.
  rewrite (proj2 (Z.eqb_eq _ _) Hd). rewrite Ha. simpl.
  eexists. split; [reflexivity|]. split; reflexivity.
Qed.

Lemma build_list_ok {A : Type} (f : result A) (x : A) (k : nat) :
  f = Ok x -> build_list f k = Ok (repeat x k).
Proof.
  intros ->. induction k as [|k IH]; simpl; [reflexivity|].
  rewrite IH. reflexivity.
Qed.

Lemma PoolingBlock_init_body_ok (args : PoolingBlockArgs) :
  (pa_num_heads args * Irreps_dim (pa_irreps_head args))%Z = Irreps_dim (pa_irreps_dst args) ->
  pa_attn_type args = "mlp"%string ->
  pa_pool_method args = Some "fps"%string ->
  pa_fc_neurons args <> [] ->
  exists b, PoolingBlock_init_body mlp_mid_of_int args = Ok b
            /\ pb_irreps_src b = pa_irreps_src args /\ pb_irreps_dst b = pa_irreps_dst args.
Proof.
  intros Hd Ha Hm Hfc. unfold PoolingBlock_init_body.
  destruct (EquiformerBlock_init_ok
              {| a_irreps_src := pa_irreps_src args;
                 a_irreps_dst := pa_irreps_dst args;
                 a_irreps_edge_attr := pa_irreps_edge_attr args;
                 a_irreps_head := pa_irreps_head args;
                 a_num_heads := pa_num_heads args;
                 a_fc_neurons := pa_fc_neurons args;
                 a_irreps_mlp_mid := pa_irreps_mlp_mid args;
                 a_attn_type := pa_attn_type args;
                 a_alpha_drop := pa_alpha_drop args;
                 a_proj_drop := pa_proj_drop args;
                 a_drop_path_rate := pa_drop_path_rate args;
                 a_src_bias := false;
                 a_dst_bias := true |} Hd Ha) as (b & Hb & _).
  rewrite Hb. cbn [rbind]. rewrite Hm. cbn [rbind]. simpl str_eqb. cbn [rbind].
  destruct (pa_fc_neurons args) as [|f fs] eqn:E; [contradiction|].
  simpl. eexists. split; [reflexivity|]. split; reflexivity.
Qed.

Lemma RadiusGraphBlock_init_ok (args : RadiusGraphBlockArgs) :
  (ra_num_heads args * Irreps_dim (ra_irreps_head args))%Z = Irreps_dim (ra_irreps args) ->
  ra_attn_type args = "mlp"%string ->
  ra_fc_neurons args <> [] ->
  (1 <= ra_n_layers args)%Z ->
  exists b, RadiusGraphBlock_init mlp_mid_of_int args = Ok b.
Proof.
  intros Hd Ha Hfc Hn. unfold RadiusGraphBlock_init.
  destruct (ra_fc_neurons args) as [|f fs] eqn:E; [contradiction|].
  cbn [length Nat.leb assert rbind].
  rewrite (proj2 (Z.leb_le _ _) Hn). cbn [assert rbind].
  destruct (EquiformerBlock_init_ok
              {| a_irreps_src := ra_irreps args;
                 a_irreps_dst := ra_irreps args;
                 a_irreps_edge_attr := ra_irreps_edge_attr args;
                 a_irreps_head := ra_irreps_head args;
                 a_num_heads := ra_num_heads args;
                 a_fc_neurons := f :: fs;
                 a_irreps_mlp_mid := ra_irreps_mlp_mid args;
                 a_attn_type := ra_attn_type args;
                 a_alpha_drop := ra_alpha_drop args;
                 a_proj_drop := ra_proj_drop args;
                 a_drop_path_rate := ra_drop_path_rate args;
                 a_src_bias := false;
                 a_dst_bias := true |} Hd Ha) as (b & Hb & _).
  rewrite (build_list_ok _ b _ Hb). cbn [rbind].
  eexists. reflexivity.
Qed.

(** *** PoolingBlock: the check of the two signatures *)

(** C8.  Constructing a [PoolingBlock] whose source signature differs from
    its destination signature raises at construction time; when the two are
    equal, construction goes on past the check (and succeeds on a
    configuration that is valid otherwise), so that every constructed
    [PoolingBlock] has equal signatures and no mismatch is left for
    [forward]. *)
Theorem PoolingBlock_signature_check (args : PoolingBlockArgs) :
  (pa_irreps_src args <> pa_irreps_dst args ->
   PoolingBlock_init mlp_mid_of_int args = Raise NotImplementedError)
  /\ (pa_irreps_src args = pa_irreps_dst args ->
      PoolingBlock_init mlp_mid_of_int args = PoolingBlock_init_body mlp_mid_of_int args
      /\ ((pa_num_heads args * Irreps_dim (pa_irreps_head args))%Z = Irreps_dim (pa_irreps_dst args) ->
          pa_attn_type args = "mlp"%string ->
          pa_pool_method args = Some "fps"%string ->
          pa_fc_neurons args <> [] ->
          exists b, PoolingBlock_init mlp_mid_of_int args = Ok b))
  /\ (forall b, PoolingBlock_init mlp_mid_of_int args = Ok b ->
                pb_irreps_src b = pb_irreps_dst b).
Proof.
  unfold PoolingBlock_init.
  destruct (Irreps_eqb (pa_irreps_src args) (pa_irreps_dst args)) eqn:E; cbn [negb].
  - apply Irreps_eqb_eq in E. split; [intros H; contradiction|]. split.
    + intros _. split; [reflexivity|]. intros Hd Ha Hm Hfc.
      destruct (PoolingBlock_init_body_ok args Hd Ha Hm Hfc) as (b & Hb & _).
      exists b. exact Hb.
    + intros b Hb. unfold PoolingBlock_init_body in Hb.
      apply rbind_ok in Hb. destruct Hb as (blk & _ & Hb).
      apply rbind_ok in Hb. destruct Hb as (m & _ & Hb).
      apply rbind_ok in Hb. destruct Hb as (pl & _ & Hb).
      apply rbind_ok in Hb. destruct Hb as (u & _ & Hb).
      injection Hb as <-. simpl. exact E.
  - split; [reflexivity|]. split.
    + intros H. apply Irreps_eqb_eq in H. rewrite H in E. discriminate.
    + intros b Hb. discriminate.
Qed.

(** *** DownBlock: the radius schedule *)

Lemma last_cons (l : list R) (y r : R) : last (y :: l) r = last l y.
Proof.
  revert y r. induction l as [|z l IH]; intros y r; [reflexivity|].
  change (last (y :: z :: l) r) with (last (z :: l) r).
  rewrite (IH z r), (IH z y). reflexivity.
Qed.

Lemma radius_chain_app (q r : R) (l : list R) (x : R) :
  radius_chain q r l -> x = last l r / q -> radius_chain q r (l ++ [x]).
Proof.
  revert r. induction l as [|y l IH]; intros r Hc Hx.
  - simpl in *. split; [exact Hx | exact I].
  - destruct Hc as [Hy Hc]. split; [exact Hy|].
    apply IH; [exact Hc|].
    rewrite last_cons in Hx. exact Hx.
Qed.

Lemma radius_chain_nth (q r : R) (l : list R) (s : nat) :
  radius_chain q r l -> (S s < length l)%nat ->
  exists prev cur, nth_error l s = Some prev /\ nth_error l (S s) = Some cur
                   /\ cur = prev / q.
Proof.
  revert r s. induction l as [|x l IH]; intros r s Hc Hs; simpl in Hs; [lia|].
  destruct Hc as [_ Hc].
  destruct s as [|s].
  - destruct l as [|y l]; simpl in Hs; [lia|].
    destruct Hc as [Hy _]. exists x, y. repeat split. exact Hy.
  - apply (IH x s Hc). lia.
Qed.

(** One iteration divides [radius] by [sqrt(pool_ratio)] and appends it. *)
Lemma DownBlock_scale_radius (args : DownBlockArgs) (ls ls' : list Layer)
    (rl rl' : list R) (r r' : R) :
  DownBlock_scale mlp_mid_of_int args (ls, rl, r) = Ok (ls', rl', r') ->
  0 < da_pool_ratio args ->
  r' = r / sqrt (da_pool_ratio args) /\ rl' = rl ++ [r'].
Proof.
  intros H Hp. unfold DownBlock_scale in H.
  rewrite math_sqrt_ok in H by lra. cbn [rbind] in H.
  rewrite fdiv_ok in H by (apply Rgt_not_eq, sqrt_lt_R0; exact Hp). cbn [rbind] in H.
  rbind_inv H as l1 _.
  rbind_inv H as l2 _.
  injection H as _ <- <-. split; reflexivity.
Qed.

Lemma DownBlock_scales_radius (args : DownBlockArgs) (k : nat) :
  forall (ls ls' : list Layer) (rl rl' : list R) (r0 r r' : R),
    DownBlock_scales mlp_mid_of_int args k (ls, rl, r) = Ok (ls', rl', r') ->
    0 < da_pool_ratio args ->
    radius_chain (sqrt (da_pool_ratio args)) r0 rl -> r = last rl r0 ->
    radius_chain (sqrt (da_pool_ratio args)) r0 rl'
    /\ length rl' = (length rl + k)%nat.
Proof.
  induction k as [|k IH]; intros ls ls' rl rl' r0 r r' H Hp Hc Hr.
  - simpl in H. injection H as _ <- _. split; [exact Hc | lia].
  - cbn [DownBlock_scales] in H.
    rbind_inv H as [[l1 rl1] r1] H1.
    destruct (DownBlock_scale_radius args ls l1 rl rl1 r r1 H1 Hp) as [Hr1 Hrl1].
    destruct (IH l1 ls' rl1 rl' r0 r1 r' H Hp) as [Hc' Hl'].
    + rewrite Hrl1. apply radius_chain_app; [exact Hc|]. rewrite <- Hr. exact Hr1.
    + rewrite Hrl1. rewrite last_last. reflexivity.
    + split; [exact Hc'|]. rewrite Hl', Hrl1, length_app. simpl. lia.
Qed.

(** The radius schedule in exact arithmetic.  For every [DownBlock]
    constructed with [init_radius > 0], [0 < pool_ratio <= 1] and
    [n_scales >= 1], the radius schedule has one entry per scale,
    [radius_list[0]] equals [init_radius] in exact arithmetic, and
    [radius_list[s]] equals [radius_list[s-1] / sqrt(pool_ratio)] for every
    [s] in [1..n_scales-1].  In binary64 the first radius is the rounded
    [(init_radius * sqrt(pool_ratio)) / sqrt(pool_ratio)], which need not be
    [init_radius]: see [Binary64Facts]. *)
Theorem radius_schedule (args : DownBlockArgs) (blk : DownBlock) :
  0 < da_init_radius args ->
  0 < da_pool_ratio args <= 1 ->
  (1 <= da_n_scales args)%Z ->
  DownBlock_init mlp_mid_of_int args = Ok blk ->
  length (radius_list blk) = Z.to_nat (da_n_scales args)
  /\ nth_error (radius_list blk) 0 = Some (da_init_radius args)
  /\ forall s : nat,
       (1 <= s < Z.to_nat (da_n_scales args))%nat ->
       exists prev cur,
         nth_error (radius_list blk) (s - 1) = Some prev
         /\ nth_error (radius_list blk) s = Some cur
         /\ cur = prev / sqrt (da_pool_ratio args).
Proof.
  intros Hr [Hp Hp1] Hn H. unfold DownBlock_init in H.
  rbind_inv H as u1 _.
  rbind_inv H as u2 _.
  rewrite math_sqrt_ok in H by lra. cbn [rbind] in H.
  rbind_inv H as [[ls rl] r'] Hloop.
  injection H as <-. cbn [radius_list].
  set (q := sqrt (da_pool_ratio args)) in *.
  assert (Hq : 0 < q) by (apply sqrt_lt_R0; exact Hp).
  destruct (DownBlock_scales_radius args _ [] ls [] rl
              (da_init_radius args * q) (da_init_radius args * q) r' Hloop Hp I eq_refl)
    as [Hc Hl].
  simpl in Hl. fold q in Hc.
  split; [exact Hl|]. split.
  - destruct rl as [|x rl]; [simpl in Hl; lia|].
    destruct Hc as [Hx _]. simpl. f_equal. rewrite Hx. field. lra.
  - intros s Hs. destruct s as [|s]; [lia|].
    replace (S s - 1)%nat with s by lia.
    apply (radius_chain_nth q (da_init_radius args * q) rl s Hc). lia.
Qed.

(** *** DownBlock: pool_ratio and the pooling method *)

Lemma DownBlock_scale_no_pooling (args : DownBlockArgs) (st st' : LoopState) :
  da_pool_method args = None ->
  DownBlock_scale mlp_mid_of_int args st = Ok st' ->
  forallb (fun l => negb (is_pooling l)) (fst (fst st)) = true ->
  forallb (fun l => negb (is_pooling l)) (fst (fst st')) = true.
Proof.
  intros Hm H Hf. destruct st as [[ls rl] r]. unfold DownBlock_scale in H.
  rewrite Hm in H.
  rbind_inv H as sq _.
  rbind_inv H as r1 _.
  cbn [rbind] in H.
  destruct (1 <=? da_n_layers_per_scale args - (if is_none None then 0 else 1))%Z.
  - rbind_inv H as l2 Hl2.
    apply rbind_ok in Hl2. destruct Hl2 as (b & _ & Hl2).
    injection Hl2 as <-. injection H as <-. simpl in *.
    rewrite forallb_app, Hf. reflexivity.
  - cbn [rbind] in H. injection H as <-. exact Hf.
Qed.

Lemma DownBlock_scales_no_pooling (args : DownBlockArgs) (k : nat) :
  forall st st' : LoopState,
    da_pool_method args = None ->
    DownBlock_scales mlp_mid_of_int args k st = Ok st' ->
    forallb (fun l => negb (is_pooling l)) (fst (fst st)) = true ->
    forallb (fun l => negb (is_pooling l)) (fst (fst st')) = true.
Proof.
  induction k as [|k IH]; intros st st' Hm H Hf.
  - simpl in H. injection H as <-. exact Hf.
  - cbn [DownBlock_scales] in H.
    rbind_inv H as st1 H1.
    apply (IH st1 st' Hm H).
    apply (DownBlock_scale_no_pooling args st st1 Hm H1 Hf).
Qed.

Lemma DownBlock_check_pool_one (pool_ratio : R) (pool_method : option string) :
  pool_ratio = 1 -> DownBlock_check_pool pool_ratio pool_method = assert (is_none pool_method).
Proof.
  intros Hp. unfold DownBlock_check_pool.
  destruct (Req_dec_T pool_ratio 1); [reflexivity | contradiction].
Qed.

Lemma DownBlock_init_no_pooling (args : DownBlockArgs) (blk : DownBlock) :
  da_pool_method args = None ->
  DownBlock_init mlp_mid_of_int args = Ok blk ->
  forallb (fun l => negb (is_pooling l)) (layers blk) = true.
Proof.
  intros Hm H. unfold DownBlock_init in H.
  rbind_inv H as u1 _.
  rbind_inv H as u2 _.
  rbind_inv H as sq _.
  rbind_inv H as [[ls rl] r'] Hloop.
  injection H as <-. cbn [layers].
  apply (DownBlock_scales_no_pooling args _ _ _ Hm Hloop). reflexivity.
Qed.

(** C7.  With [pool_ratio == 1], a pooling method that is set makes
    [__init__] raise at once, before anything else is built, so that no
    such [DownBlock] exists whose [forward] could run; with the pooling
    method unset the check passes and no [PoolingBlock] is among the layers
    of the constructed block. *)
Theorem pool_ratio_one_check (args : DownBlockArgs) :
  da_pool_ratio args = 1 ->
  match da_pool_method args with
  | Some _ => DownBlock_init mlp_mid_of_int args = Raise AssertionError
  | None =>
    DownBlock_check_pool (da_pool_ratio args) (da_pool_method args) = Ok tt
    /\ match DownBlock_init mlp_mid_of_int args with
       | Ok blk => forallb (fun l => negb (is_pooling l)) (layers blk) = true
       | Raise _ => True
       end
  end.
Proof.
  intros Hp.
  destruct (da_pool_method args) as [m|] eqn:Hm.
  - unfold DownBlock_init. rewrite Hm, DownBlock_check_pool_one by exact Hp. reflexivity.
  - split; [rewrite DownBlock_check_pool_one by exact Hp; reflexivity|].
    destruct (DownBlock_init mlp_mid_of_int args) as [blk|e] eqn:H; [|exact I].
    apply (DownBlock_init_no_pooling args blk Hm H).
Qed.

(** *** DownBlock: construction succeeds on a valid configuration *)

Lemma DownBlock_scale_ok (args : DownBlockArgs) (st : LoopState) :
  0 < da_pool_ratio args ->
  (da_pool_method args = None \/ da_pool_method args = Some "fps"%string) ->
  (da_num_heads args * Irreps_dim (da_irreps_head args))%Z = Irreps_dim (da_irreps args) ->
  da_attn_type args = "mlp"%string ->
  da_fc_neurons args <> [] ->
  exists st', DownBlock_scale mlp_mid_of_int args st = Ok st'.
Proof.
  intros Hp Hm Hd Ha Hfc. destruct st as [[ls rl] r]. unfold DownBlock_scale.
  rewrite math_sqrt_ok by lra. cbn [rbind].
  rewrite fdiv_ok by (apply Rgt_not_eq, sqrt_lt_R0; exact Hp). cbn [rbind].
  set (radius := r / sqrt (da_pool_ratio args)).
  assert (Hrg : forall ls0 : list Layer, exists ls1,
             (if (1 <=? da_n_layers_per_scale args
                        - (if is_none (da_pool_method args) then 0 else 1))%Z
              then
                b <~ RadiusGraphBlock_init mlp_mid_of_int
                       {| ra_irreps := da_irreps args;
                          ra_irreps_edge_attr := da_irreps_edge_attr args;
                          ra_irreps_head := da_irreps_head args;
                          ra_num_heads := da_num_heads args;
                          ra_fc_neurons := da_fc_neurons args;
                          ra_radius := radius;
                          ra_n_layers := (da_n_layers_per_scale args
                                          - (if is_none (da_pool_method args) then 0 else 1))%Z;
                          ra_irreps_mlp_mid := da_irreps_mlp_mid args;
                          ra_attn_type := da_attn_type args;
                          ra_alpha_drop := da_alpha_drop args;
                          ra_proj_drop := da_proj_drop args;
                          ra_drop_path_rate := da_drop_path_rate args |} ;;
                Ok (ls0 ++ [LRadiusGraph b])
              else Ok ls0) = Ok ls1).
  { intros ls0.
    destruct (1 <=? da_n_layers_per_scale args
                    - (if is_none (da_pool_method args) then 0 else 1))%Z eqn:E.
    - apply Z.leb_le in E.
      edestruct RadiusGraphBlock_init_ok as [b Hb]; [..|rewrite Hb]; try eassumption.
      cbn [rbind]. eexists; reflexivity.
    - eexists; reflexivity. }
  destruct Hm as [Hm|Hm].
  - rewrite Hm in *. cbn [rbind].
    destruct (Hrg ls) as [ls1 H1]. rewrite H1. cbn [rbind]. eexists; reflexivity.
  - rewrite Hm in *. unfold PoolingBlock_init. cbn [pa_irreps_src pa_irreps_dst].
    rewrite Irreps_eqb_refl. cbn [negb].
    edestruct PoolingBlock_init_body_ok as (b & Hb & _); [..|rewrite Hb];
      try eassumption; try reflexivity.
    cbn [rbind].
    destruct (Hrg (ls ++ [LPooling b])) as [ls1 H1]. rewrite H1. cbn [rbind].
    eexists; reflexivity.
Qed.

Lemma DownBlock_init_ok (args : DownBlockArgs) :
  0 < da_pool_ratio args ->
  (da_pool_ratio args = 1 /\ da_pool_method args = None
   \/ da_pool_ratio args <> 1 /\ da_pool_method args = Some "fps"%string) ->
  (1 <= da_n_layers_per_scale args)%Z ->
  (da_num_heads args * Irreps_dim (da_irreps_head args))%Z = Irreps_dim (da_irreps args) ->
  da_attn_type args = "mlp"%string ->
  da_fc_neurons args <> [] ->
  exists blk, DownBlock_init mlp_mid_of_int args = Ok blk.
Proof.
  intros Hp Hm Hn Hd Ha Hfc. unfold DownBlock_init.
  assert (Hc : DownBlock_check_pool (da_pool_ratio args) (da_pool_method args) = Ok tt).
  { unfold DownBlock_check_pool.
    destruct (Req_dec_T (da_pool_ratio args) 1) as [E|E];
      destruct Hm as [[H1 H2]|[H1 H2]]; try contradiction; rewrite H2; reflexivity. }
  rewrite Hc. cbn [rbind].
  rewrite (proj2 (Z.leb_le _ _) Hn). cbn [assert rbind].
  rewrite math_sqrt_ok by lra. cbn [rbind].
  assert (Hm' : da_pool_method args = None \/ da_pool_method args = Some "fps"%string)
    by (destruct Hm as [[_ H]|[_ H]]; [left | right]; exact H).
  assert (Hloop : forall k st, exists st', DownBlock_scales mlp_mid_of_int args k st = Ok st').
  { induction k as [|k IH]; intros st.
    - exists st. reflexivity.
    - cbn [DownBlock_scales].
      destruct (DownBlock_scale_ok args st Hp Hm' Hd Ha Hfc) as [st1 H1].
      rewrite H1. cbn [rbind]. apply IH. }
  destruct (Hloop (Z.to_nat (da_n_scales args))
                  ([], [], da_init_radius args * sqrt (da_pool_ratio args)))
    as [[[ls rl] r] Hst].
  rewrite Hst. cbn [rbind]. eexists; reflexivity.
Qed.

(** *** EdfExtractor: what the modules of a scale are built from *)

Lemma getitem_ok {A : Type} (l : list A) (n : nat) (x : A) :
  getitem l n = Ok x -> nth_error l n = Some x.
Proof.
  unfold getitem. destruct (nth_error l n); intros H; [injection H as <-; reflexivity | discriminate].
Qed.

Lemma EdfExtractor_scale_built (args : EdfExtractorArgs) (n : nat)
    (pc pc' : list RadiusConnect) (pr pr' : list GaussianRadialBasisLayerFiniteCutoff)
    (pl pl' : list EquiformerBlock) :
  EdfExtractor_scale mlp_mid_of_int args n (pc, pr, pl) = Ok (pc', pr', pl') ->
  length pc = n -> length pr = n ->
  (forall i, (i < n)%nat -> scale_built args pc pr i) ->
  length pc' = S n /\ length pr' = S n
  /\ forall i, (i < S n)%nat -> scale_built args pc' pr' i.
Proof.
  intros H Lc Lr Hb. unfold EdfExtractor_scale in H.
  rbind_inv H as c Hc. apply getitem_ok in Hc.
  rbind_inv H as fc _.
  rbind_inv H as fc0 _.
  rbind_inv H as c' Hc'. apply getitem_ok in Hc'.
  rbind_inv H as o Ho. apply getitem_ok in Ho.
  rbind_inv H as irr _.
  rbind_inv H as b _.
  injection H as <- <- <-.
  rewrite Hc in Hc'. injection Hc' as <-.
  split; [rewrite length_app; simpl; lia|].
  split; [rewrite length_app; simpl; lia|].
  intros i Hi. destruct (Nat.eq_dec i n) as [->|Hne].
  - eexists c, o, _, _.
    split; [exact Hc|]. split; [exact Ho|].
    split; [rewrite nth_error_app2 by lia; rewrite Lc, Nat.sub_diag; reflexivity|].
    split; [reflexivity|]. split; [reflexivity|]. split; [reflexivity|].
    split; [rewrite nth_error_app2 by lia; rewrite Lr, Nat.sub_diag; reflexivity|].
    split; reflexivity.
  - destruct (Hb i) as (ci & oi & x & y & H1 & H2 & H3 & H4 & H5 & H6 & H7 & H8 & H9); [lia|].
    exists ci, oi, x, y.
    rewrite !nth_error_app1 by lia. repeat split; assumption.
Qed.

Lemma EdfExtractor_scales_built (args : EdfExtractorArgs) (len : nat) :
  forall (start : nat) (pc pc' : list RadiusConnect) (pr pr' : list GaussianRadialBasisLayerFiniteCutoff)
         (pl pl' : list EquiformerBlock),
    EdfExtractor_scales mlp_mid_of_int args (seq start len) (pc, pr, pl) = Ok (pc', pr', pl') ->
    length pc = start -> length pr = start ->
    (forall i, (i < start)%nat -> scale_built args pc pr i) ->
    forall i, (i < start + len)%nat -> scale_built args pc' pr' i.
Proof.
  induction len as [|len IH]; intros start pc pc' pr pr' pl pl' H Lc Lr Hb i Hi.
  - simpl in H. injection H as <- <- <-. apply Hb. lia.
  - cbn [seq EdfExtractor_scales] in H.
    rbind_inv H as [[pc1 pr1] pl1] H1.
    destruct (EdfExtractor_scale_built args start pc pc1 pr pr1 pl pl1 H1 Lc Lr Hb)
      as (Lc1 & Lr1 & Hb1).
    apply (IH (S start) pc1 pc' pr1 pr' pl1 pl' H Lc1 Lr1 Hb1). lia.
Qed.

(** The code of [EdfExtractor.__init__], at every scale: the connect module
    is built from the cutoff alone, its offset is [None]; the offset of the
    scale reaches the radial basis only. *)
Lemma pre_connect_built_without_offset (args : EdfExtractorArgs) (ex : EdfExtractor) (n : nat) :
  EdfExtractor_init mlp_mid_of_int args = Ok ex ->
  (n < ex_n_scales ex)%nat ->
  scale_built args (pre_connect ex) (pre_radial ex) n.
Proof.
  intros H Hn. unfold EdfExtractor_init in H.
  rbind_inv H as u1 _.
  rbind_inv H as u2 _.
  rbind_inv H as [[pc pr] pl] Hloop.
  injection H as <-. cbn [pre_connect pre_radial ex_n_scales] in *.
  apply (EdfExtractor_scales_built args _ 0 [] pc [] pr [] pl Hloop eq_refl eq_refl);
    [intros i Hi; lia | simpl; exact Hn].
Qed.

End Construction.

(** *** The theorems on concrete configurations *)

Import Examples.

Lemma PoolingBlock_signature_check_witness :
  PoolingBlock_init mlp_mid (pooling_args irreps_node irreps_sh) = Raise NotImplementedError
  /\ exists b, PoolingBlock_init mlp_mid (pooling_args irreps_node irreps_node) = Ok b
               /\ pb_irreps_src b = pb_irreps_dst b.
Proof.
  split.
  - apply (proj1 (PoolingBlock_signature_check mlp_mid (pooling_args irreps_node irreps_sh))).
    discriminate.
  - destruct (proj1 (proj2 (PoolingBlock_signature_check mlp_mid
                               (pooling_args irreps_node irreps_node))) eq_refl)
      as [_ Hok].
    destruct Hok as [b Hb]; [reflexivity | reflexivity | reflexivity | discriminate |].
    exists b. split; [exact Hb|].
    apply (proj2 (proj2 (PoolingBlock_signature_check mlp_mid
                           (pooling_args irreps_node irreps_node))) b Hb).
Defined.

Lemma quarter_ne_one : 1 / 4 <> 1.
Proof. lra. Qed.

Lemma radius_schedule_witness :
  exists blk,
    DownBlock_init mlp_mid (down_args (1 / 4) (Some "fps"%string)) = Ok blk
    /\ length (radius_list blk) = 3%nat
    /\ nth_error (radius_list blk) 0 = Some 1
    /\ forall s : nat,
         (1 <= s < 3)%nat ->
         exists prev cur,
           nth_error (radius_list blk) (s - 1) = Some prev
           /\ nth_error (radius_list blk) s = Some cur
           /\ cur = prev / sqrt (1 / 4).
Proof.
  destruct (DownBlock_init_ok mlp_mid (down_args (1 / 4) (Some "fps"%string))) as [blk H].
  - simpl. lra.
  - right. split; [exact quarter_ne_one | reflexivity].
  - simpl. lia.
  - reflexivity.
  - reflexivity.
  - discriminate.
  - exists blk. split; [exact H|].
    apply (radius_schedule mlp_mid (down_args (1 / 4) (Some "fps"%string)) blk).
    + simpl. lra.
    + simpl. lra.
    + simpl. lia.
    + exact H.
Defined.

Lemma pool_ratio_one_check_witness :
  DownBlock_init mlp_mid (down_args 1 (Some "fps"%string)) = Raise AssertionError
  /\ DownBlock_check_pool 1 None = Ok tt
  /\ match DownBlock_init mlp_mid (down_args 1 None) with
     | Ok blk => forallb (fun l => negb (is_pooling l)) (layers blk) = true
     | Raise _ => True
     end.
Proof.
  split.
  - apply (pool_ratio_one_check mlp_mid (down_args 1 (Some "fps"%string)) eq_refl).
  - apply (pool_ratio_one_check mlp_mid (down_args 1 None) eq_refl).
Defined.

(** With [pool_ratio == 1] and no pooling method the example is
    constructed, so the second half of the check is not vacuous. *)
Lemma down_args_one_constructed :
  exists blk, DownBlock_init mlp_mid (down_args 1 None) = Ok blk
              /\ forallb (fun l => negb (is_pooling l)) (layers blk) = true.
Proof.
  destruct (DownBlock_init_ok mlp_mid (down_args 1 None)) as [blk H].
  - simpl. lra.
  - left. split; reflexivity.
  - simpl. lia.
  - reflexivity.
  - reflexivity.
  - discriminate.
  - exists blk. split; [exact H|].
    apply (DownBlock_init_no_pooling mlp_mid (down_args 1 None) blk eq_refl H).
Qed.

(** C2, on the code.  The extractor with cutoffs [1, 2] and offsets
    [0.1, 0.8] is constructed; the Radius Connect of each scale has the
    cutoff of the scale and no offset ([offset=None]); the offsets are given
    to the radial basis layers only.  The specification has the connect
    module of scale [n] built from [offsets[n]] as well. *)
Theorem pre_connect_offset_is_none :
  exists ex,
    EdfExtractor_init mlp_mid extractor_args = Ok ex
    /\ map rc_r (pre_connect ex) = [1; 2]
    /\ map rc_offset (pre_connect ex) = [None; None]
    /\ map rc_offset (pre_connect ex) <> map Some (ea_offsets extractor_args)
    /\ map rf_offset (pre_radial ex) = map Some (ea_offsets extractor_args).
Proof.
  eexists. split; [reflexivity|].
  split; [reflexivity|]. split; [reflexivity|]. split; [discriminate | reflexivity].
Qed.

(** ** block.py: further properties of construction *)

Section MoreConstruction.

Variable mlp_mid_of_int : Irreps -> Z -> Irreps.

(** *** What a constructor that returned has checked and stored *)

Lemma EquiformerBlock_init_inv (args : EquiformerBlockArgs) (b : EquiformerBlock) :
  EquiformerBlock_init mlp_mid_of_int args = Ok b ->
  (a_num_heads args * Irreps_dim (a_irreps_head args))%Z = Irreps_dim (a_irreps_dst args)
  /\ a_attn_type args = "mlp"%string
  /\ irreps_src b = a_irreps_src args /\ irreps_dst b = a_irreps_dst args
  /\ irreps_emb b = a_irreps_dst args
  /\ linear_src_bias b = a_src_bias args /\ linear_dst_bias b = a_dst_bias args.
Proof.
  unfold EquiformerBlock_init.
  destruct (Z.eqb_spec (a_num_heads args * Irreps_dim (a_irreps_head args))
                       (Irreps_dim (a_irreps_dst args))) as [Hd|Hd]; [|discriminate].
  cbn [assert rbind].
  destruct (String.eqb_spec (a_attn_type args) "mlp") as [Ha|Ha].
  - unfold str_eqb. rewrite Ha. cbn. intros H. injection H as <-. cbn. repeat split; assumption.
  - unfold str_eqb. rewrite (proj2 (String.eqb_neq _ _) Ha).
    destruct (String.eqb (a_attn_type args) "linear"); [discriminate|].
    destruct (String.eqb (a_attn_type args) "dp"); discriminate.
Qed.

(** [EquiformerBlock.__init__]: the head dimensions are checked first
    ([AssertionError]); then the attention type: ["mlp"] is built,
    ["linear"] and ["dp"] raise [NotImplementedError], every other string
    raises [ValueError]. *)
Theorem EquiformerBlock_init_outcome (args : EquiformerBlockArgs) :
  ((a_num_heads args * Irreps_dim (a_irreps_head args))%Z <> Irreps_dim (a_irreps_dst args) ->
   EquiformerBlock_init mlp_mid_of_int args = Raise AssertionError)
  /\ ((a_num_heads args * Irreps_dim (a_irreps_head args))%Z = Irreps_dim (a_irreps_dst args) ->
      (a_attn_type args = "mlp"%string ->
       exists b, EquiformerBlock_init mlp_mid_of_int args = Ok b)
      /\ (a_attn_type args = "linear"%string \/ a_attn_type args = "dp"%string ->
          EquiformerBlock_init mlp_mid_of_int args = Raise NotImplementedError)
      /\ (a_attn_type args <> "mlp"%string -> a_attn_type args <> "linear"%string ->
          a_attn_type args <> "dp"%string ->
          EquiformerBlock_init mlp_mid_of_int args = Raise ValueError)).
Proof.
  unfold EquiformerBlock_init, str_eqb. split.
  - intros Hd. rewrite (proj2 (Z.eqb_neq _ _) Hd). reflexivity.
  - intros Hd. rewrite (proj2 (Z.eqb_eq _ _) Hd). cbn [assert rbind]. split; [|split].
    + intros ->. cbn. eexists. reflexivity.
    + intros [-> | ->]; reflexivity.
    + intros H1 H2 H3.
      rewrite (proj2 (String.eqb_neq _ _) H1), (proj2 (String.eqb_neq _ _) H2),
        (proj2 (String.eqb_neq _ _) H3).
      reflexivity.
Qed.

Lemma build_list_inv {A : Type} (f : result A) (k : nat) (l : list A) :
  build_list f k = Ok l -> length l = k /\ Forall (fun x => f = Ok x) l.
Proof.
  revert l. induction k as [|k IH]; intros l H; simpl in H.
  - injection H as <-. split; [reflexivity | constructor].
  - destruct f as [x|e] eqn:Hf; [|discriminate]. cbn [rbind] in H.
    rbind_inv H as xs Hxs. injection H as <-.
    destruct (IH xs Hxs) as [Hl Hall]. split; [simpl; f_equal; exact Hl|].
    constructor; [reflexivity | exact Hall].
Qed.

(** [RadiusGraphBlock.__init__] raises [AssertionError] for an empty
    [fc_neurons] and for fewer than one layer.  A block that is constructed
    has exactly [n_layers] Equiformer blocks and as many radial basis
    layers, so that the [zip] of [forward] drops none; every block maps the
    signature [irreps] to itself, and every radial basis has the cutoff
    [0.99 * radius]. *)
Theorem RadiusGraphBlock_init_spec (args : RadiusGraphBlockArgs) :
  (ra_fc_neurons args = [] ->
   RadiusGraphBlock_init mlp_mid_of_int args = Raise AssertionError)
  /\ ((ra_n_layers args < 1)%Z ->
      RadiusGraphBlock_init mlp_mid_of_int args = Raise AssertionError)
  /\ forall b, RadiusGraphBlock_init mlp_mid_of_int args = Ok b ->
       (1 <= ra_n_layers args)%Z
       /\ rb_r b = ra_radius args
       /\ rb_n_layers b = ra_n_layers args
       /\ length (rb_blocks b) = Z.to_nat (ra_n_layers args)
       /\ length (rb_radials b) = Z.to_nat (ra_n_layers args)
       /\ Forall (fun blk => irreps_src blk = ra_irreps args
                             /\ irreps_dst blk = ra_irreps args) (rb_blocks b)
       /\ Forall (fun rf => rf_cutoff rf = ra_radius args * 0.99) (rb_radials b).
Proof.
  unfold RadiusGraphBlock_init. split; [|split].
  - intros ->. reflexivity.
  - intros Hn. destruct (ra_fc_neurons args); [reflexivity|].
    cbn [length Nat.leb assert rbind].
    rewrite (proj2 (Z.leb_gt _ _)) by lia. reflexivity.
  - intros b H.
    destruct (ra_fc_neurons args) as [|f fs]; [discriminate|].
    cbn [length Nat.leb assert rbind] in H.
    destruct (Z.leb_spec 1 (ra_n_layers args)) as [Hn|Hn]; [|discriminate].
    cbn [assert rbind] in H.
    rbind_inv H as blocks Hb. injection H as <-.
    cbn [rb_r rb_n_layers rb_blocks rb_radials].
    destruct (build_list_inv _ _ _ Hb) as [Hl Hall].
    split; [exact Hn|]. split; [reflexivity|]. split; [reflexivity|].
    split; [exact Hl|]. split; [apply repeat_length|]. split.
    + eapply Forall_impl; [|exact Hall]. intros blk Hblk.
      apply EquiformerBlock_init_inv in Hblk.
      destruct Hblk as (_ & _ & H1 & H2 & _). split; assumption.
    + apply Forall_forall. intros rf Hrf. apply repeat_spec in Hrf. subst rf. reflexivity.
Qed.

Lemma PoolingBlock_init_inv (args : PoolingBlockArgs) (b : PoolingBlock) :
  PoolingBlock_init mlp_mid_of_int args = Ok b ->
  pa_irreps_src args = pa_irreps_dst args
  /\ pa_pool_method args = Some "fps"%string
  /\ pa_fc_neurons args <> []
  /\ pb_pool_radius b = pa_pool_radius args
  /\ pb_pool_ratio b = pa_pool_ratio args
  /\ pb_pool_layer b = {| fps_ratio := pa_pool_ratio args;
                          fps_random_start := negb (pa_deterministic args);
                          fps_r := pa_pool_radius args;
                          fps_max_num_neighbors := 1000 |}
  /\ pb_radial_basis_fn b = {| rf_num_basis := hd 0%Z (pa_fc_neurons args);
                               rf_cutoff := pa_pool_radius args * 0.99;
                               rf_offset := None;
                               rf_soft_cutoff := None |}
  /\ irreps_src (pb_block b) = pa_irreps_src args
  /\ irreps_dst (pb_block b) = pa_irreps_dst args.
Proof.
  unfold PoolingBlock_init.
  destruct (Irreps_eqb (pa_irreps_src args) (pa_irreps_dst args)) eqn:E; [|discriminate].
  apply Irreps_eqb_eq in E. cbn [negb]. unfold PoolingBlock_init_body. intros H.
  rbind_inv H as blk Hblk.
  destruct (pa_pool_method args) as [m|]; [|discriminate]. cbn [rbind] in H.
  unfold str_eqb in H. destruct (String.eqb_spec m "fps") as [Em|Hm]; [|discriminate].
  rewrite Em.
  cbn [rbind] in H.
  destruct (pa_fc_neurons args) as [|f fs] eqn:Hfc; [discriminate|].
  cbn [length Nat.leb assert rbind] in H. injection H as <-.
  cbn [pb_pool_radius pb_pool_ratio pb_pool_layer pb_radial_basis_fn pb_block].
  apply EquiformerBlock_init_inv in Hblk. destruct Hblk as (_ & _ & H1 & H2 & _).
  repeat split; try assumption; try reflexivity. discriminate.
Qed.

(** A [PoolingBlock] is constructed with the method ["fps"] only: once the
    Equiformer block is built, any other method raises [ValueError].  The
    pooling layer of a constructed block samples with the ratio and radius
    given, starts at random exactly when [deterministic] is off, and the
    radial basis has the cutoff [0.99 * pool_radius]. *)
Theorem PoolingBlock_init_pooling (args : PoolingBlockArgs) :
  (forall m blk,
     pa_irreps_src args = pa_irreps_dst args ->
     EquiformerBlock_init mlp_mid_of_int
       {| a_irreps_src := pa_irreps_src args;
          a_irreps_dst := pa_irreps_dst args;
          a_irreps_edge_attr := pa_irreps_edge_attr args;
          a_irreps_head := pa_irreps_head args;
          a_num_heads := pa_num_heads args;
          a_fc_neurons := pa_fc_neurons args;
          a_irreps_mlp_mid := pa_irreps_mlp_mid args;
          a_attn_type := pa_attn_type args;
          a_alpha_drop := pa_alpha_drop args;
          a_proj_drop := pa_proj_drop args;
          a_drop_path_rate := pa_drop_path_rate args;
          a_src_bias := false;
          a_dst_bias := true |} = Ok blk ->
     pa_pool_method args = Some m -> m <> "fps"%string ->
     PoolingBlock_init mlp_mid_of_int args = Raise ValueError)
  /\ forall b, PoolingBlock_init mlp_mid_of_int args = Ok b ->
       pa_pool_method args = Some "fps"%string
       /\ fps_ratio (pb_pool_layer b) = pa_pool_ratio args
       /\ fps_r (pb_pool_layer b) = pa_pool_radius args
       /\ fps_random_start (pb_pool_layer b) = negb (pa_deterministic args)
       /\ rf_cutoff (pb_radial_basis_fn b) = pa_pool_radius args * 0.99.
Proof.
  split.
  - intros m blk Hirr Hblk Hm Hne. unfold PoolingBlock_init.
    rewrite (proj2 (Irreps_eqb_eq _ _) Hirr). cbn [negb].
    unfold PoolingBlock_init_body. rewrite Hblk, Hm. cbn [rbind].
    unfold str_eqb. rewrite (proj2 (String.eqb_neq _ _) Hne). reflexivity.
  - intros b H. apply PoolingBlock_init_inv in H.
    destruct H as (_ & Hm & _ & _ & _ & Hpl & Hrf & _).
    rewrite Hpl, Hrf. repeat split. exact Hm.
Qed.

(** *** DownBlock: rejected configurations and the empty hierarchy *)

(** [DownBlock.__init__] raises [AssertionError] when [pool_ratio] is not 1
    and no pooling method is set, and when fewer than one layer per scale is
    asked for; past these checks, a negative [pool_ratio] raises
    [ValueError] (the square root), and a [pool_ratio] of zero raises
    [ZeroDivisionError] as soon as there is a scale. *)
Theorem DownBlock_init_rejects (args : DownBlockArgs) :
  (da_pool_ratio args <> 1 -> da_pool_method args = None ->
   DownBlock_init mlp_mid_of_int args = Raise AssertionError)
  /\ (DownBlock_check_pool (da_pool_ratio args) (da_pool_method args) = Ok tt ->
      ((da_n_layers_per_scale args < 1)%Z ->
       DownBlock_init mlp_mid_of_int args = Raise AssertionError)
      /\ ((1 <= da_n_layers_per_scale args)%Z -> da_pool_ratio args < 0 ->
          DownBlock_init mlp_mid_of_int args = Raise ValueError)
      /\ ((1 <= da_n_layers_per_scale args)%Z -> da_pool_ratio args = 0 ->
          (1 <= da_n_scales args)%Z ->
          DownBlock_init mlp_mid_of_int args = Raise ZeroDivisionError)).
Proof.
  split.
  - intros Hp Hm. unfold DownBlock_init, DownBlock_check_pool.
    destruct (Req_dec_T (da_pool_ratio args) 1); [contradiction|].
    rewrite Hm. reflexivity.
  - intros Hc. unfold DownBlock_init. rewrite Hc. cbn [rbind]. split; [|split].
    + intros Hn. rewrite (proj2 (Z.leb_gt _ _)) by lia. reflexivity.
    + intros Hn Hp. rewrite (proj2 (Z.leb_le _ _) Hn). cbn [assert rbind].
      unfold math_sqrt. rewrite Rltb_true by exact Hp. reflexivity.
    + intros Hn Hp Hs. rewrite (proj2 (Z.leb_le _ _) Hn). cbn [assert rbind].
      rewrite math_sqrt_ok by lra. cbn [rbind].
      destruct (Z.to_nat (da_n_scales args)) as [|k] eqn:Hk; [lia|].
      cbn [DownBlock_scales]. unfold DownBlock_scale.
      rewrite math_sqrt_ok by lra. cbn [rbind].
      rewrite Hp, sqrt_0. rewrite (proj1 (fdiv_zero _)). reflexivity.
Qed.

(** With no scale ([n_scales <= 0]) a [DownBlock] is constructed as soon as
    the two checks pass and [pool_ratio] is not negative; it has no layer
    and an empty radius list. *)
Theorem DownBlock_init_no_scale (args : DownBlockArgs) :
  (da_n_scales args <= 0)%Z ->
  DownBlock_check_pool (da_pool_ratio args) (da_pool_method args) = Ok tt ->
  (1 <= da_n_layers_per_scale args)%Z ->
  0 <= da_pool_ratio args ->
  exists blk, DownBlock_init mlp_mid_of_int args = Ok blk
              /\ layers blk = [] /\ radius_list blk = [].
Proof.
  intros Hs Hc Hn Hp. unfold DownBlock_init. rewrite Hc. cbn [rbind].
  rewrite (proj2 (Z.leb_le _ _) Hn). cbn [assert rbind].
  rewrite math_sqrt_ok by exact Hp. cbn [rbind].
  replace (Z.to_nat (da_n_scales args)) with 0%nat by lia.
  cbn [DownBlock_scales rbind]. eexists. repeat split.
Qed.

(** *** DownBlock: the layers of a constructed block *)

Lemma RadiusGraphBlock_init_inv (args : RadiusGraphBlockArgs) (b : RadiusGraphBlock) :
  RadiusGraphBlock_init mlp_mid_of_int args = Ok b ->
  rb_r b = ra_radius args /\ rb_n_layers b = ra_n_layers args
  /\ length (rb_blocks b) = Z.to_nat (ra_n_layers args).
Proof.
  intros H. unfold RadiusGraphBlock_init in H.
  destruct (ra_fc_neurons args) as [|f fs]; [discriminate|].
  cbn [length Nat.leb assert rbind] in H.
  destruct (Z.leb_spec 1 (ra_n_layers args)) as [Hn|Hn]; [|discriminate].
  cbn [assert rbind] in H.
  rbind_inv H as blocks Hb. injection H as <-.
  destruct (build_list_inv _ _ _ Hb) as [Hl _].
  repeat split. exact Hl.
Qed.

Lemma DownBlock_scale_group (args : DownBlockArgs) (ls ls' : list Layer)
    (rl rl' : list R) (r r' : R) :
  DownBlock_scale mlp_mid_of_int args (ls, rl, r) = Ok (ls', rl', r') ->
  exists grp, ls' = ls ++ grp /\ rl' = rl ++ [r'] /\ scale_group args r' grp.
Proof.
  intros H. unfold DownBlock_scale in H.
  rbind_inv H as sq _.
  rbind_inv H as radius _.
  rbind_inv H as l1 Hl1.
  rbind_inv H as l2 Hl2.
  injection H as <- <- <-.
  assert (Hpool : exists pool, l1 = ls ++ pool
            /\ match da_pool_method args with
               | Some _ => exists b, pool = [LPooling b] /\ pb_pool_radius b = radius
                                     /\ pb_pool_ratio b = da_pool_ratio args
               | None => pool = []
               end).
  { destruct (da_pool_method args) as [m|].
    - rbind_inv Hl1 as b Hb. injection Hl1 as <-.
      apply PoolingBlock_init_inv in Hb. destruct Hb as (_ & _ & _ & H1 & H2 & _).
      exists [LPooling b]. split; [reflexivity|]. exists b. repeat split; assumption.
    - injection Hl1 as <-. exists []. split; [rewrite app_nil_r; reflexivity | reflexivity]. }
  destruct Hpool as (pool & -> & Hpool).
  set (k := (da_n_layers_per_scale args
             - (if is_none (da_pool_method args) then 0 else 1))%Z) in *.
  assert (Hrg : exists rg, l2 = (ls ++ pool) ++ rg
            /\ if (1 <=? k)%Z
               then exists g, rg = [LRadiusGraph g] /\ rb_r g = radius /\ rb_n_layers g = k
                              /\ length (rb_blocks g) = Z.to_nat k
               else rg = []).
  { destruct (1 <=? k)%Z.
    - rbind_inv Hl2 as g Hg. injection Hl2 as <-.
      apply RadiusGraphBlock_init_inv in Hg. destruct Hg as (H1 & H2 & H3).
      exists [LRadiusGraph g]. split; [reflexivity|]. exists g. repeat split; assumption.
    - injection Hl2 as <-. exists []. split; [rewrite app_nil_r; reflexivity | reflexivity]. }
  destruct Hrg as (rg & -> & Hrg).
  exists (pool ++ rg). split; [rewrite app_assoc; reflexivity|]. split; [reflexivity|].
  exists pool, rg. split; [reflexivity|]. split; [exact Hpool | exact Hrg].
Qed.

Lemma DownBlock_scales_groups (args : DownBlockArgs) (k : nat) :
  forall (ls ls' : list Layer) (rl rl' : list R) (r r' : R),
    DownBlock_scales mlp_mid_of_int args k (ls, rl, r) = Ok (ls', rl', r') ->
    exists (groups : list (list Layer)) (radii : list R),
      ls' = ls ++ concat groups /\ rl' = rl ++ radii
      /\ length radii = k
      /\ Forall2 (scale_group args) radii groups.
Proof.
  induction k as [|k IH]; intros ls ls' rl rl' r r' H.
  - simpl in H. injection H as <- <- <-. exists [], [].
    rewrite !app_nil_r. repeat split. constructor.
  - cbn [DownBlock_scales] in H.
    rbind_inv H as [[l1 rl1] r1] H1.
    destruct (DownBlock_scale_group args ls l1 rl rl1 r r1 H1) as (grp & -> & -> & Hg).
    destruct (IH _ _ _ _ _ _ H) as (groups & radii & -> & -> & Hl & Hall).
    exists (grp :: groups), (r1 :: radii). simpl.
    rewrite <- !app_assoc. simpl.
    repeat split; [f_equal; exact Hl | constructor; assumption].
Qed.

(** The layers of a constructed [DownBlock] are grouped by scale: the scale
    of radius [radius_list[s]] adds a [PoolingBlock] of that pool radius when
    a pooling method is set, followed by one [RadiusGraphBlock] of that
    radius holding the remaining layers when at least one is left, and
    nothing else. *)
Theorem DownBlock_layers_by_scale (args : DownBlockArgs) (blk : DownBlock) :
  DownBlock_init mlp_mid_of_int args = Ok blk ->
  exists groups : list (list Layer),
    layers blk = concat groups
    /\ length groups = Z.to_nat (da_n_scales args)
    /\ Forall2 (scale_group args) (radius_list blk) groups.
Proof.
  intros H. unfold DownBlock_init in H.
  rbind_inv H as u1 _.
  rbind_inv H as u2 _.
  rbind_inv H as sq _.
  rbind_inv H as [[ls rl] r'] Hloop.
  injection H as <-. cbn [layers radius_list].
  destruct (DownBlock_scales_groups args _ _ _ _ _ _ _ Hloop)
    as (groups & radii & -> & -> & Hl & Hall).
  exists groups. simpl. split; [reflexivity|]. split; [|exact Hall].
  rewrite <- (Forall2_length Hall). exact Hl.
Qed.

(** *** DownBlock: the radius in closed form *)

Lemma radius_chain_closed (q r : R) (l : list R) :
  q <> 0 -> radius_chain q r l ->
  forall s, (s < length l)%nat -> exists x, nth_error l s = Some x /\ x = r / q ^ S s.
Proof.
  intros Hq. revert r. induction l as [|y l IH]; intros r Hc s Hs; simpl in Hs; [lia|].
  destruct Hc as [Hy Hc]. destruct s as [|s].
  - exists y. split; [reflexivity|]. rewrite Hy. simpl. field. exact Hq.
  - destruct (IH y Hc s) as (x & Hx & Ex); [lia|].
    exists x. split; [exact Hx|]. rewrite Ex, Hy. simpl. field.
    split; [apply pow_nonzero|]; exact Hq.
Qed.

(** The radius of scale [s] of a constructed [DownBlock] is
    [init_radius / sqrt(pool_ratio)^s]; for a positive [init_radius] and
    [pool_ratio <= 1] every radius is positive and no radius is smaller than
    the one before it. *)
Theorem radius_closed_form (args : DownBlockArgs) (blk : DownBlock) :
  0 < da_pool_ratio args ->
  DownBlock_init mlp_mid_of_int args = Ok blk ->
  forall s, (s < Z.to_nat (da_n_scales args))%nat ->
    exists x, nth_error (radius_list blk) s = Some x
              /\ x = da_init_radius args / sqrt (da_pool_ratio args) ^ s
              /\ (0 < da_init_radius args -> da_pool_ratio args <= 1 ->
                  0 < x
                  /\ forall y, nth_error (radius_list blk) (S s) = Some y -> x <= y).
Proof.
  intros Hp H s Hs. unfold DownBlock_init in H.
  rbind_inv H as u1 _.
  rbind_inv H as u2 _.
  rewrite math_sqrt_ok in H by lra. cbn [rbind] in H.
  rbind_inv H as [[ls rl] r'] Hloop.
  injection H as <-. cbn [radius_list].
  set (q := sqrt (da_pool_ratio args)) in *.
  assert (Hq : 0 < q) by (apply sqrt_lt_R0; exact Hp).
  destruct (DownBlock_scales_radius mlp_mid_of_int args _ [] ls [] rl
              (da_init_radius args * q) (da_init_radius args * q) r' Hloop Hp I eq_refl)
    as [Hc Hl].
  simpl in Hl. fold q in Hc.
  assert (Hq0 : q <> 0) by lra.
  destruct (radius_chain_closed q _ rl Hq0 Hc s) as (x & Hx & Ex); [lia|].
  assert (Ex' : x = da_init_radius args / q ^ s).
  { rewrite Ex. simpl. field. split; [apply pow_nonzero|]; exact Hq0. }
  exists x. split; [exact Hx|]. split; [exact Ex'|].
  intros Hr Hp1.
  assert (Hqs : 0 < q ^ s) by (apply pow_lt; exact Hq).
  assert (Hx0 : 0 < x) by (rewrite Ex'; apply Rdiv_lt_0_compat; assumption).
  split; [exact Hx0|].
  intros y Hy.
  assert (HSs : (S s < length rl)%nat) by (apply nth_error_Some; rewrite Hy; discriminate).
  destruct (radius_chain_nth q _ rl s Hc HSs) as (prev & cur & H1 & H2 & E).
  rewrite Hx in H1. injection H1 as <-. rewrite Hy in H2. injection H2 as <-.
  assert (Hq1 : q <= 1).
  { unfold q. rewrite <- sqrt_1. apply sqrt_le_1_alt. exact Hp1. }
  rewrite E. apply (Rmult_le_reg_r q); [exact Hq|].
  unfold Rdiv. rewrite Rmult_assoc, Rinv_l by exact Hq0. nra.
Qed.

(** *** EdfExtractor: rejected configurations and the lists of modules *)

Lemma EdfExtractor_scale_inv (args : EdfExtractorArgs) (n : nat)
    (pc pc' : list RadiusConnect) (pr pr' : list GaussianRadialBasisLayerFiniteCutoff)
    (pl pl' : list EquiformerBlock) :
  EdfExtractor_scale mlp_mid_of_int args n (pc, pr, pl) = Ok (pc', pr', pl') ->
  exists x y b fc fc0 irr,
    pc' = pc ++ [x] /\ pr' = pr ++ [y] /\ pl' = pl ++ [b]
    /\ nth_error (ea_fc_neurons_inputs args) n = Some fc /\ nth_error fc 0 = Some fc0
    /\ rf_num_basis y = fc0 /\ rf_soft_cutoff y = Some true
    /\ nth_error (ea_irreps_inputs args) n = Some irr
    /\ irreps_src b = irr /\ irreps_dst b = ea_irreps_emb args /\ fc_neurons b = fc.
Proof.
  intros H. unfold EdfExtractor_scale in H.
  rbind_inv H as c _.
  rbind_inv H as fc Hfc. apply getitem_ok in Hfc.
  rbind_inv H as fc0 Hfc0. apply getitem_ok in Hfc0.
  rbind_inv H as c' _.
  rbind_inv H as o _.
  rbind_inv H as irr Hirr. apply getitem_ok in Hirr.
  rbind_inv H as b Hb.
  injection H as <- <- <-.
  assert (Hfcb : fc_neurons b = fc).
  { unfold EquiformerBlock_init in Hb.
    rbind_inv Hb as v1 _. rbind_inv Hb as v2 _. rbind_inv Hb as v3 _.
    injection Hb as <-. reflexivity. }
  apply EquiformerBlock_init_inv in Hb. destruct Hb as (_ & _ & H1 & H2 & _).
  eexists _, _, b, fc, fc0, irr.
  repeat split; try eassumption; reflexivity.
Qed.

Lemma EdfExtractor_scales_inv (args : EdfExtractorArgs) (len : nat) :
  forall (start : nat) (pc pc' : list RadiusConnect)
         (pr pr' : list GaussianRadialBasisLayerFiniteCutoff)
         (pl pl' : list EquiformerBlock),
    EdfExtractor_scales mlp_mid_of_int args (seq start len) (pc, pr, pl) = Ok (pc', pr', pl') ->
    length pc = start -> length pr = start -> length pl = start ->
    (forall i, (i < start)%nat -> layer_built args pr pl i) ->
    length pc' = (start + len)%nat /\ length pr' = (start + len)%nat
    /\ length pl' = (start + len)%nat
    /\ forall i, (i < start + len)%nat -> layer_built args pr' pl' i.
Proof.
  induction len as [|len IH]; intros start pc pc' pr pr' pl pl' H Lc Lr Ll Hb.
  - simpl in H. injection H as <- <- <-. rewrite Nat.add_0_r. repeat split; assumption.
  - cbn [seq EdfExtractor_scales] in H.
    rbind_inv H as [[pc1 pr1] pl1] H1.
    destruct (EdfExtractor_scale_inv args start pc pc1 pr pr1 pl pl1 H1)
      as (x & y & b & fc & fc0 & irr & -> & -> & -> & F1 & F2 & F3 & F4 & F5 & F6 & F7 & F8).
    destruct (IH (S start) _ pc' _ pr' _ pl' H) as (A & B & C & D).
    + rewrite length_app. simpl. lia.
    + rewrite length_app. simpl. lia.
    + rewrite length_app. simpl. lia.
    + intros i Hi. destruct (Nat.eq_dec i start) as [->|Hne].
      * exists y, b, fc, fc0, irr.
        rewrite !nth_error_app2 by lia. rewrite Lr, Ll, Nat.sub_diag.
        repeat split; assumption.
      * destruct (Hb i) as (y' & b' & fc' & fc0' & irr' & G1 & G2 & G); [lia|].
        exists y', b', fc', fc0', irr'.
        rewrite !nth_error_app1 by lia. split; [exact G1|]. split; [exact G2 | exact G].
    + replace (start + S len)%nat with (S start + len)%nat by lia.
      repeat split; assumption.
Qed.

(** [EdfExtractor.__init__] raises [AssertionError] when the lists of
    offsets, cutoffs, [fc_neurons_inputs] and input signatures differ in
    length, and when fewer than one layer is asked for.  A constructed
    extractor has one connect module, one radial basis and one Equiformer
    block per input scale, so that the [zip] of [forward] drops none; the
    block of scale [n] maps the input signature of that scale to the
    embedding signature, and the radial basis has [fc_neurons_inputs[n][0]]
    channels and the soft cutoff enabled. *)
Theorem EdfExtractor_init_spec (args : EdfExtractorArgs) :
  (length (ea_offsets args) <> length (ea_cutoffs args)
   \/ length (ea_cutoffs args) <> length (ea_fc_neurons_inputs args)
   \/ length (ea_fc_neurons_inputs args) <> length (ea_irreps_inputs args)
   \/ (ea_n_layers args < 1)%Z ->
   EdfExtractor_init mlp_mid_of_int args = Raise AssertionError)
  /\ forall ex, EdfExtractor_init mlp_mid_of_int args = Ok ex ->
       ex_n_scales ex = length (ea_irreps_inputs args)
       /\ length (pre_connect ex) = ex_n_scales ex
       /\ length (pre_radial ex) = ex_n_scales ex
       /\ length (pre_layers ex) = ex_n_scales ex
       /\ forall n, (n < ex_n_scales ex)%nat ->
            layer_built args (pre_radial ex) (pre_layers ex) n.
Proof.
  unfold EdfExtractor_init. split.
  - intros H.
    destruct (Nat.eqb_spec (length (ea_offsets args)) (length (ea_cutoffs args))) as [E1|E1];
      [|reflexivity].
    destruct (Nat.eqb_spec (length (ea_cutoffs args)) (length (ea_fc_neurons_inputs args)))
      as [E2|E2]; [|reflexivity].
    destruct (Nat.eqb_spec (length (ea_fc_neurons_inputs args)) (length (ea_irreps_inputs args)))
      as [E3|E3]; [|reflexivity].
    cbn [andb assert rbind].
    destruct H as [H|[H|[H|H]]]; try contradiction.
    rewrite (proj2 (Z.leb_gt _ _)) by lia. reflexivity.
  - intros ex H.
    rbind_inv H as u1 _.
    rbind_inv H as u2 _.
    rbind_inv H as [[pc pr] pl] Hloop.
    injection H as <-. cbn [ex_n_scales pre_connect pre_radial pre_layers].
    destruct (EdfExtractor_scales_inv args _ 0 [] pc [] pr [] pl Hloop eq_refl eq_refl eq_refl)
      as (A & B & C & D); [intros i Hi; lia|].
    simpl in A, B, C, D. repeat split; assumption.
Qed.

End MoreConstruction.

(** *** The further properties on concrete configurations *)

Lemma EquiformerBlock_init_outcome_witness :
  EquiformerBlock_init mlp_mid (equiformer_args 3 "mlp") = Raise AssertionError
  /\ (exists b, EquiformerBlock_init mlp_mid (equiformer_args 4 "mlp") = Ok b)
  /\ EquiformerBlock_init mlp_mid (equiformer_args 4 "dp") = Raise NotImplementedError
  /\ EquiformerBlock_init mlp_mid (equiformer_args 4 "softmax") = Raise ValueError.
Proof.
  split; [|split; [|split]].
  - apply (proj1 (EquiformerBlock_init_outcome mlp_mid (equiformer_args 3 "mlp"))).
    discriminate.
  - apply (proj1 (proj2 (EquiformerBlock_init_outcome mlp_mid (equiformer_args 4 "mlp"))
                    eq_refl)).
    reflexivity.
  - apply (proj1 (proj2 (proj2 (EquiformerBlock_init_outcome mlp_mid (equiformer_args 4 "dp"))
                           eq_refl))).
    right. reflexivity.
  - apply (proj2 (proj2 (proj2 (EquiformerBlock_init_outcome mlp_mid
                                  (equiformer_args 4 "softmax")) eq_refl)));
      discriminate.
Defined.

Lemma RadiusGraphBlock_init_spec_witness :
  RadiusGraphBlock_init mlp_mid (radius_graph_args [] 2) = Raise AssertionError
  /\ RadiusGraphBlock_init mlp_mid (radius_graph_args [16%Z] 0) = Raise AssertionError
  /\ exists b, RadiusGraphBlock_init mlp_mid (radius_graph_args [16%Z] 3) = Ok b
               /\ length (rb_blocks b) = 3%nat /\ length (rb_radials b) = 3%nat
               /\ Forall (fun rf => rf_cutoff rf = 2 * 0.99) (rb_radials b).
Proof.
  split; [|split].
  - apply (proj1 (RadiusGraphBlock_init_spec mlp_mid (radius_graph_args [] 2))). reflexivity.
  - apply (proj1 (proj2 (RadiusGraphBlock_init_spec mlp_mid (radius_graph_args [16%Z] 0)))).
    simpl. lia.
  - destruct (RadiusGraphBlock_init_ok mlp_mid (radius_graph_args [16%Z] 3)) as [b H];
      [reflexivity | reflexivity | discriminate | simpl; lia |].
    exists b. split; [exact H|].
    destruct (proj2 (proj2 (RadiusGraphBlock_init_spec mlp_mid (radius_graph_args [16%Z] 3)))
                b H) as (_ & _ & _ & H1 & H2 & _ & H3).
    split; [exact H1|]. split; [exact H2 | exact H3].
Defined.

Lemma PoolingBlock_init_pooling_witness :
  PoolingBlock_init mlp_mid (pooling_args_with "knn" true) = Raise ValueError
  /\ exists b, PoolingBlock_init mlp_mid (pooling_args_with "fps" true) = Ok b
               /\ fps_random_start (pb_pool_layer b) = false
               /\ rf_cutoff (pb_radial_basis_fn b) = 1 * 0.99.
Proof.
  split.
  - destruct (EquiformerBlock_init_ok mlp_mid (equiformer_args 4 "mlp")) as (blk & Hblk & _);
      [reflexivity | reflexivity |].
    apply (proj1 (PoolingBlock_init_pooling mlp_mid (pooling_args_with "knn" true))
             "knn"%string blk eq_refl Hblk eq_refl).
    discriminate.
  - destruct (PoolingBlock_init_body_ok mlp_mid (pooling_args_with "fps" true))
      as (b & Hb & _); [reflexivity | reflexivity | reflexivity | discriminate |].
    assert (H : PoolingBlock_init mlp_mid (pooling_args_with "fps" true) = Ok b) by exact Hb.
    exists b. split; [exact H|].
    destruct (proj2 (PoolingBlock_init_pooling mlp_mid (pooling_args_with "fps" true)) b H)
      as (_ & _ & _ & H1 & H2).
    split; [exact H1 | exact H2].
Defined.

Lemma half_ne_one : 1 / 2 <> 1.
Proof. lra. Qed.

Lemma DownBlock_init_rejects_witness :
  DownBlock_init mlp_mid (down_args_with (1 / 2) None 2 2) = Raise AssertionError
  /\ DownBlock_init mlp_mid (down_args_with 1 None 2 0) = Raise AssertionError
  /\ DownBlock_init mlp_mid (down_args_with (-1) (Some "fps"%string) 2 2) = Raise ValueError
  /\ DownBlock_init mlp_mid (down_args_with 0 (Some "fps"%string) 2 2) = Raise ZeroDivisionError.
Proof.
  assert (C1 : DownBlock_check_pool 1 None = Ok tt)
    by (rewrite DownBlock_check_pool_one by reflexivity; reflexivity).
  assert (C2 : forall p, p <> 1 -> DownBlock_check_pool p (Some "fps"%string) = Ok tt).
  { intros p Hp. unfold DownBlock_check_pool.
    destruct (Req_dec_T p 1); [contradiction | reflexivity]. }
  split; [|split; [|split]].
  - apply (proj1 (DownBlock_init_rejects mlp_mid (down_args_with (1 / 2) None 2 2)));
      [exact half_ne_one | reflexivity].
  - apply (proj1 (proj2 (DownBlock_init_rejects mlp_mid (down_args_with 1 None 2 0)) C1)).
    simpl. lia.
  - apply (proj1 (proj2 (proj2 (DownBlock_init_rejects mlp_mid
                                  (down_args_with (-1) (Some "fps"%string) 2 2))
                           (C2 (-1) ltac:(lra))))).
    + simpl. lia.
    + simpl. lra.
  - apply (proj2 (proj2 (proj2 (DownBlock_init_rejects mlp_mid
                                  (down_args_with 0 (Some "fps"%string) 2 2))
                           (C2 0 ltac:(lra))))).
    + simpl. lia.
    + reflexivity.
    + simpl. lia.
Defined.

Lemma DownBlock_init_no_scale_witness :
  exists blk, DownBlock_init mlp_mid (down_args_with 1 None 0 1) = Ok blk
              /\ layers blk = [] /\ radius_list blk = [].
Proof.
  apply (DownBlock_init_no_scale mlp_mid (down_args_with 1 None 0 1)).
  - simpl. lia.
  - rewrite DownBlock_check_pool_one by reflexivity. reflexivity.
  - simpl. lia.
  - simpl. lra.
Defined.

Lemma down_args_quarter_constructed :
  exists blk, DownBlock_init mlp_mid (down_args (1 / 4) (Some "fps"%string)) = Ok blk.
Proof.
  apply DownBlock_init_ok.
  - simpl. lra.
  - right. split; [exact quarter_ne_one | reflexivity].
  - simpl. lia.
  - reflexivity.
  - reflexivity.
  - discriminate.
Qed.

Lemma DownBlock_layers_by_scale_witness :
  exists blk groups,
    DownBlock_init mlp_mid (down_args (1 / 4) (Some "fps"%string)) = Ok blk
    /\ layers blk = concat groups
    /\ length groups = 3%nat
    /\ Forall2 (scale_group (down_args (1 / 4) (Some "fps"%string))) (radius_list blk) groups.
Proof.
  destruct down_args_quarter_constructed as [blk H].
  destruct (DownBlock_layers_by_scale mlp_mid (down_args (1 / 4) (Some "fps"%string)) blk H)
    as (groups & H1 & H2 & H3).
  exists blk, groups. repeat split; assumption.
Defined.

Lemma radius_closed_form_witness :
  exists blk x,
    DownBlock_init mlp_mid (down_args (1 / 4) (Some "fps"%string)) = Ok blk
    /\ nth_error (radius_list blk) 2 = Some x
    /\ x = 1 / sqrt (1 / 4) ^ 2
    /\ 0 < x.
Proof.
  destruct down_args_quarter_constructed as [blk H].
  destruct (radius_closed_form mlp_mid (down_args (1 / 4) (Some "fps"%string)) blk
              ltac:(simpl; lra) H 2%nat ltac:(simpl; lia)) as (x & H1 & H2 & H3).
  exists blk, x. split; [exact H|]. split; [exact H1|]. split; [exact H2|].
  apply H3; simpl; lra.
Defined.

Lemma EdfExtractor_init_spec_witness :
  EdfExtractor_init mlp_mid extractor_args_long_offsets = Raise AssertionError
  /\ exists ex, EdfExtractor_init mlp_mid extractor_args = Ok ex
                /\ length (pre_connect ex) = 2%nat
                /\ length (pre_radial ex) = 2%nat
                /\ length (pre_layers ex) = 2%nat.
Proof.
  split.
  - apply (proj1 (EdfExtractor_init_spec mlp_mid extractor_args_long_offsets)).
    left. discriminate.
  - assert (H : exists ex, EdfExtractor_init mlp_mid extractor_args = Ok ex)
      by (eexists; reflexivity).
    destruct H as [ex H]. exists ex. split; [exact H|].
    destruct (proj2 (EdfExtractor_init_spec mlp_mid extractor_args) ex H)
      as (E & A & B & C & _).
    rewrite E in A, B, C. repeat split; assumption.
Defined.

End InitFacts.

(** ** block.py: forward passes *)

Module ForwardFacts.
Import Forward.

(** *** EquiformerBlock: the per-edge message *)

(** The message of the code does not depend on what the two layer norms
    return: where they are defined, the message is the sum of the
    projections of the raw inputs. *)
Lemma message_ignores_norm (self : EquiformerBlock)
    (node_input_src node_input_dst : Tensor) (edge_src edge_dst : Index) :
  norm_1_src self node_input_src <> None ->
  norm_1_dst self node_input_dst <> None ->
  EquiformerBlock_message self node_input_src node_input_dst edge_src edge_dst
  = (message_src <- linear_src self node_input_src ;;
     message_dst <- linear_dst self node_input_dst ;;
     gs <- index message_src edge_src ;;
     gd <- index message_dst edge_dst ;;
     tadd gs gd).
Proof.
  intros Hs Hd. unfold EquiformerBlock_message.
  destruct (norm_1_src self node_input_src); [|contradiction].
  destruct (norm_1_dst self node_input_dst); [|contradiction].
  cbn [obind]. destruct (linear_src self node_input_src); reflexivity.
Qed.

(** C1, on the code.  On a block for features with one scalar channel, a
    source feature [2], a destination feature [3] and one edge, the message
    of [forward] is the sum of the raw features, whereas the projections of
    the normalized features, which the specification describes, add up to
    zero. *)
Theorem message_projects_raw_inputs :
  EquiformerBlock_message Examples.scalar_block [[2]] [[3]] [0%nat] [0%nat] = Some [[2 + 3]]
  /\ message_of_normalized Examples.scalar_block [[2]] [[3]] [0%nat] [0%nat] = Some [[0 + 0]]
  /\ EquiformerBlock_message Examples.scalar_block [[2]] [[3]] [0%nat] [0%nat]
     <> message_of_normalized Examples.scalar_block [[2]] [[3]] [0%nat] [0%nat].
Proof.
  assert (H1 : EquiformerBlock_message Examples.scalar_block [[2]] [[3]] [0%nat] [0%nat]
               = Some [[2 + 3]]) by reflexivity.
  assert (H2 : message_of_normalized Examples.scalar_block [[2]] [[3]] [0%nat] [0%nat]
               = Some [[0 + 0]]) by reflexivity.
  split; [exact H1|]. split; [exact H2|].
  rewrite H1, H2. intros H. injection H as H. lra.
Qed.

(** *** EdfExtractor: the sum over scales *)

Lemma vzip_entry (f : R -> R -> R) (u v w : list R) (j : nat) :
  f 0 0 = 0 -> vzip f u v = Some w -> nth j w 0 = f (nth j u 0) (nth j v 0).
Proof.
  intros Hf. revert v w j. induction u as [|x u IH]; intros [|y v] w j H; simpl in H;
    try discriminate.
  - injection H as <-. destruct j; simpl; symmetry; exact Hf.
  - obind_inv H as r Hr. injection H as <-.
    destruct j as [|j]; simpl; [reflexivity|]. apply IH. exact Hr.
Qed.

Lemma tzip_entry (f : R -> R -> R) (s t u : Tensor) (i j : nat) :
  f 0 0 = 0 -> tzip f s t = Some u -> entry u i j = f (entry s i j) (entry t i j).
Proof.
  intros Hf. unfold entry. revert t u i. induction s as [|a s IH]; intros [|b t] u i H;
    simpl in H; try discriminate.
  - injection H as <-. destruct i; destruct j; simpl; symmetry; exact Hf.
  - obind_inv H as r Hr.
    obind_inv H as rs Hrs. injection H as <-.
    destruct i as [|i]; simpl.
    + apply (vzip_entry f a b r j Hf Hr).
    + apply IH. exact Hrs.
Qed.

Lemma tadd_entry (s t u : Tensor) (i j : nat) :
  tadd s t = Some u -> entry u i j = entry s i j + entry t i j.
Proof. apply tzip_entry. ring. Qed.

Lemma zeros_entry (n d i j : nat) : entry (zeros n d) i j = 0.
Proof.
  unfold entry, zeros.
  destruct (Nat.lt_ge_cases i n) as [Hi|Hi].
  - rewrite nth_repeat_lt by exact Hi.
    destruct (Nat.lt_ge_cases j d) as [Hj|Hj].
    + rewrite nth_repeat_lt by exact Hj. reflexivity.
    + rewrite nth_overflow by (rewrite repeat_length; exact Hj). reflexivity.
  - rewrite (nth_overflow (repeat (repeat 0 d) n)) by (rewrite repeat_length; exact Hi).
    destruct j; reflexivity.
Qed.

Lemma tsum_entry (cs : list Tensor) :
  forall (acc s : Tensor) (i j : nat),
    tsum acc cs = Some s ->
    entry s i j = entry acc i j + fold_right Rplus 0 (map (fun c => entry c i j) cs).
Proof.
  induction cs as [|c cs IH]; intros acc s i j H; simpl in H.
  - injection H as <-. simpl. ring.
  - obind_inv H as acc' Ha.
    rewrite (IH acc' s i j H), (tadd_entry acc c acc' i j Ha). simpl. ring.
Qed.

(** The loop with its accumulator computes the outputs of the scales and
    adds them to the accumulator. *)
Lemma EdfExtractor_loop_sum (self : EdfExtractor)
    (query_coord : Tensor) (query_batch : Batch)
    (node_features node_coords : list Tensor) (node_batches : list Batch)
    (ms : list (nat * ScaleModules)) :
  forall acc : Tensor,
    EdfExtractor_loop self query_coord query_batch node_features node_coords node_batches ms acc
    = (cs <- mapM (fun nm => EdfExtractor_scale_output self query_coord query_batch
                               node_features node_coords node_batches (fst nm) (snd nm)) ms ;;
       tsum acc cs).
Proof.
  induction ms as [|[n m] ms IH]; intros acc; [reflexivity|].
  cbn [EdfExtractor_loop mapM fst snd].
  destruct (EdfExtractor_scale_output self query_coord query_batch
              node_features node_coords node_batches n m) as [out|]; [|reflexivity].
  cbn [obind].
  destruct (mapM _ ms) as [cs|] eqn:E.
  - cbn [obind tsum]. destruct (tadd acc out) as [acc'|]; [|reflexivity].
    cbn [obind]. rewrite IH. reflexivity.
  - cbn [obind]. destruct (tadd acc out) as [acc'|]; [|reflexivity].
    cbn [obind]. rewrite IH. reflexivity.
Qed.

(** The output of a scale reads the inputs of that scale only. *)
Lemma EdfExtractor_scale_output_local (self : EdfExtractor)
    (query_coord : Tensor) (query_batch : Batch)
    (node_features node_features' node_coords node_coords' : list Tensor)
    (node_batches node_batches' : list Batch) (n : nat) (m : ScaleModules) :
  nth_error node_features n = nth_error node_features' n ->
  nth_error node_coords n = nth_error node_coords' n ->
  nth_error node_batches n = nth_error node_batches' n ->
  EdfExtractor_scale_output self query_coord query_batch node_features node_coords node_batches n m
  = EdfExtractor_scale_output self query_coord query_batch node_features' node_coords' node_batches' n m.
Proof.
  intros Hf Hc Hb. unfold EdfExtractor_scale_output. destruct m as [[connect radial] layers].
  rewrite Hf, Hc, Hb. reflexivity.
Qed.

Lemma mapM_nth {A B : Type} (f : A -> option B) (l : list A) :
  forall (bs : list B) (k : nat) (b : B),
    mapM f l = Some bs -> nth_error bs k = Some b ->
    exists x, nth_error l k = Some x /\ f x = Some b.
Proof.
  induction l as [|x l IH]; intros bs k b H Hk; simpl in H.
  - injection H as <-. destruct k; discriminate.
  - obind_inv H as b0 Hb0.
    obind_inv H as bs0 Hbs0. injection H as <-.
    destruct k as [|k]; simpl in Hk.
    + injection Hk as <-. exists x. split; [reflexivity | exact Hb0].
    + apply (IH bs0 k b Hbs0 Hk).
Qed.

Lemma enumerate_nth {A : Type} (l : list A) :
  forall (start k : nat) (n : nat) (x : A),
    nth_error (enumerate start l) k = Some (n, x) ->
    n = (start + k)%nat /\ nth_error l k = Some x.
Proof.
  induction l as [|y l IH]; intros start k n x H; simpl in H.
  - destruct k; discriminate.
  - destruct k as [|k]; simpl in H.
    + injection H as <- <-. split; [lia | reflexivity].
    + destruct (IH (S start) k n x H) as [-> Hx]. split; [lia | exact Hx].
Qed.

(** The output of a scale is the output of its Equiformer block, run on the
    node features of that scale and on destination features that are zero. *)
Lemma EdfExtractor_scale_output_zero_dst (self : EdfExtractor)
    (query_coord : Tensor) (query_batch : Batch)
    (node_features node_coords : list Tensor) (node_batches : list Batch)
    (n : nat) (m : ScaleModules) (c : Tensor) :
  EdfExtractor_scale_output self query_coord query_batch node_features node_coords node_batches n m
  = Some c ->
  exists node_features_n edge_src edge_dst edge_attr edge_scalar,
    nth_error node_features n = Some node_features_n
    /\ EquiformerBlock_forward (snd m) node_features_n
         (zeros (length query_coord) (emb_dim self))
         query_batch edge_src edge_dst edge_attr edge_scalar = Some c.
Proof.
  intros H. unfold EdfExtractor_scale_output in H. destruct m as [[connect radial] layers].
  obind_inv H as nc_n _.
  obind_inv H as nb_n _.
  obind_inv H as edges _.
  obind_inv H as vs _.
  obind_inv H as vd _.
  obind_inv H as edge_vec _.
  obind_inv H as edge_attr _.
  obind_inv H as edge_scalar _.
  obind_inv H as nf_n Hnf.
  exists nf_n, (fst edges), (snd edges), edge_attr, edge_scalar.
  split; [exact Hnf | exact H].
Qed.

(** [forward] as the projection of the sum of the outputs of the scales. *)
Lemma EdfExtractor_forward_eq (self : EdfExtractor)
    (query_coord : Tensor) (query_batch : Batch)
    (node_features node_coords : list Tensor) (node_batches : list Batch) :
  EdfExtractor_forward self query_coord query_batch node_features node_coords node_batches
  = (_ <- oassert (Nat.eqb (length node_features) (length node_coords)
                   && Nat.eqb (length node_coords) (length node_batches)
                   && Nat.eqb (length node_batches) (n_scales self)) ;;
     _ <- oassert (forallb (fun row => Nat.eqb (length row) 3) query_coord) ;;
     cs <- EdfExtractor_scale_outputs self query_coord query_batch
             node_features node_coords node_batches ;;
     s <- tsum (zeros (length query_coord) (emb_dim self)) cs ;;
     proj self s).
Proof.
  unfold EdfExtractor_forward, EdfExtractor_scale_outputs.
  destruct (oassert _); [|reflexivity]. cbn [obind].
  destruct (oassert _); [|reflexivity]. cbn [obind].
  rewrite EdfExtractor_loop_sum.
  destruct (mapM _ _); reflexivity.
Qed.

(** C5.  [EdfExtractor.forward] computes its result additively over the
    scales: the accumulator starts as the zero tensor of the embedding
    dimension; the block of each scale is run on that scale's node features
    and on destination features that are zero; the returned value is the
    final projection of the sum of the outputs of all scales; and the output
    of a scale is the same on any other inputs that agree with these at
    that scale, so that no scale's contribution depends on another's. *)
Theorem forward_is_projected_sum (self : EdfExtractor)
    (query_coord : Tensor) (query_batch : Batch)
    (node_features node_coords : list Tensor) (node_batches : list Batch) (out : Tensor) :
  EdfExtractor_forward self query_coord query_batch node_features node_coords node_batches
  = Some out ->
  exists (cs : list Tensor) (s : Tensor),
    EdfExtractor_scale_outputs self query_coord query_batch
      node_features node_coords node_batches = Some cs
    /\ tsum (zeros (length query_coord) (emb_dim self)) cs = Some s
    /\ (forall i j, entry s i j = fold_right Rplus 0 (map (fun c => entry c i j) cs))
    /\ proj self s = Some out
    /\ (forall k c, nth_error cs k = Some c ->
          exists m node_features_k edge_src edge_dst edge_attr edge_scalar,
            nth_error (zip_modules (pre_connect self) (pre_radial self) (pre_layers self)) k
            = Some m
            /\ nth_error node_features k = Some node_features_k
            /\ EquiformerBlock_forward (snd m) node_features_k
                 (zeros (length query_coord) (emb_dim self))
                 query_batch edge_src edge_dst edge_attr edge_scalar = Some c)
    /\ (forall k m node_features' node_coords' node_batches',
          nth_error node_features k = nth_error node_features' k ->
          nth_error node_coords k = nth_error node_coords' k ->
          nth_error node_batches k = nth_error node_batches' k ->
          EdfExtractor_scale_output self query_coord query_batch
            node_features' node_coords' node_batches' k m
          = EdfExtractor_scale_output self query_coord query_batch
              node_features node_coords node_batches k m).
Proof.
  intros H. rewrite EdfExtractor_forward_eq in H.
  obind_inv H as u1 _.
  obind_inv H as u2 _.
  obind_inv H as cs Hcs.
  obind_inv H as s Hs.
  exists cs, s.
  split; [exact Hcs|]. split; [exact Hs|]. split.
  { intros i j. rewrite (tsum_entry cs _ s i j Hs), zeros_entry. ring. }
  split; [exact H|]. split.
  - intros k c Hk. unfold EdfExtractor_scale_outputs in Hcs.
    destruct (mapM_nth _ _ cs k c Hcs Hk) as ([n m] & Hnm & Hout).
    destruct (enumerate_nth _ 0 k n m Hnm) as [Hn Hm]. simpl in Hn. subst n.
    cbn [fst snd] in Hout.
    destruct (EdfExtractor_scale_output_zero_dst self query_coord query_batch
                node_features node_coords node_batches k m c Hout)
      as (nf_k & es & ed & ea & esc & Hnf & Hfw).
    exists m, nf_k, es, ed, ea, esc. repeat split; assumption.
  - intros k m nf' nc' nb' Hf Hc Hb. symmetry.
    apply EdfExtractor_scale_output_local; assumption.
Qed.

Lemma forward_is_projected_sum_witness :
  exists out cs s,
    EdfExtractor_forward Examples.scalar_extractor [[0; 0; 0]] [0%Z]
      [[[2]]; [[5]]] [[[1; 0; 0]]; [[0; 2; 0]]] [[0%Z]; [0%Z]] = Some out
    /\ EdfExtractor_scale_outputs Examples.scalar_extractor [[0; 0; 0]] [0%Z]
         [[[2]]; [[5]]] [[[1; 0; 0]]; [[0; 2; 0]]] [[0%Z]; [0%Z]] = Some cs
    /\ length cs = 2%nat
    /\ tsum (zeros 1 1) cs = Some s
    /\ (forall i j, entry s i j = fold_right Rplus 0 (map (fun c => entry c i j) cs))
    /\ proj Examples.scalar_extractor s = Some out.
Proof.
  assert (H : exists out,
             EdfExtractor_forward Examples.scalar_extractor [[0; 0; 0]] [0%Z]
               [[[2]]; [[5]]] [[[1; 0; 0]]; [[0; 2; 0]]] [[0%Z]; [0%Z]] = Some out)
    by (eexists; reflexivity).
  destruct H as [out H].
  destruct (forward_is_projected_sum Examples.scalar_extractor [[0; 0; 0]] [0%Z]
              [[[2]]; [[5]]] [[[1; 0; 0]]; [[0; 2; 0]]] [[0%Z]; [0%Z]] out H)
    as (cs & s & Hcs & Hs & He & Hp & _ & _).
  exists out, cs, s.
  split; [exact H|]. split; [exact Hcs|].
  split; [|split; [exact Hs | split; [exact He | exact Hp]]].
  assert (Hl : exists c0 c1, EdfExtractor_scale_outputs Examples.scalar_extractor [[0; 0; 0]] [0%Z]
             [[[2]]; [[5]]] [[[1; 0; 0]]; [[0; 2; 0]]] [[0%Z]; [0%Z]] = Some [c0; c1])
    by (eexists; eexists; reflexivity).
  destruct Hl as (c0 & c1 & Hl). rewrite Hl in Hcs. injection Hcs as <-. reflexivity.
Defined.

(** ** block.py: further properties of the forward passes *)

(** *** Shapes *)

Lemma vzip_length (f : R -> R -> R) (u v w : list R) :
  vzip f u v = Some w -> length w = length u /\ length v = length u.
Proof.
  revert v w. induction u as [|x u IH]; intros [|y v] w H; simpl in H; try discriminate.
  - injection H as <-. split; reflexivity.
  - obind_inv H as r Hr. injection H as <-.
    destruct (IH v r Hr) as [H1 H2]. simpl. split; f_equal; assumption.
Qed.

Lemma tzip_shape (f : R -> R -> R) (s t u : Tensor) :
  tzip f s t = Some u -> shape u = shape s /\ shape t = shape s.
Proof.
  revert t u. induction s as [|a s IH]; intros [|b t] u H; simpl in H; try discriminate.
  - injection H as <-. split; reflexivity.
  - obind_inv H as r Hr.
    obind_inv H as rs Hrs. injection H as <-.
    destruct (vzip_length f a b r Hr) as [H1 H2].
    destruct (IH t rs Hrs) as [H3 H4].
    unfold shape in *. simpl. split; f_equal; assumption.
Qed.

Lemma shape_length (s t : Tensor) : shape s = shape t -> length s = length t.
Proof. unfold shape. intros H. rewrite <- (length_map (@length R) s), H. apply length_map. Qed.

Lemma mapM_length {A B : Type} (f : A -> option B) (l : list A) (bs : list B) :
  mapM f l = Some bs -> length bs = length l.
Proof.
  revert bs. induction l as [|x l IH]; intros bs H; simpl in H.
  - injection H as <-. reflexivity.
  - obind_inv H as b Hb. obind_inv H as bs0 Hbs. injection H as <-.
    simpl. f_equal. apply IH. exact Hbs.
Qed.

(** *** EquiformerBlock: two residual additions *)

Lemma EquiformerBlock_forward_inv (self : EquiformerBlock)
    (node_input_src node_input_dst : Tensor) (batch_dst : Batch)
    (edge_src edge_dst : Index) (edge_attr edge_scalars out : Tensor) :
  EquiformerBlock_forward self node_input_src node_input_dst batch_dst
    edge_src edge_dst edge_attr edge_scalars = Some out ->
  exists attn ff mid,
    tadd node_input_dst attn = Some mid /\ tadd mid ff = Some out.
Proof.
  intros H. unfold EquiformerBlock_forward in H.
  obind_inv H as message _.
  obind_inv H as nf1 _.
  obind_inv H as attn _.
  obind_inv H as mid Hmid.
  obind_inv H as nf2 _.
  obind_inv H as nf3 _.
  obind_inv H as ff _.
  obind_inv H as out' Hout. injection H as <-.
  exists attn, ff, mid. split; assumption.
Qed.

Lemma EquiformerBlock_forward_shape (self : EquiformerBlock)
    (node_input_src node_input_dst : Tensor) (batch_dst : Batch)
    (edge_src edge_dst : Index) (edge_attr edge_scalars out : Tensor) :
  EquiformerBlock_forward self node_input_src node_input_dst batch_dst
    edge_src edge_dst edge_attr edge_scalars = Some out ->
  shape out = shape node_input_dst.
Proof.
  intros H. apply EquiformerBlock_forward_inv in H.
  destruct H as (attn & ff & mid & H1 & H2).
  apply tzip_shape in H1, H2. destruct H1 as [H1 _]. destruct H2 as [H2 _].
  rewrite H2. exact H1.
Qed.

(** When an Equiformer block returns, its output has the shape of the
    destination input and is that input plus two updates, entry by entry.
    The attention update is the drop path of what the graph attention
    returns on the per-edge message; the feed-forward update is the drop
    path of what the feed-forward network returns on the second norm of the
    destination input plus the attention update.  Both updates have the
    shape of the destination input. *)
Theorem EquiformerBlock_forward_residual (self : EquiformerBlock)
    (node_input_src node_input_dst : Tensor) (batch_dst : Batch)
    (edge_src edge_dst : Index) (edge_attr edge_scalars out : Tensor) :
  EquiformerBlock_forward self node_input_src node_input_dst batch_dst
    edge_src edge_dst edge_attr edge_scalars = Some out ->
  shape out = shape node_input_dst
  /\ exists message attended attn mid normed fed ff,
       EquiformerBlock_message self node_input_src node_input_dst edge_src edge_dst
       = Some message
       /\ ga self message edge_dst edge_attr edge_scalars (length node_input_dst)
          = Some attended
       /\ apply_drop_path self 0 attended batch_dst = Some attn
       /\ tadd node_input_dst attn = Some mid
       /\ norm_2 self mid batch_dst = Some normed
       /\ FeedForwardNetwork_forward (ffn self) normed = Some fed
       /\ apply_drop_path self 1 fed batch_dst = Some ff
       /\ tadd mid ff = Some out
       /\ shape attn = shape node_input_dst
       /\ shape ff = shape node_input_dst
       /\ forall i j,
            entry out i j = entry node_input_dst i j + entry attn i j + entry ff i j.
Proof.
  intros H. split; [apply (EquiformerBlock_forward_shape _ _ _ _ _ _ _ _ _ H)|].
  unfold EquiformerBlock_forward in H.
  obind_inv H as message Hmessage.
  obind_inv H as attended Hga.
  obind_inv H as attn Hattn.
  obind_inv H as mid Hmid.
  obind_inv H as normed Hnorm.
  obind_inv H as fed Hffn.
  obind_inv H as ff Hff.
  obind_inv H as out' Hout. injection H as <-.
  exists message, attended, attn, mid, normed, fed, ff.
  destruct (tzip_shape _ _ _ _ Hmid) as [Smid Sattn].
  destruct (tzip_shape _ _ _ _ Hout) as [_ Sff].
  assert (Sff' : shape ff = shape node_input_dst) by (rewrite Sff; exact Smid).
  repeat (split; [assumption|]).
  intros i j. rewrite (tadd_entry _ _ _ i j Hout), (tadd_entry _ _ _ i j Hmid). reflexivity.
Qed.

Lemma EquiformerBlock_forward_residual_witness :
  exists out message attended attn mid normed fed ff,
    EquiformerBlock_forward Examples.scalar_block [[2]] [[3]] [0%Z] [0%nat] [0%nat] [[1]] [[1]]
    = Some out
    /\ shape out = [1%nat]
    /\ EquiformerBlock_message Examples.scalar_block [[2]] [[3]] [0%nat] [0%nat] = Some message
    /\ ga Examples.scalar_block message [0%nat] [[1]] [[1]] 1 = Some attended
    /\ apply_drop_path Examples.scalar_block 0 attended [0%Z] = Some attn
    /\ tadd [[3]] attn = Some mid
    /\ norm_2 Examples.scalar_block mid [0%Z] = Some normed
    /\ FeedForwardNetwork_forward (ffn Examples.scalar_block) normed = Some fed
    /\ apply_drop_path Examples.scalar_block 1 fed [0%Z] = Some ff
    /\ tadd mid ff = Some out
    /\ shape attn = [1%nat]
    /\ shape ff = [1%nat]
    /\ forall i j, entry out i j = entry [[3]] i j + entry attn i j + entry ff i j.
Proof.
  assert (H : exists out,
             EquiformerBlock_forward Examples.scalar_block [[2]] [[3]] [0%Z] [0%nat] [0%nat]
               [[1]] [[1]] = Some out) by (eexists; reflexivity).
  destruct H as [out H].
  destruct (EquiformerBlock_forward_residual _ _ _ _ _ _ _ _ out H)
    as (S & message & attended & attn & mid & normed & fed & ff & E).
  exists out, message, attended, attn, mid, normed, fed, ff.
  split; [exact H|]. split; [exact S | exact E].
Defined.

(** *** RadiusGraphBlock: what is kept *)

Lemma RadiusGraphBlock_loop_shape (brs : list (EquiformerBlock * (list R -> option Tensor))) :
  forall (node_feature : Tensor) (batch : Batch) (edge_src edge_dst : Index)
         (edge_attr : Tensor) (edge_length : list R) (out : Tensor),
    RadiusGraphBlock_loop brs node_feature batch edge_src edge_dst edge_attr edge_length
    = Some out ->
    shape out = shape node_feature.
Proof.
  induction brs as [|[block radial] brs IH];
    intros node_feature batch edge_src edge_dst edge_attr edge_length out H.
  - simpl in H. injection H as <-. reflexivity.
  - cbn [RadiusGraphBlock_loop] in H.
    obind_inv H as edge_scalars _.
    obind_inv H as nf1 Hnf1.
    rewrite (IH _ _ _ _ _ _ _ H).
    apply (EquiformerBlock_forward_shape _ _ _ _ _ _ _ _ _ Hnf1).
Qed.

Lemma norm2_nonneg (row : list R) : 0 <= norm2 row.
Proof. unfold norm2. apply sqrt_pos. Qed.

(** A [RadiusGraphBlock] returns the coordinates and the batch it was
    given, node features of the shape it was given, and edge lengths none
    of which is negative. *)
Theorem RadiusGraphBlock_forward_keeps (self : RadiusGraphBlock)
    (node_feature node_coord : Tensor) (batch : Batch) (o : LayerOutput) :
  RadiusGraphBlock_forward self node_feature node_coord batch = Some o ->
  out_node_coord o = node_coord
  /\ out_batch o = batch
  /\ shape (out_node_feature o) = shape node_feature
  /\ Forall (fun x => 0 <= x) (out_edge_length o).
Proof.
  intros H. unfold RadiusGraphBlock_forward in H.
  obind_inv H as g _.
  obind_inv H as vs Hvs.
  obind_inv H as vd _.
  obind_inv H as edge_vec Hev.
  obind_inv H as edge_attr _.
  obind_inv H as nf Hnf.
  injection H as <-. cbn.
  split; [reflexivity|]. split; [reflexivity|].
  split; [apply (RadiusGraphBlock_loop_shape _ _ _ _ _ _ _ _ Hnf)|].
  apply Forall_forall. intros x Hx. apply in_map_iff in Hx.
  destruct Hx as (row & <- & _). apply norm2_nonneg.
Qed.

(** *** DownBlock: the chain of layers *)

(** The input of the layer [k]: the input of the block for the first layer,
    the output of the layer before it for the others. *)
Lemma DownBlock_forward_chain_aux (layers : list Layer) :
  forall (node_feature node_coord : Tensor) (batch : Batch) (outputs : list LayerOutput),
    DownBlock_forward layers node_feature node_coord batch = Some outputs ->
    length outputs = length layers
    /\ forall k layer, nth_error layers k = Some layer ->
         exists o, nth_error outputs k = Some o
           /\ match k with
              | O => Layer_forward layer node_feature node_coord batch = Some o
              | S k' => exists prev, nth_error outputs k' = Some prev
                          /\ Layer_forward layer (out_node_feature prev) (out_node_coord prev)
                               (out_batch prev) = Some o
              end.
Proof.
  induction layers as [|l layers IH]; intros nf nc b outputs H.
  - simpl in H. injection H as <-. split; [reflexivity|]. intros [|k] layer Hk; discriminate.
  - cbn [DownBlock_forward] in H.
    obind_inv H as o0 Ho0.
    obind_inv H as outs Houts. injection H as <-.
    destruct (IH _ _ _ _ Houts) as [Hlen Hch].
    split; [simpl; f_equal; exact Hlen|].
    intros [|k] layer Hk; simpl in Hk.
    + injection Hk as <-. exists o0. split; [reflexivity | exact Ho0].
    + destruct (Hch k layer Hk) as (o & Ho & Hrun).
      exists o. split; [exact Ho|].
      destruct k as [|k'].
      * exists o0. split; [reflexivity | exact Hrun].
      * destruct Hrun as (prev & Hprev & Hrun). exists prev. split; [exact Hprev | exact Hrun].
Qed.

(** [DownBlock.forward] returns one output per layer, in order; the first
    layer is run on the input of the block, and every other layer on the
    features, coordinates and batch that the layer before it returned. *)
Theorem DownBlock_forward_chain (layers : list Layer)
    (node_feature node_coord : Tensor) (batch : Batch) (outputs : list LayerOutput) :
  DownBlock_forward layers node_feature node_coord batch = Some outputs ->
  length outputs = length layers
  /\ forall k layer, nth_error layers k = Some layer ->
       exists o, nth_error outputs k = Some o
         /\ match k with
            | O => Layer_forward layer node_feature node_coord batch = Some o
            | S k' => exists prev, nth_error outputs k' = Some prev
                        /\ Layer_forward layer (out_node_feature prev) (out_node_coord prev)
                             (out_batch prev) = Some o
            end.
Proof. apply DownBlock_forward_chain_aux. Qed.

Lemma RadiusGraphBlock_forward_keeps_witness :
  exists o,
    RadiusGraphBlock_forward Examples.pair_radius_graph_block
      [[2]; [5]] [[0; 0; 0]; [1; 0; 0]] [0%Z; 0%Z] = Some o
    /\ out_node_coord o = [[0; 0; 0]; [1; 0; 0]]
    /\ out_batch o = [0%Z; 0%Z]
    /\ shape (out_node_feature o) = [1%nat; 1%nat]
    /\ Forall (fun x => 0 <= x) (out_edge_length o).
Proof.
  assert (H : exists o,
             RadiusGraphBlock_forward Examples.pair_radius_graph_block
               [[2]; [5]] [[0; 0; 0]; [1; 0; 0]] [0%Z; 0%Z] = Some o)
    by (eexists; reflexivity).
  destruct H as [o H]. exists o. split; [exact H|].
  apply (RadiusGraphBlock_forward_keeps _ _ _ _ o H).
Defined.

Lemma DownBlock_forward_chain_witness :
  exists outputs,
    DownBlock_forward [LPooling Examples.first_node_pooling_block;
                       LRadiusGraph Examples.pair_radius_graph_block]
      [[2]; [5]] [[0; 0; 0]; [1; 0; 0]] [0%Z; 0%Z] = None
    /\ DownBlock_forward [LRadiusGraph Examples.pair_radius_graph_block;
                          LPooling Examples.first_node_pooling_block]
         [[2]; [5]] [[0; 0; 0]; [1; 0; 0]] [0%Z; 0%Z] = Some outputs
    /\ length outputs = 2%nat.
Proof.
  assert (H : exists outputs,
             DownBlock_forward [LRadiusGraph Examples.pair_radius_graph_block;
                                LPooling Examples.first_node_pooling_block]
               [[2]; [5]] [[0; 0; 0]; [1; 0; 0]] [0%Z; 0%Z] = Some outputs)
    by (eexists; reflexivity).
  destruct H as [outputs H]. exists outputs.
  split; [reflexivity|]. split; [exact H|].
  apply (DownBlock_forward_chain _ _ _ _ outputs H).
Defined.

(** *** Translation of the coordinates *)

Lemma translate_length (v : list R) (t : Tensor) : length (translate v t) = length t.
Proof. unfold translate. apply length_map. Qed.

Lemma translate_row_length (v row : list R) :
  length row = length v ->
  length (map (fun p => fst p + snd p) (combine row v)) = length row.
Proof. intros H. rewrite length_map, length_combine, H. apply Nat.min_id. Qed.

Lemma vzip_translate (v : list R) :
  forall x y : list R,
    length x = length v -> length y = length v ->
    vzip Rminus (map (fun p => fst p + snd p) (combine x v))
                (map (fun p => fst p + snd p) (combine y v))
    = vzip Rminus x y.
Proof.
  induction v as [|c v IH]; intros [|a x] [|b y] Hx Hy; try discriminate; [reflexivity|].
  simpl in Hx, Hy. injection Hx as Hx. injection Hy as Hy.
  simpl. rewrite (IH x y Hx Hy).
  destruct (vzip Rminus x y); [|reflexivity]. simpl. f_equal. f_equal. ring.
Qed.

Lemma tsub_translate (v : list R) :
  forall s t : Tensor,
    Forall (fun row => length row = length v) s ->
    Forall (fun row => length row = length v) t ->
    tsub (translate v s) (translate v t) = tsub s t.
Proof.
  unfold tsub, translate. induction s as [|a s IH]; intros [|b t] Hs Ht; try reflexivity.
  inversion Hs as [|? ? Ha Hs']. inversion Ht as [|? ? Hb Ht']. subst.
  cbn [map tzip]. rewrite (vzip_translate v a b Ha Hb).
  destruct (vzip Rminus a b); [|reflexivity]. cbn [obind].
  rewrite (IH t Hs' Ht'). reflexivity.
Qed.

Lemma index_translate (v : list R) (t : Tensor) (idx : Index) :
  index (translate v t) idx = option_map (translate v) (index t idx).
Proof.
  unfold index. induction idx as [|i idx IH]; [reflexivity|].
  cbn [mapM]. unfold translate at 1. rewrite nth_error_map.
  destruct (nth_error t i) as [row|]; [|reflexivity]. cbn [option_map obind].
  rewrite IH. destruct (mapM (fun i0 => nth_error t i0) idx); reflexivity.
Qed.

Lemma index_Forall (P : list R -> Prop) (t u : Tensor) (idx : Index) :
  Forall P t -> index t idx = Some u -> Forall P u.
Proof.
  intros Ht. unfold index. revert u. induction idx as [|i idx IH]; intros u H; simpl in H.
  - injection H as <-. constructor.
  - obind_inv H as row Hrow. obind_inv H as rest Hrest. injection H as <-.
    constructor; [|apply IH; exact Hrest].
    apply nth_error_In in Hrow. rewrite Forall_forall in Ht. apply Ht. exact Hrow.
Qed.

(** The displacement of every edge is the same after a translation of both
    point sets. *)
Lemma edge_vec_translate {A : Type} (v : list R) (c1 c2 : Tensor) (es ed : Index)
    (k : Tensor -> option A) :
  Forall (fun row => length row = length v) c1 ->
  Forall (fun row => length row = length v) c2 ->
  (vs <- index (translate v c1) es ;; vd <- index (translate v c2) ed ;;
   edge_vec <- tsub vs vd ;; k edge_vec)
  = (vs <- index c1 es ;; vd <- index c2 ed ;; edge_vec <- tsub vs vd ;; k edge_vec).
Proof.
  intros H1 H2. rewrite !index_translate.
  destruct (index c1 es) as [vs|] eqn:E1; [|reflexivity].
  destruct (index c2 ed) as [vd|] eqn:E2; [|reflexivity].
  cbn [option_map obind].
  rewrite tsub_translate;
    [reflexivity | apply (index_Forall _ c1 vs es H1 E1) | apply (index_Forall _ c2 vd ed H2 E2)].
Qed.

(** Translation invariance of a [RadiusGraphBlock] in exact arithmetic:
    when the graph builder returns the same edges and degrees for the
    translated coordinates, the block returns the same features, edges, edge
    lengths and edge attributes; only the coordinates it passes on are the
    translated ones.  (The difference of two translated coordinates is the
    difference of the coordinates exactly; in floating point it is so up to
    rounding.) *)
Theorem RadiusGraphBlock_forward_translation (self : RadiusGraphBlock)
    (node_feature node_coord : Tensor) (batch : Batch) (v : list R) :
  Forall (fun row => length row = length v) node_coord ->
  option_map edges_of (radius_graph self (translate v node_coord) node_feature batch)
  = option_map edges_of (radius_graph self node_coord node_feature batch) ->
  RadiusGraphBlock_forward self node_feature (translate v node_coord) batch
  = option_map (with_node_coord (translate v node_coord))
      (RadiusGraphBlock_forward self node_feature node_coord batch).
Proof.
  intros Hc Hg. unfold RadiusGraphBlock_forward.
  destruct (radius_graph self (translate v node_coord) node_feature batch) as [g'|];
    destruct (radius_graph self node_coord node_feature batch) as [g|];
    try discriminate; [|reflexivity].
  cbn [option_map] in Hg. injection Hg as Hs Hd Hdeg. cbn [obind].
  rewrite Hs, Hd, Hdeg.
  rewrite (edge_vec_translate v node_coord node_coord (g_edge_src g) (g_edge_dst g)) by exact Hc.
  destruct (index node_coord (g_edge_src g)); [|reflexivity]. cbn [obind].
  destruct (index node_coord (g_edge_dst g)); [|reflexivity]. cbn [obind].
  destruct (tsub _ _) as [edge_vec|]; [|reflexivity]. cbn [obind].
  destruct (rg_spherical_harmonics self edge_vec); [|reflexivity]. cbn [obind].
  destruct (RadiusGraphBlock_loop _ _ _ _ _ _ _); reflexivity.
Qed.

Lemma RadiusGraphBlock_forward_translation_witness :
  RadiusGraphBlock_forward Examples.pair_radius_graph_block [[2]; [5]]
    (translate [10; 0; -1] [[0; 0; 0]; [1; 0; 0]]) [0%Z; 0%Z]
  = option_map (with_node_coord (translate [10; 0; -1] [[0; 0; 0]; [1; 0; 0]]))
      (RadiusGraphBlock_forward Examples.pair_radius_graph_block [[2]; [5]]
         [[0; 0; 0]; [1; 0; 0]] [0%Z; 0%Z]).
Proof.
  apply (RadiusGraphBlock_forward_translation Examples.pair_radius_graph_block
           [[2]; [5]] [[0; 0; 0]; [1; 0; 0]] [0%Z; 0%Z] [10; 0; -1]).
  - repeat constructor.
  - reflexivity.
Defined.

Lemma zip_modules_nth (cs : list (Tensor -> Batch -> Tensor -> Batch -> option (Index * Index))) :
  forall (rs : list (list R -> option Tensor)) (ls : list EquiformerBlock) (k : nat)
         (m : ScaleModules),
    nth_error (zip_modules cs rs ls) k = Some m ->
    nth_error cs k = Some (fst (fst m)).
Proof.
  induction cs as [|c cs IH]; intros [|r rs] [|l ls] k m H; simpl in H;
    try (destruct k; discriminate).
  destruct k as [|k]; simpl in H.
  - injection H as <-. reflexivity.
  - simpl. apply (IH rs ls k m H).
Qed.

Lemma translate_rows_check (v : list R) (t : Tensor) :
  Forall (fun row => length row = length v) t ->
  forallb (fun row => Nat.eqb (length row) 3) (translate v t)
  = forallb (fun row => Nat.eqb (length row) 3) t.
Proof.
  intros H. induction H as [|row t Hrow _ IH]; [reflexivity|].
  simpl. rewrite (translate_row_length v row Hrow). f_equal. exact IH.
Qed.

(** Translation invariance of the extractor in exact arithmetic: when every
    connect module returns the same edges after the query points and the
    nodes of its scale are moved by the same vector, [forward] returns the
    same features. *)
Theorem EdfExtractor_forward_translation (self : EdfExtractor)
    (query_coord : Tensor) (query_batch : Batch)
    (node_features node_coords : list Tensor) (node_batches : list Batch) (v : list R) :
  Forall (fun row => length row = length v) query_coord ->
  Forall (Forall (fun row => length row = length v)) node_coords ->
  (forall n connect node_coords_n node_batches_n,
     nth_error (pre_connect self) n = Some connect ->
     nth_error node_coords n = Some node_coords_n ->
     nth_error node_batches n = Some node_batches_n ->
     connect (translate v node_coords_n) node_batches_n (translate v query_coord) query_batch
     = connect node_coords_n node_batches_n query_coord query_batch) ->
  EdfExtractor_forward self (translate v query_coord) query_batch
    node_features (map (translate v) node_coords) node_batches
  = EdfExtractor_forward self query_coord query_batch node_features node_coords node_batches.
Proof.
  intros Hq Hn Hconn.
  rewrite !EdfExtractor_forward_eq.
  rewrite length_map, translate_length, (translate_rows_check v query_coord Hq).
  destruct (oassert _); [|reflexivity]. cbn [obind].
  destruct (oassert _); [|reflexivity]. cbn [obind].
  assert (E : EdfExtractor_scale_outputs self (translate v query_coord) query_batch
                node_features (map (translate v) node_coords) node_batches
              = EdfExtractor_scale_outputs self query_coord query_batch
                  node_features node_coords node_batches).
  { unfold EdfExtractor_scale_outputs.
    assert (Hms : forall k nm,
               nth_error (enumerate 0 (zip_modules (pre_connect self) (pre_radial self)
                                         (pre_layers self))) k = Some nm ->
               nth_error (pre_connect self) (fst nm) = Some (fst (fst (snd nm)))).
    { intros k [n m] Hk. destruct (enumerate_nth _ 0 k n m Hk) as [-> Hm].
      simpl. apply (zip_modules_nth _ _ _ _ _ Hm). }
    revert Hms.
    generalize (enumerate 0 (zip_modules (pre_connect self) (pre_radial self) (pre_layers self))).
    intros ms Hms. induction ms as [|[n m] ms IH]; [reflexivity|].
    cbn [mapM fst snd].
    assert (Hout : EdfExtractor_scale_output self (translate v query_coord) query_batch
                     node_features (map (translate v) node_coords) node_batches n m
                   = EdfExtractor_scale_output self query_coord query_batch
                       node_features node_coords node_batches n m).
    { unfold EdfExtractor_scale_output. destruct m as [[connect radial] layers].
      pose proof (Hms 0%nat (n, (connect, radial, layers)) eq_refl) as Hc. simpl in Hc.
      rewrite nth_error_map.
      destruct (nth_error node_coords n) as [nc_n|] eqn:Enc; [|reflexivity].
      cbn [option_map obind].
      destruct (nth_error node_batches n) as [nb_n|] eqn:Enb; [|reflexivity].
      cbn [obind].
      rewrite (Hconn n connect nc_n nb_n Hc Enc Enb).
      destruct (connect nc_n nb_n query_coord query_batch) as [edges|]; [|reflexivity].
      cbn [obind].
      rewrite translate_length.
      apply (edge_vec_translate v nc_n query_coord (fst edges) (snd edges)); [|exact Hq].
      apply nth_error_In in Enc. rewrite Forall_forall in Hn. apply Hn. exact Enc. }
    rewrite Hout.
    rewrite IH; [reflexivity|].
    intros k nm Hk. apply (Hms (S k) nm). exact Hk. }
  rewrite E. reflexivity.
Qed.

Lemma EdfExtractor_forward_translation_witness :
  EdfExtractor_forward Examples.scalar_extractor (translate [10; 0; -1] [[0; 0; 0]]) [0%Z]
    [[[2]]; [[5]]] (map (translate [10; 0; -1]) [[[1; 0; 0]]; [[0; 2; 0]]]) [[0%Z]; [0%Z]]
  = EdfExtractor_forward Examples.scalar_extractor [[0; 0; 0]] [0%Z]
      [[[2]]; [[5]]] [[[1; 0; 0]]; [[0; 2; 0]]] [[0%Z]; [0%Z]].
Proof.
  apply (EdfExtractor_forward_translation Examples.scalar_extractor [[0; 0; 0]] [0%Z]
           [[[2]]; [[5]]] [[[1; 0; 0]]; [[0; 2; 0]]] [[0%Z]; [0%Z]] [10; 0; -1]).
  - repeat constructor.
  - repeat constructor.
  - intros n connect nc_n nb_n Hc _ _.
    change (pre_connect Examples.scalar_extractor)
      with [fun (_ : Tensor) (_ : Batch) (_ : Tensor) (_ : Batch) => Some ([0%nat], [0%nat]);
            fun (_ : Tensor) (_ : Batch) (_ : Tensor) (_ : Batch) => Some ([0%nat], [0%nat])]
      in Hc.
    destruct n as [|[|[|n]]]; simpl in Hc; try discriminate;
      injection Hc as <-; reflexivity.
Defined.

(** *** PoolingBlock: what is passed on *)

(** A [PoolingBlock] passes on the coordinates, the batch, the edges and
    the degrees of its pooling layer; its features have the shape of the
    pooled features, and no edge length is negative. *)
Theorem PoolingBlock_forward_pools (self : PoolingBlock)
    (node_feature node_coord : Tensor) (batch : Batch) (o : LayerOutput) :
  PoolingBlock_forward self node_feature node_coord batch = Some o ->
  exists g, pool_layer self node_coord node_feature batch = Some g
    /\ out_node_coord o = g_node_coord_dst g
    /\ out_batch o = g_batch_dst g
    /\ out_edge_src o = g_edge_src g /\ out_edge_dst o = g_edge_dst g
    /\ out_degree o = g_degree g
    /\ shape (out_node_feature o) = shape (g_node_feature_dst g)
    /\ Forall (fun x => 0 <= x) (out_edge_length o).
Proof.
  intros H. unfold PoolingBlock_forward in H.
  obind_inv H as g Hg.
  obind_inv H as vs _.
  obind_inv H as vd _.
  obind_inv H as edge_vec _.
  obind_inv H as edge_attr _.
  obind_inv H as edge_scalars _.
  obind_inv H as nf Hnf.
  injection H as <-. exists g. cbn.
  split; [exact Hg|]. repeat (split; [reflexivity|]).
  split; [apply (EquiformerBlock_forward_shape _ _ _ _ _ _ _ _ _ Hnf)|].
  apply Forall_forall. intros x Hx. apply in_map_iff in Hx.
  destruct Hx as (row & <- & _). apply norm2_nonneg.
Qed.

Lemma PoolingBlock_forward_pools_witness :
  exists o g,
    PoolingBlock_forward Examples.first_node_pooling_block
      [[2]; [5]] [[0; 0; 0]; [1; 0; 0]] [0%Z; 0%Z] = Some o
    /\ out_node_coord o = g_node_coord_dst g
    /\ out_node_coord o = [[0; 0; 0]]
    /\ shape (out_node_feature o) = shape (g_node_feature_dst g)
    /\ Forall (fun x => 0 <= x) (out_edge_length o).
Proof.
  assert (H : exists o,
             PoolingBlock_forward Examples.first_node_pooling_block
               [[2]; [5]] [[0; 0; 0]; [1; 0; 0]] [0%Z; 0%Z] = Some o)
    by (eexists; reflexivity).
  destruct H as [o H].
  destruct (PoolingBlock_forward_pools _ _ _ _ o H)
    as (g & Hg & H1 & _ & _ & _ & _ & H2 & H3).
  exists o, g. split; [exact H|]. split; [exact H1|].
  split; [|split; [exact H2 | exact H3]].
  rewrite H1. cbn in Hg. injection Hg as <-. reflexivity.
Defined.

(** *** EdfExtractor: rejected inputs and the extractor without scales *)

(** [EdfExtractor.forward] fails on lists of node features, coordinates or
    batches whose length is not the number of scales, and on query
    coordinates that are not of width 3.  An extractor without scales
    returns the projection of the zero tensor. *)
Theorem EdfExtractor_forward_edge_cases (self : EdfExtractor)
    (query_coord : Tensor) (query_batch : Batch)
    (node_features node_coords : list Tensor) (node_batches : list Batch) :
  (length node_features <> n_scales self \/ length node_coords <> n_scales self
   \/ length node_batches <> n_scales self
   \/ Exists (fun row => length row <> 3%nat) query_coord ->
   EdfExtractor_forward self query_coord query_batch node_features node_coords node_batches
   = None)
  /\ (n_scales self = 0%nat -> pre_connect self = [] ->
      Forall (fun row => length row = 3%nat) query_coord ->
      EdfExtractor_forward self query_coord query_batch [] [] []
      = proj self (zeros (length query_coord) (emb_dim self))).
Proof.
  split.
  - intros H. unfold EdfExtractor_forward.
    destruct (Nat.eqb_spec (length node_features) (length node_coords)) as [E1|E1];
      [|reflexivity].
    destruct (Nat.eqb_spec (length node_coords) (length node_batches)) as [E2|E2];
      [|reflexivity].
    destruct (Nat.eqb_spec (length node_batches) (n_scales self)) as [E3|E3];
      [|reflexivity].
    cbn [andb oassert obind].
    destruct H as [H|[H|[H|H]]]; try (exfalso; apply H; congruence).
    assert (Hf : forallb (fun row => Nat.eqb (length row) 3) query_coord = false).
    { induction H as [row t Hrow|row t _ IH]; simpl.
      - rewrite (proj2 (Nat.eqb_neq _ _) Hrow). reflexivity.
      - rewrite IH. apply andb_false_r. }
    rewrite Hf. reflexivity.
  - intros Hn Hc Hq. unfold EdfExtractor_forward. rewrite Hn, Hc. cbn [length Nat.eqb andb oassert obind].
    assert (Hf : forallb (fun row => Nat.eqb (length row) 3) query_coord = true).
    { apply forallb_forall. intros row Hrow. rewrite Forall_forall in Hq.
      rewrite (Hq row Hrow). reflexivity. }
    rewrite Hf. reflexivity.
Qed.

Lemma EdfExtractor_forward_edge_cases_witness :
  EdfExtractor_forward Examples.scalar_extractor [[0; 0; 0]] [0%Z]
    [[[2]]] [[[1; 0; 0]]] [[0%Z]] = None
  /\ EdfExtractor_forward Examples.scalar_extractor [[0; 0]] [0%Z]
       [[[2]]; [[5]]] [[[1; 0; 0]]; [[0; 2; 0]]] [[0%Z]; [0%Z]] = None
  /\ EdfExtractor_forward Examples.empty_extractor [[0; 0; 0]; [1; 1; 1]] [0%Z; 0%Z] [] [] []
     = Some [[0]; [0]].
Proof.
  split; [|split].
  - apply (proj1 (EdfExtractor_forward_edge_cases Examples.scalar_extractor [[0; 0; 0]] [0%Z]
                    [[[2]]] [[[1; 0; 0]]] [[0%Z]])).
    left. discriminate.
  - apply (proj1 (EdfExtractor_forward_edge_cases Examples.scalar_extractor [[0; 0]] [0%Z]
                    [[[2]]; [[5]]] [[[1; 0; 0]]; [[0; 2; 0]]] [[0%Z]; [0%Z]])).
    right. right. right. constructor. discriminate.
  - apply (proj2 (EdfExtractor_forward_edge_cases Examples.empty_extractor
                    [[0; 0; 0]; [1; 1; 1]] [0%Z; 0%Z] [] [] []) eq_refl eq_refl).
    repeat constructor.
Defined.

End ForwardFacts.

(** ** skip.py *)

Module SkipFacts.
Import Skip.

(** On equal signatures [ProjectIfMismatch] builds no learned module and
    its [forward] returns its input; on different signatures [forward] is
    the layer norm of the linear projection. *)
Theorem ProjectIfMismatch_forward_spec
    (LinearRS : Init.Irreps -> Init.Irreps -> bool -> bool -> Forward.Tensor -> option Forward.Tensor)
    (EquivariantLayerNormV2 : Init.Irreps -> Forward.Tensor -> option Forward.Tensor)
    (irreps_in0 irreps_out0 : Init.Irreps) (x : Forward.Tensor) :
  (irreps_in0 = irreps_out0 ->
   skip (ProjectIfMismatch_init LinearRS EquivariantLayerNormV2 irreps_in0 irreps_out0) = Identity
   /\ layernorm (ProjectIfMismatch_init LinearRS EquivariantLayerNormV2 irreps_in0 irreps_out0)
      = Identity
   /\ ProjectIfMismatch_forward
        (ProjectIfMismatch_init LinearRS EquivariantLayerNormV2 irreps_in0 irreps_out0) x
      = Some x)
  /\ (irreps_in0 <> irreps_out0 ->
      ProjectIfMismatch_forward
        (ProjectIfMismatch_init LinearRS EquivariantLayerNormV2 irreps_in0 irreps_out0) x
      = (y <- LinearRS irreps_in0 irreps_out0 true true x ;;
         EquivariantLayerNormV2 irreps_out0 y)).
Proof.
  unfold ProjectIfMismatch_init, ProjectIfMismatch_forward. split.
  - intros E. rewrite (proj2 (InitFacts.Irreps_eqb_eq _ _) E). repeat split.
  - intros E. destruct (Init.Irreps_eqb irreps_in0 irreps_out0) eqn:B.
    + apply InitFacts.Irreps_eqb_eq in B. contradiction.
    + reflexivity.
Qed.

Lemma ProjectIfMismatch_forward_spec_witness :
  ProjectIfMismatch_forward
    (ProjectIfMismatch_init (fun _ _ _ _ t => Some (map (map (fun y => 2 * y)) t))
       (fun _ t => Some t) Examples.irreps_node Examples.irreps_node) [[1; 2]]
  = Some [[1; 2]]
  /\ ProjectIfMismatch_forward
       (ProjectIfMismatch_init (fun _ _ _ _ t => Some (map (map (fun y => 2 * y)) t))
          (fun _ t => Some t) Examples.irreps_node Examples.irreps_sh) [[1; 2]]
     = Some [[2 * 1; 2 * 2]].
Proof.
  split.
  - apply (proj1 (ProjectIfMismatch_forward_spec
                    (fun _ _ _ _ t => Some (map (map (fun y => 2 * y)) t))
                    (fun _ t => Some t) Examples.irreps_node Examples.irreps_node [[1; 2]])
             eq_refl).
  - rewrite (proj2 (ProjectIfMismatch_forward_spec
                      (fun _ _ _ _ t => Some (map (map (fun y => 2 * y)) t))
                      (fun _ t => Some t) Examples.irreps_node Examples.irreps_sh [[1; 2]]))
      by discriminate.
    reflexivity.
Defined.

End SkipFacts.

(** ** query_model.py: encoding and decoding of the combined index *)

Module QueryModelFacts.
Import QueryModel.

Open Scope Z_scope.

(** The decoding inverts the encoding by [n_scales]. *)
Lemma encode_by_n_scales_round_trip (n_scales b s : Z) :
  0 <= s < n_scales ->
  decode_batch n_scales (encode_by_n_scales n_scales b s) = b
  /\ decode_scale n_scales (encode_by_n_scales n_scales b s) = s.
Proof.
  intros Hs. unfold decode_batch, decode_scale, encode_by_n_scales. split.
  - rewrite Z.div_add_l by lia. rewrite Z.div_small by lia. lia.
  - rewrite Z.add_comm, Z.mod_add by lia. apply Z.mod_small. lia.
Qed.

(** The encoding of the code sends every query to the index 0 at scale 0,
    whatever its batch. *)
Lemma encode_scale_zero (n_scales b : Z) :
  encode b 0 = 0 /\ decode_batch n_scales (encode b 0) = 0.
Proof.
  unfold encode, decode_batch. replace (b * 0 + 0) with 0 by lia.
  split; [reflexivity | apply Zdiv_0_l].
Qed.

(** C3, on the code.  With two scales and the query batches [0, 1], the
    rows of [query_batch_n_scale] are [0, 0] and [1, 2]: the query of batch
    1 gets the index 0 at scale 0, which decodes to batch 0, and the index
    2 at scale 1, which decodes to scale 0.  The round trip of the claim
    does not hold. *)
Theorem encoding_is_not_decoded :
  query_batch_n_scale 2 [0; 1] = [[0; 0]; [1; 2]]
  /\ decode_batch 2 (encode 1 0) = 0
  /\ decode_scale 2 (encode 1 1) = 0
  /\ ~ (forall n_scales b s : Z,
          1 <= n_scales -> 0 <= b -> 0 <= s < n_scales ->
          decode_batch n_scales (encode b s) = b
          /\ decode_scale n_scales (encode b s) = s).
Proof.
  split; [reflexivity|]. split; [reflexivity|]. split; [reflexivity|].
  intros H. destruct (H 2 1 0) as [Hb _]; try lia.
  vm_compute in Hb. discriminate.
Qed.

(** ** query_model.py: further properties *)

(** The encoding of [forward] is inverted by the decoding of
    [_get_init_query_pos] for the batch index 0 and for no other: with
    [0 <= s < n_scales] and [b >= 0], the index [b*s + s] decodes to
    [(b, s)] exactly when [b = 0]. *)
Theorem encode_round_trip_iff (n_scales b s : Z) :
  1 <= n_scales -> 0 <= b -> 0 <= s < n_scales ->
  (decode_batch n_scales (encode b s) = b /\ decode_scale n_scales (encode b s) = s)
  <-> b = 0.
Proof.
  intros Hn Hb Hs. unfold decode_batch, decode_scale, encode. split.
  - intros [H1 H2].
    pose proof (Z.div_mod (b * s + s) n_scales ltac:(lia)) as E.
    rewrite H1, H2 in E. nia.
  - intros ->. replace (0 * s + s) with s by lia.
    split; [apply Z.div_small | apply Z.mod_small]; lia.
Qed.

Lemma encode_round_trip_iff_witness :
  (decode_batch 3 (encode 0 2) = 0 /\ decode_scale 3 (encode 0 2) = 2) <-> 0 = 0.
Proof. apply (encode_round_trip_iff 3 0 2); lia. Defined.

(** *** The offsets of the weight field *)

Open Scope R_scope.

Lemma zip_neighbours_length (l : list R) : length (zip_neighbours l) = pred (length l).
Proof.
  unfold zip_neighbours. rewrite length_combine.
  destruct l as [|x l]; [reflexivity|].
  rewrite removelast_firstn_len, length_firstn. simpl length. lia.
Qed.

Lemma zip_neighbours_nth (l : list R) (i : nat) (x y : R) :
  nth_error l i = Some x -> nth_error l (S i) = Some y ->
  nth_error (zip_neighbours l) i = Some (x, y).
Proof.
  revert i. induction l as [|a l IH]; intros i Hx Hy; [destruct i; discriminate|].
  destruct l as [|b l]; [destruct i; discriminate|].
  destruct i as [|i].
  - simpl in Hx, Hy. injection Hx as <-. injection Hy as <-. reflexivity.
  - change (zip_neighbours (a :: b :: l)) with ((a, b) :: zip_neighbours (b :: l)).
    simpl. apply IH; assumption.
Qed.

(** The offsets given to the weight field: there is one per cutoff radius
    (for a list of cutoffs that is not empty), the first is [min_offset], none
    is below [min_offset], and the offset of the scale [i+1] is
    [max(min_offset, 1.2 * c_i - 0.2 * c_(i+1))]: where the cutoffs grow it is
    at most [max(min_offset, c_i)], so that the window of a scale starts
    no later than the cutoff of the scale before it. *)
Theorem weight_field_offsets_spec (min_offset : R) (cutoff_radius : list R) :
  (cutoff_radius <> [] ->
   length (weight_field_offsets min_offset cutoff_radius) = length cutoff_radius)
  /\ nth_error (weight_field_offsets min_offset cutoff_radius) 0 = Some min_offset
  /\ Forall (fun o => min_offset <= o) (weight_field_offsets min_offset cutoff_radius)
  /\ forall i c c',
       nth_error cutoff_radius i = Some c -> nth_error cutoff_radius (S i) = Some c' ->
       nth_error (weight_field_offsets min_offset cutoff_radius) (S i)
       = Some (Rmax min_offset (c - 0.2 * (c' - c)))
       /\ (c <= c' -> Rmax min_offset (c - 0.2 * (c' - c)) <= Rmax min_offset c).
Proof.
  unfold weight_field_offsets. split; [|split; [|split]].
  - intros Hne. simpl. rewrite length_map, zip_neighbours_length.
    destruct cutoff_radius; [contradiction | reflexivity].
  - reflexivity.
  - constructor; [lra|]. apply Forall_forall. intros o Ho.
    apply in_map_iff in Ho. destruct Ho as (oc & <- & _). apply Rmax_l.
  - intros i c c' Hc Hc'. split.
    + simpl. rewrite nth_error_map, (zip_neighbours_nth _ i c c' Hc Hc'). reflexivity.
    + intros Hle. apply Rle_max_compat_l. lra.
Qed.

Lemma weight_field_offsets_spec_witness :
  length (weight_field_offsets 0.1 [1; 2; 4]) = 3%nat
  /\ nth_error (weight_field_offsets 0.1 [1; 2; 4]) 2 = Some (Rmax 0.1 (2 - 0.2 * (4 - 2)))
  /\ Rmax 0.1 (2 - 0.2 * (4 - 2)) <= Rmax 0.1 2.
Proof.
  destruct (weight_field_offsets_spec 0.1 [1; 2; 4]) as (H1 & _ & _ & H4).
  split; [apply H1; discriminate|].
  destruct (H4 1%nat 2 4 eq_refl eq_refl) as [H5 H6].
  split; [exact H5 | apply H6; lra].
Defined.

Open Scope Z_scope.

(** *** The initial query points *)

Lemma top_scale_node_idx_spec (n_scales : Z) (l : list Z) (i : nat) :
  In i (top_scale_node_idx n_scales l) ->
  exists v, nth_error l i = Some v /\ decode_scale n_scales v = n_scales - 1.
Proof.
  unfold top_scale_node_idx. intros H.
  apply in_map_iff in H. destruct H as ([j v] & Hj & H). simpl in Hj. subst j.
  apply filter_In in H. destruct H as [Hin Hf]. simpl in Hf.
  apply Z.eqb_eq in Hf. exists v. split; [|exact Hf].
  apply In_nth_error in Hin. destruct Hin as [k Hk].
  assert (Hlen : (k < length (combine (seq 0 (length l)) l))%nat)
    by (apply nth_error_Some; rewrite Hk; discriminate).
  rewrite length_combine, length_seq, Nat.min_id in Hlen.
  pose proof (combine_nth (seq 0 (length l)) l k 0%nat 0 ltac:(apply length_seq)) as E.
  rewrite (nth_error_nth _ _ (0%nat, 0) Hk) in E.
  rewrite seq_nth in E by exact Hlen. injection E as -> ->.
  simpl. apply nth_error_nth'. exact Hlen.
Qed.

(** Every query point that [_get_init_query_pos] returns is a node of the
    input, paired with the batch index decoded from that node's combined
    index; with [only_from_top_scale] that node is at the top scale.  No
    query point is made up. *)
Theorem query_points_are_nodes
    (fps : list (list R) -> list Z -> R -> bool -> option (list nat))
    (n_scales : Z) (ratio : R) (deterministic only_from_top_scale : bool)
    (node_coord query_coord : list (list R)) (node_batch_n_scale query_batch : list Z) :
  _get_init_query_pos fps n_scales ratio deterministic node_coord node_batch_n_scale
    only_from_top_scale = Some (query_coord, query_batch) ->
  length query_coord = length query_batch
  /\ forall k c b,
       nth_error query_coord k = Some c -> nth_error query_batch k = Some b ->
       exists i v,
         nth_error node_coord i = Some c
         /\ nth_error node_batch_n_scale i = Some v
         /\ b = decode_batch n_scales v
         /\ (only_from_top_scale = true -> decode_scale n_scales v = n_scales - 1).
Proof.
  intros H. unfold _get_init_query_pos in H.
  destruct (n_scales =? 0); [discriminate|].
  obind_inv H as [nc' batch] Hsel.
  cbn [fst snd] in H.
  obind_inv H as dst Hdst.
  obind_inv H as qc Hqc.
  obind_inv H as qb Hqb.
  injection H as <- <-.
  unfold index_select in Hqc, Hqb.
  split.
  { rewrite (ForwardFacts.mapM_length _ _ _ Hqc), (ForwardFacts.mapM_length _ _ _ Hqb).
    reflexivity. }
  intros k c b Hc Hb.
  destruct (ForwardFacts.mapM_nth _ _ _ k c Hqc Hc) as (j & Hj & Hcj).
  destruct (ForwardFacts.mapM_nth _ _ _ k b Hqb Hb) as (j' & Hj' & Hbj).
  rewrite Hj in Hj'. injection Hj' as <-.
  destruct only_from_top_scale.
  - obind_inv Hsel as nc1 Hnc1.
    obind_inv Hsel as picked Hpicked.
    injection Hsel as <- <-.
    unfold index_select in Hnc1, Hpicked.
    destruct (ForwardFacts.mapM_nth _ _ _ j c Hnc1 Hcj) as (i & Hi & Hci).
    rewrite nth_error_map in Hbj.
    destruct (nth_error picked j) as [v|] eqn:Hv; [|discriminate].
    injection Hbj as <-.
    destruct (ForwardFacts.mapM_nth _ _ _ j v Hpicked Hv) as (i' & Hi' & Hvi).
    rewrite Hi in Hi'. injection Hi' as <-.
    exists i, v. split; [exact Hci|]. split; [exact Hvi|]. split; [reflexivity|].
    intros _. apply nth_error_In in Hi.
    destruct (top_scale_node_idx_spec n_scales node_batch_n_scale i Hi) as (v' & Hv' & Htop).
    rewrite Hvi in Hv'. injection Hv' as <-. exact Htop.
  - injection Hsel as <- <-.
    rewrite nth_error_map in Hbj.
    destruct (nth_error node_batch_n_scale j) as [v|] eqn:Hv; [|discriminate].
    injection Hbj as <-.
    exists j, v. split; [exact Hcj|]. split; [exact Hv|]. split; [reflexivity|].
    discriminate.
Qed.

Lemma query_points_are_nodes_witness :
  exists qc qb,
    _get_init_query_pos (fun _ _ _ _ => Some [1%nat]) 2 (1 / 2)%R true
      [[0; 0; 0]; [1; 0; 0]; [2; 0; 0]; [3; 0; 0]]%R [0; 1; 2; 3] true = Some (qc, qb)
    /\ length qc = length qb
    /\ qc = [[3; 0; 0]%R] /\ qb = [1].
Proof.
  exists [[3; 0; 0]%R], [1].
  assert (H : _get_init_query_pos (fun _ _ _ _ => Some [1%nat]) 2 (1 / 2)%R true
                [[0; 0; 0]; [1; 0; 0]; [2; 0; 0]; [3; 0; 0]]%R [0; 1; 2; 3] true
              = Some ([[3; 0; 0]%R], [1])) by reflexivity.
  split; [exact H|]. split; [|split; reflexivity].
  apply (proj1 (query_points_are_nodes _ _ _ _ _ _ _ _ _ H)).
Defined.

End QueryModelFacts.

(** ** IEEE binary64: where rounding and overflow show *)

Module Binary64Facts.
Import Floats Binary64.
#[local] Set Warnings "-inexact-float".
Local Open Scope float_scope.

(** *** The windows at overflow *)

(** A product with [nan] is [nan]. *)
Lemma mul_nan_r (g : float) : is_nan (g * nan) = true.
Proof.
  unfold is_nan. rewrite eqb_spec, mul_spec.
  change (Prim2SF nan) with S754_nan.
  destruct (Prim2SF g); reflexivity.
Qed.

(** Once [x.pow(n+1)] overflows, the masked polynomial of [soft_step] is
    infinite and its product with the mask [0.0] is [nan]: on both sides,
    far from the interval on which the polynomial is used. *)
Lemma soft_step64_nan_at_overflow :
  is_nan (soft_step64 1e80 3) = true
  /\ is_nan (soft_step64 (-1e80) 3) = true
  /\ is_nan (soft_step64 2 1024) = true.
Proof. repeat split; reflexivity. Qed.

(** Away from overflow the windows take the values of exact arithmetic at
    the points where the layer is used. *)
Lemma soft_square_cutoff64_values :
  soft_square_cutoff64 0 0.8 3 = 0
  /\ soft_square_cutoff64 0.5 0.8 3 = 1
  /\ soft_square_cutoff64 1 0.8 3 = 0
  /\ soft_square_cutoff64 2 0.8 3 = 0.
Proof. repeat split; reflexivity. Qed.

(** C9, on the code.  The layer with cutoff radius [1] and the soft cutoff
    enabled, at the distance [1e80] of a [torch.float64] tensor: the window
    that line 61 multiplies every channel with is [nan], and so is every
    channel of the output, whatever finite value the Gaussian has given it.
    The output is not a finite number. *)
Theorem forward_nan_at_large_distance :
  is_nan (forward_window64 1 1e80) = true
  /\ forall g : float, is_nan (forward_channel64 1 1e80 g) = true.
Proof.
  assert (H : is_nan (forward_window64 1 1e80) = true) by reflexivity.
  split; [exact H|]. intros g. unfold forward_channel64.
  replace (forward_window64 1 1e80) with nan by reflexivity.
  apply mul_nan_r.
Qed.

(** C10, as the claim states it, fails, in two ways.  The windows divide by
    [1 - thr]: at the threshold [1] they have no value in the unit interval,
    in exact arithmetic (no real value) as in binary64 ([nan]).  And in
    binary64 [soft_step] itself is [nan] where [x.pow(n+1)] overflows: with
    [n = 3] it is not [1] at [1e80] and not [0] at [-1e80], with [n = 1024]
    it is not [1] at [2], and the windows of the default threshold are [nan]
    at [1e80]. *)
Lemma soft_step_outside_unit_interval :
  (GaussianRbf.soft_cutoff 2 1 3 0 = None
   /\ GaussianRbf.soft_square_cutoff 2 1 3 = None
   /\ in_unit_interval (soft_cutoff64 2 1 3 0) = false
   /\ in_unit_interval (soft_square_cutoff64 2 1 3) = false)
  /\ (in_unit_interval (soft_step64 1e80 3) = false
      /\ (soft_step64 1e80 3 =? 1) = false
      /\ (soft_step64 (-1e80) 3 =? 0) = false
      /\ (soft_step64 2 1024 =? 1) = false
      /\ in_unit_interval (soft_cutoff64 1e80 0.8 3 0) = false
      /\ in_unit_interval (soft_square_cutoff64 1e80 0.8 3) = false)
  /\ ~ (forall (x : float) (n : Z),
          (1 <= n)%Z -> in_unit_interval (soft_step64 x n) = true).
Proof.
  split; [|split].
  - split; [|split; [|split; reflexivity]].
    + unfold GaussianRbf.soft_cutoff.
      replace (1 - 1)%R with 0%R by ring. rewrite rdiv_zero. reflexivity.
    + unfold GaussianRbf.soft_square_cutoff, GaussianRbf.soft_cutoff.
      replace (1 - 1)%R with 0%R by ring. rewrite rdiv_zero. reflexivity.
  - repeat split; reflexivity.
  - intros F. specialize (F 1e80 3%Z ltac:(lia)). discriminate F.
Qed.

(** *** The radius schedule *)

Lemma DownBlock_radii64_eq (p : float) (k : nat) (acc : list float) (r : float)
    (rl : list float) :
  DownBlock_radii64 p k acc r = Ok rl -> rl = (acc ++ radii_from (sqrt p) r k)%list.
Proof.
  revert acc r. induction k as [|k IH]; intros acc r H; simpl in H.
  - injection H as <-. simpl. rewrite app_nil_r. reflexivity.
  - unfold math_sqrt64 in H. destruct (p <? 0); [discriminate|]. cbn [rbind] in H.
    unfold fdiv64 in H. destruct (sqrt p =? 0); [discriminate|]. cbn [rbind] in H.
    apply IH in H. rewrite H, <- app_assoc. reflexivity.
Qed.

Lemma radii_from_length (q r : float) (k : nat) : length (radii_from q r k) = k.
Proof. revert r. induction k as [|k IH]; intros r; simpl; [reflexivity | f_equal; apply IH]. Qed.

Lemma radii_from_step (q r : float) (k s : nat) (prev cur : float) :
  nth_error (radii_from q r k) s = Some prev ->
  nth_error (radii_from q r k) (S s) = Some cur ->
  cur = prev / q.
Proof.
  revert r s. induction k as [|k IH]; intros r s Hp Hc.
  - destruct s; discriminate.
  - destruct s as [|s].
    + simpl in Hp. injection Hp as <-. destruct k; simpl in Hc; [discriminate|].
      injection Hc as <-. reflexivity.
    + simpl in Hp, Hc. exact (IH (r / q) s Hp Hc).
Qed.

(** In binary64 the schedule of a constructed block has one radius per
    scale; the first is the rounded [(init_radius * sqrt(pool_ratio)) /
    sqrt(pool_ratio)], and every other one is the rounded quotient of the
    radius before it and [sqrt(pool_ratio)]. *)
Lemma DownBlock_radius_list64_chain (init_radius pool_ratio : float) (n_scales : Z)
    (rl : list float) :
  DownBlock_radius_list64 init_radius pool_ratio n_scales = Ok rl ->
  length rl = Z.to_nat n_scales
  /\ (forall r0, nth_error rl 0 = Some r0 ->
                 r0 = init_radius * sqrt pool_ratio / sqrt pool_ratio)
  /\ forall s prev cur,
       nth_error rl s = Some prev -> nth_error rl (S s) = Some cur ->
       cur = prev / sqrt pool_ratio.
Proof.
  intros H. unfold DownBlock_radius_list64, math_sqrt64 in H.
  destruct (pool_ratio <? 0); [discriminate|]. cbn [rbind] in H.
  apply DownBlock_radii64_eq in H. simpl in H. subst rl.
  split; [apply radii_from_length|]. split.
  - intros r0 H0. destruct (Z.to_nat n_scales); simpl in H0; [discriminate|].
    injection H0 as <-. reflexivity.
  - intros s prev cur. apply radii_from_step.
Qed.

(** C4, as the claim states it, fails: the first radius is computed as
    [(init_radius * sqrt(pool_ratio)) / sqrt(pool_ratio)], and in binary64
    the quotient need not give [init_radius] back.  With [init_radius = 0.1]
    and [pool_ratio = 0.4] it is [0.10000000000000002]; with [1e-200] and
    [1e-300] the product underflows and the first radius is [0]. *)
Lemma first_radius_differs_in_binary64 :
  ((0 <? 0.1) = true /\ (0 <? 0.4) = true /\ (0.4 <=? 1) = true
   /\ DownBlock_radius_list64 0.1 0.4 1 = Ok [0.10000000000000002]
   /\ (0.10000000000000002 =? 0.1) = false)
  /\ ((0 <? 1e-200) = true /\ (0 <? 1e-300) = true /\ (1e-300 <=? 1) = true
      /\ DownBlock_radius_list64 1e-200 1e-300 1 = Ok [0])
  /\ ~ (forall (init_radius pool_ratio : float) (n_scales : Z) (rl : list float),
          (0 <? init_radius) = true ->
          (0 <? pool_ratio) = true -> (pool_ratio <=? 1) = true ->
          (1 <= n_scales)%Z ->
          DownBlock_radius_list64 init_radius pool_ratio n_scales = Ok rl ->
          exists r0, nth_error rl 0 = Some r0 /\ (r0 =? init_radius) = true).
Proof.
  split; [|split].
  - repeat split; reflexivity.
  - repeat split; reflexivity.
  - intros F.
    assert (E : exists r0, nth_error [0.10000000000000002] 0 = Some r0
                           /\ (r0 =? 0.1) = true).
    { apply (F 0.1 0.4 1%Z); try reflexivity; lia. }
    destruct E as (r0 & H0 & E).
    simpl in H0. injection H0 as <-. discriminate E.
Qed.

(** *** The radius schedule, as computed and in exact arithmetic *)

Section Construction.

Variable mlp_mid_of_int : Init.Irreps -> Z -> Init.Irreps.

(** C4, as it holds.  In binary64, as the constructor computes it: the
    schedule of a constructed [DownBlock] with [n_scales >= 1] has one
    radius per scale, [radius_list[0]] is
    [(init_radius * sqrt(pool_ratio)) / sqrt(pool_ratio)] with every
    operation rounded, and [radius_list[s]] equals
    [radius_list[s-1] / sqrt(pool_ratio)] for every [s] in [1..n_scales-1].
    In exact arithmetic, with [init_radius > 0] and [0 < pool_ratio <= 1],
    the same recurrence holds on the whole constructor and
    [radius_list[0]] equals [init_radius]. *)
Theorem radius_schedule_as_computed :
  (forall (init_radius pool_ratio : float) (n_scales : Z) (rl : list float),
     (1 <= n_scales)%Z ->
     DownBlock_radius_list64 init_radius pool_ratio n_scales = Ok rl ->
     length rl = Z.to_nat n_scales
     /\ nth_error rl 0 = Some (init_radius * sqrt pool_ratio / sqrt pool_ratio)
     /\ forall s : nat,
          (1 <= s < Z.to_nat n_scales)%nat ->
          exists prev cur,
            nth_error rl (s - 1) = Some prev
            /\ nth_error rl s = Some cur
            /\ cur = prev / sqrt pool_ratio)
  /\ (forall (args : Init.DownBlockArgs) (blk : Init.DownBlock),
        (0 < Init.da_init_radius args)%R ->
        (0 < Init.da_pool_ratio args <= 1)%R ->
        (1 <= Init.da_n_scales args)%Z ->
        Init.DownBlock_init mlp_mid_of_int args = Ok blk ->
        length (Init.radius_list blk) = Z.to_nat (Init.da_n_scales args)
        /\ nth_error (Init.radius_list blk) 0 = Some (Init.da_init_radius args)
        /\ forall s : nat,
             (1 <= s < Z.to_nat (Init.da_n_scales args))%nat ->
             exists prev cur,
               nth_error (Init.radius_list blk) (s - 1) = Some prev
               /\ nth_error (Init.radius_list blk) s = Some cur
               /\ cur = (prev / R_sqrt.sqrt (Init.da_pool_ratio args))%R).
Proof.
  split.
  - intros init_radius pool_ratio n_scales rl Hn H.
    destruct (DownBlock_radius_list64_chain _ _ _ _ H) as (Hl & H0 & Hs).
    split; [exact Hl|]. split.
    + destruct rl as [|r0 rl]; [simpl in Hl; lia|].
      simpl. f_equal. apply H0. reflexivity.
    + intros s Hlt. destruct s as [|s]; [lia|].
      replace (S s - 1)%nat with s by lia.
      destruct (nth_error rl s) as [prev|] eqn:Ep;
        [|apply nth_error_None in Ep; lia].
      destruct (nth_error rl (S s)) as [cur|] eqn:Ec;
        [|apply nth_error_None in Ec; lia].
      exists prev, cur. split; [reflexivity|]. split; [reflexivity|].
      exact (Hs s prev cur Ep Ec).
  - intros args blk. apply InitFacts.radius_schedule.
Qed.

End Construction.

Lemma radius_schedule_as_computed_witness :
  (DownBlock_radius_list64 2 0.25 3 = Ok [2; 4; 8]
   /\ length [2; 4; 8] = 3%nat
   /\ nth_error [2; 4; 8] 0 = Some (2 * sqrt 0.25 / sqrt 0.25)
   /\ forall s : nat,
        (1 <= s < 3)%nat ->
        exists prev cur,
          nth_error [2; 4; 8] (s - 1) = Some prev
          /\ nth_error [2; 4; 8] s = Some cur
          /\ cur = prev / sqrt 0.25)
  /\ exists blk,
       Init.DownBlock_init Examples.mlp_mid
         (Examples.down_args (1 / 4)%R (Some "fps"%string)) = Ok blk
       /\ length (Init.radius_list blk) = 3%nat
       /\ nth_error (Init.radius_list blk) 0 = Some 1%R
       /\ forall s : nat,
            (1 <= s < 3)%nat ->
            exists prev cur,
              nth_error (Init.radius_list blk) (s - 1) = Some prev
              /\ nth_error (Init.radius_list blk) s = Some cur
              /\ cur = (prev / R_sqrt.sqrt (1 / 4))%R.
Proof.
  split.
  - split; [reflexivity|].
    apply (proj1 (radius_schedule_as_computed Examples.mlp_mid) 2 0.25 3%Z [2; 4; 8]);
      [lia | reflexivity].
  - destruct (InitFacts.DownBlock_init_ok Examples.mlp_mid
                (Examples.down_args (1 / 4)%R (Some "fps"%string))) as [blk H].
    + simpl. lra.
    + right. split; [exact InitFacts.quarter_ne_one | reflexivity].
    + simpl. lia.
    + reflexivity.
    + reflexivity.
    + discriminate.
    + exists blk. split; [exact H|].
      apply (proj2 (radius_schedule_as_computed Examples.mlp_mid)
               (Examples.down_args (1 / 4)%R (Some "fps"%string)) blk).
      * simpl. lra.
      * simpl. lra.
      * simpl. lia.
      * exact H.
Defined.

End Binary64Facts.
